(** * The document retrieval pipeline (src/rag): chunker, embedding adapter,
      vector store and retriever, embedded in Rocq.

    Python text is a list of characters (code points below 256), integers
    are [Z] and lengths, counts and positions [nat], floats are the
    rationals of binary64 with every operation rounded to nearest, ties to
    even ([Py.fl]; infinities and NaN are not modelled, and no value of the
    pipeline reaches them), dictionaries that are only looked up are
    [gmap]s, and a dictionary that is iterated is the list of its items in
    iteration order.  Calls into ChromaDB, sentence-transformers
    and nltk go through explicit interfaces; [logger] calls and the calls
    to those collaborators are recorded as events, console [print]s are
    not. *)

From Stdlib Require Import ZArith QArith Qpower Qround Qabs Lqa Lia List Ascii String.
From stdpp Require Import base list gmap strings pretty.
Import ListNotations.
Open Scope Z_scope.

(** ** Python values and string primitives *)

Module Py.

Abbreviation str := (list ascii).

(** A string literal. *)
Definition lit (s : string) : str := list_ascii_of_string s.
Arguments lit : simpl never.

Definition len {A} (l : list A) : Z := Z.of_nat (length l).

(** [str.isspace] on one character (code points below 256). *)
Definition isspace (c : ascii) : bool :=
  let n := Z.of_nat (nat_of_ascii c) in
  ((9 <=? n) && (n <=? 13)) || ((28 <=? n) && (n <=? 32))
  || (n =? 133) || (n =? 160).

(** [\w] of the [re] module on one character (code points below 256). *)
Definition isword (c : ascii) : bool :=
  let n := Z.of_nat (nat_of_ascii c) in
  ((48 <=? n) && (n <=? 57)) || ((65 <=? n) && (n <=? 90)) || (n =? 95)
  || ((97 <=? n) && (n <=? 122))
  || (n =? 170) || (n =? 178) || (n =? 179) || (n =? 181) || (n =? 185)
  || (n =? 186) || ((188 <=? n) && (n <=? 190))
  || ((192 <=? n) && (n <=? 214)) || ((216 <=? n) && (n <=? 246))
  || ((248 <=? n) && (n <=? 255)).

Definition truthy {A} (l : list A) : bool :=
  match l with [] => false | _ => true end.

Fixpoint lstrip (s : str) : str :=
  match s with
  | c :: rest => if isspace c then lstrip rest else s
  | [] => []
  end.

Definition rstrip (s : str) : str := reverse (lstrip (reverse s)).

(** [s.strip()] *)
Definition strip (s : str) : str := rstrip (lstrip s).

(** [s.split()]: the maximal runs of non-whitespace characters. *)
Fixpoint split (s : str) : list str :=
  match s with
  | [] => []
  | c :: rest =>
      let ws := split rest in
      if isspace c then ws
      else match rest with
           | [] => [[c]]
           | c' :: _ =>
               if isspace c' then [c] :: ws
               else match ws with
                    | w :: ws' => (c :: w) :: ws'
                    | [] => [[c]]
                    end
           end
  end.

(** [sep.join(parts)] *)
Fixpoint join (sep : str) (parts : list str) : str :=
  match parts with
  | [] => []
  | [p] => p
  | p :: ps => p ++ sep ++ join sep ps
  end.

(** A slice bound as Python normalises it against the length [n]. *)
Definition clamp (n i : Z) : Z :=
  if i <? 0 then Z.max (i + n) 0 else Z.min i n.

(** [s[a:b]] *)
Definition slice {A} (s : list A) (a b : Z) : list A :=
  let a' := clamp (len s) a in
  let b' := clamp (len s) b in
  take (Z.to_nat (b' - a')) (drop (Z.to_nat a') s).

(** [s[a:]] *)
Definition slice_from {A} (s : list A) (a : Z) : list A :=
  drop (Z.to_nat (clamp (len s) a)) s.

(** [s[:b]] *)
Definition slice_to {A} (s : list A) (b : Z) : list A := slice s 0 b.

(** [s[i]]; [None] stands for IndexError. *)
Definition index {A} (s : list A) (i : Z) : option A :=
  if i <? 0 then
    if i + len s <? 0 then None else s !! Z.to_nat (i + len s)
  else s !! Z.to_nat i.

Fixpoint rfind_from (s : str) (c : ascii) (i found : Z) : Z :=
  match s with
  | [] => found
  | x :: rest => rfind_from rest c (i + 1) (if Ascii.eqb x c then i else found)
  end.

(** [s.rfind(c)] for a one-character needle: the last index, or -1. *)
Definition rfind (s : str) (c : ascii) : Z := rfind_from s c 0 (-1).

Fixpoint startswith (s prefix : str) : bool :=
  match prefix, s with
  | [], _ => true
  | p :: prefix', c :: s' => Ascii.eqb p c && startswith s' prefix'
  | _ :: _, [] => false
  end.

(** [s.split(sep)] for a non-empty separator: cut at each occurrence found
    scanning left to right; [cur] holds the current piece reversed, [skip]
    counts the characters of a matched separator still to pass over. *)
Fixpoint split_on_from (sep : str) (s : str) (cur : str) (skip : nat) : list str :=
  match s with
  | [] => [reverse cur]
  | c :: rest =>
      match skip with
      | S k => split_on_from sep rest cur k
      | O =>
          if startswith s sep
          then reverse cur :: split_on_from sep rest [] (length sep - 1)
          else split_on_from sep rest (c :: cur) O
      end
  end.

Definition split_on (sep : str) (s : str) : list str := split_on_from sep s [] O.

(** [parts[-1]] of a non-empty list. *)
Definition last_piece (parts : list str) : str := List.last parts [].

(** What a call can come to: a value, an exception, or no answer within the
    loop budget given to the model of an unbounded [while]. *)
Inductive exn :=
| RuntimeError (msg : string)
| IndexError
| AttributeError
| TypeError
| ZeroDivisionError
| ImportError
| External (msg : string).

Inductive outcome (A : Type) :=
| Returns (a : A)
| Raises (e : exn)
| OutOfFuel.
Arguments Returns {A} a.
Arguments Raises {A} e.
Arguments OutOfFuel {A}.

Definition obind {A B} (x : outcome A) (f : A -> outcome B) : outcome B :=
  match x with
  | Returns a => f a
  | Raises e => Raises e
  | OutOfFuel => OutOfFuel
  end.

Inductive level := LDebug | LInfo | LWarning | LError.

(** A [logger] call; the text is the fixed part of the message, [about] the
    exception an f-string interpolates into it. *)
Record log_record := Log { log_level : level; log_text : string; about : option exn }.

(** [x or default] for an optional integer: [None] and [0] are falsy. *)
Definition or_int (x : option Z) (default : Z) : Z :=
  match x with
  | Some v => if v =? 0 then default else v
  | None => default
  end.

(** The values a metadata mapping can hold.  A dictionary is the list of
    its items in iteration order; [POther] is any other object, known by
    its [str()] and [repr()] forms. *)
Inductive scalar :=
| SNone
| SBool (b : bool)
| SInt (z : Z)
| SFloat (q : Q)
| SStr (s : str).

#[local] Unset Elimination Schemes.
Inductive pyval :=
| PScalar (v : scalar)
| PList (items : list pyval)
| PDict (items : list (str * pyval))
| POther (str_form repr_form : str).
#[local] Set Elimination Schemes.

(** The two printing routines of the interpreter that are not modelled:
    [repr] of a float and [repr] of a string (quoting and escapes). *)
Class PyText := {
  float_repr : Q -> str;
  str_repr : str -> str
}.

Definition scalar_repr `{PyText} (v : scalar) : str :=
  match v with
  | SNone => lit "None"
  | SBool true => lit "True"
  | SBool false => lit "False"
  | SInt z => lit (pretty z)
  | SFloat q => float_repr q
  | SStr s => str_repr s
  end.

(** [repr(v)] *)
Fixpoint repr `{PyText} (v : pyval) : str :=
  match v with
  | PScalar v => scalar_repr v
  | PList items => lit "[" ++ join (lit ", ") (map repr items) ++ lit "]"
  | PDict items =>
      lit "{"
      ++ join (lit ", ") (map (λ kv, str_repr kv.1 ++ lit ": " ++ repr kv.2) items)
      ++ lit "}"
  | POther _ repr_form => repr_form
  end.

(** [str(v)] *)
Definition py_str `{PyText} (v : pyval) : str :=
  match v with
  | PScalar (SStr s) => s
  | POther str_form _ => str_form
  | _ => repr v
  end.

(** [isinstance(v, (str, int, float, bool)) or v is None] *)
Definition is_scalar (v : pyval) : bool :=
  match v with PScalar _ => true | _ => false end.

(** [isinstance(v, dict)] *)
Definition is_dict (v : pyval) : bool :=
  match v with PDict _ => true | _ => false end.

(** The number a bool, int or float stands for in a comparison. *)
Definition number (v : scalar) : option Q :=
  match v with
  | SBool b => Some (if b then 1%Q else 0%Q)
  | SInt z => Some (inject_Z z)
  | SFloat q => Some q
  | _ => None
  end.

(** [a == b] on scalars: numbers compare by value across bool, int and
    float; [None] and strings equal only themselves. *)
Definition py_eq (a b : scalar) : bool :=
  match a, b with
  | SNone, SNone => true
  | SStr x, SStr y => bool_decide (x = y)
  | _, _ =>
      match number a, number b with
      | Some x, Some y => Qeq_bool x y
      | _, _ => false
      end
  end.

(** [x or default] for an optional float: [None] and [0.0] are falsy. *)
Definition or_float (x : option Q) (default : Q) : Q :=
  match x with
  | Some v => if Qeq_bool v 0 then default else v
  | None => default
  end.

(** *** Binary64 arithmetic

    A finite double is a rational [m * 2 ^ e] with [|m| < 2 ^ 53] and
    [-1074 <= e]; an operation on doubles is the exact operation followed
    by [fl]. *)

(** [floor (log2 q)] for a positive [q]. *)
Definition exponent (q : Q) : Z :=
  let e := Z.log2 (Qnum q) - Z.log2 (Zpos (Qden q)) in
  if Qle_bool (2 ^ e) q then e else e - 1.

(** The integer nearest [x], the even one of two that are equally near. *)
Definition half_even (x : Q) : Z :=
  let below := Qfloor x in
  match (x - inject_Z below ?= 1 # 2)%Q with
  | Lt => below
  | Gt => below + 1
  | Eq => if Z.even below then below else below + 1
  end.

(** The double nearest [q]: 53 significant bits, and below [2 ^ -1022] the
    fixed spacing [2 ^ -1074] of the subnormal numbers.  A value beyond
    the largest double is rounded in the same way, where binary64 gives an
    infinity. *)
Definition fl (q : Q) : Q :=
  if Qeq_bool q 0 then 0%Q
  else
    let magnitude := Qabs q in
    let ulp := (2 ^ (Z.max (exponent magnitude) (-1022) - 52))%Q in
    let nearest := (inject_Z (half_even (magnitude / ulp)) * ulp)%Q in
    Qred (if Qle_bool 0 q then nearest else - nearest).

(** [a + b] and [a / b] on floats ([b] not zero). *)
Definition fadd (a b : Q) : Q := fl (a + b).
Definition fdiv (a b : Q) : Q := fl (a / b).

(** [str.lower] on one character (code points below 256). *)
Definition lower_char (c : ascii) : ascii :=
  let n := nat_of_ascii c in
  if ((65 <=? n) && (n <=? 90))%nat
     || ((192 <=? n) && (n <=? 222) && negb (n =? 215))%nat
  then ascii_of_nat (n + 32) else c.

Definition lower (s : str) : str := map lower_char s.

(** [needle in s] *)
Fixpoint contains (s needle : str) : bool :=
  startswith s needle
  || match s with
     | [] => false
     | _ :: rest => contains rest needle
     end.

End Py.
Import Py.

(** ** rag_config (src/rag/__init__.py) *)

Module rag_config.
Definition chunk_size : Z := 1000.
Definition chunk_overlap : Z := 200.
Definition max_chunks_per_doc : Z := 100.
Definition default_top_k : Z := 5.
Definition similarity_threshold : Q := fl (7 # 10).
Definition max_query_length : Z := 500.
End rag_config.

(** ** The chunker (src/rag/chunk_processor.py) *)

Module Chunk.

Record metadata := {
  chunk_id : str;
  chunk_index : nat;
  source_document : str;
  source_metadata : pyval;
  chunk_size : nat;
  word_count : nat;
  created_at : str
}.

Record t := { content : str; meta : metadata }.

End Chunk.

Module Document.

(** A document dictionary; [None] is a missing key. *)
Record t := {
  content : option str;
  metadata : option pyval;
  source : option str
}.

End Document.

Module ChunkProcessor.

Record t := {
  chunk_size : Z;
  chunk_overlap : Z;
  preserve_sentences : bool;
  max_chunks_per_doc : Z
}.

(** [ChunkProcessor.__init__] *)
Definition init (chunk_size chunk_overlap : option Z) (preserve_sentences : bool) : t :=
  {| chunk_size := or_int chunk_size rag_config.chunk_size;
     chunk_overlap := or_int chunk_overlap rag_config.chunk_overlap;
     preserve_sentences := preserve_sentences;
     max_chunks_per_doc := rag_config.max_chunks_per_doc |}.

(** What the chunker takes from its surroundings: nltk's sentence
    tokenizer ([None] when the import fails) and the clock read by
    [_get_timestamp], as the text returned by its n-th call. *)
Record env := {
  nltk : option (str -> outcome (list str));
  clock : nat -> str
}.

(** [re.sub(r'\s+', ' ', text)] *)
Fixpoint collapse_whitespace (s : str) (in_run : bool) : str :=
  match s with
  | [] => []
  | c :: rest =>
      if isspace c
      then (if in_run then collapse_whitespace rest true
            else " "%char :: collapse_whitespace rest true)
      else c :: collapse_whitespace rest false
  end.

(** The characters [_clean_text] keeps: word characters, whitespace, and
    . , ! ? ; : ( ) - and the double quote (code 34). *)
Definition allowed (c : ascii) : bool :=
  isword c || isspace c
  || bool_decide (c ∈ [".";",";"!";"?";";";":";"(";")";"-";"034"]%char).

(** [ChunkProcessor._clean_text] *)
Definition _clean_text (text : str) : str :=
  if negb (truthy text) then []
  else
    let text := collapse_whitespace text false in
    let text := map (λ c, if allowed c then c else " "%char) text in
    let text := join (lit " ") (split text) in
    strip text.

(** [re.split(r'[.!?]+', text)]: the pieces between maximal runs of
    sentence-ending characters; [cur] is the current piece reversed. *)
Fixpoint split_sentence_ends (s : str) (cur : str) (in_run : bool) : list str :=
  match s with
  | [] => [reverse cur]
  | c :: rest =>
      if bool_decide (c ∈ [".";"!";"?"]%char)
      then (if in_run then split_sentence_ends rest [] true
            else reverse cur :: split_sentence_ends rest [] true)
      else split_sentence_ends rest (c :: cur) false
  end.

(** [ChunkProcessor._simple_sentence_split] *)
Definition _simple_sentence_split (text : str) : list str :=
  let sentences := split_sentence_ends text [] false in
  filter (λ sentence, truthy sentence && (10 <? len sentence) = true)
         (map strip sentences).

(** The body of the [while] loop of [_chunk_by_characters]; [fuel] bounds
    the number of times the loop condition is evaluated. *)
Fixpoint chunk_loop (self : t) (fuel : nat) (text : str) (start : Z)
    (chunks : list str) : outcome (list str) :=
  match fuel with
  | O => OutOfFuel
  | S fuel =>
      let text_length := len text in
      if negb (start <? text_length) then Returns chunks
      else
        let end_ := start + chunk_size self in
        let chunk_text := slice text start end_ in
        obind
          (if end_ <? text_length
           then match index text end_ with
                | Some c => Returns (negb (isspace c))
                | None => Raises IndexError
                end
           else Returns false)
          (λ at_word,
            let last_space := rfind chunk_text " " in
            let cut := at_word && (4 * chunk_size self <? 5 * last_space) in
            let chunk_text := if cut then slice_to chunk_text last_space else chunk_text in
            let end_ := if cut then start + last_space else end_ in
            let chunks := chunks ++ [chunk_text] in
            if text_length <=? end_ then Returns chunks
            else chunk_loop self fuel text (end_ - chunk_overlap self) chunks)
  end.

(** [ChunkProcessor._chunk_by_characters] *)
Definition _chunk_by_characters (self : t) (fuel : nat) (text : str) : outcome (list str) :=
  chunk_loop self fuel text 0 [].

(** The prefix [_add_overlap] takes from the previous chunk. *)
Definition overlap_of (self : t) (previous_chunk : str) : str :=
  let overlap_text :=
    if chunk_overlap self <? len previous_chunk
    then slice_from previous_chunk (- chunk_overlap self)
    else previous_chunk in
  let overlap_sentences := split_on (lit ". ") overlap_text in
  if 1 <? len overlap_sentences then last_piece overlap_sentences else overlap_text.

Fixpoint overlap_loop (self : t) (previous_chunk : str) (chunks : list str) : list str :=
  match chunks with
  | [] => []
  | current_chunk :: rest =>
      (overlap_of self previous_chunk ++ lit " " ++ current_chunk)
        :: overlap_loop self current_chunk rest
  end.

(** [ChunkProcessor._add_overlap] *)
Definition _add_overlap (self : t) (chunks : list str) : list str :=
  if len chunks <=? 1 then chunks
  else match chunks with
       | first :: rest => first :: overlap_loop self first rest
       | [] => []
       end.

(** The [for sentence in sentences] loop of [_chunk_by_sentences]; it
    returns [chunks] and [current_chunk]. *)
Fixpoint pack (self : t) (fuel : nat) (sentences : list str)
    (chunks : list str) (current_chunk : str) : outcome (list str * str) :=
  match sentences with
  | [] => Returns (chunks, current_chunk)
  | sentence :: rest =>
      let potential_chunk :=
        if truthy current_chunk then current_chunk ++ lit " " ++ sentence
        else sentence in
      if len potential_chunk <=? chunk_size self
      then pack self fuel rest chunks potential_chunk
      else
        let chunks := if truthy current_chunk then chunks ++ [current_chunk] else chunks in
        let current_chunk := sentence in
        if chunk_size self <? len current_chunk
        then obind (_chunk_by_characters self fuel current_chunk)
               (λ char_chunks,
                 pack self fuel rest
                   (chunks ++ slice_to char_chunks (-1))
                   (if truthy char_chunks then List.last char_chunks [] else []))
        else pack self fuel rest chunks current_chunk
  end.

(** The sentences of [text]: nltk's when it can be imported, the simple
    split otherwise. *)
Definition sentences_of (e : env) (text : str) : outcome (list str) :=
  match nltk e with
  | Some sent_tokenize =>
      match sent_tokenize text with
      | Raises ImportError => Returns (_simple_sentence_split text)
      | r => r
      end
  | None => Returns (_simple_sentence_split text)
  end.

(** [ChunkProcessor._chunk_by_sentences] *)
Definition _chunk_by_sentences (self : t) (e : env) (fuel : nat) (text : str)
    : outcome (list str) :=
  obind (sentences_of e text) (λ sentences,
  obind (pack self fuel sentences [] []) (λ '(chunks, current_chunk),
    let chunks := if truthy current_chunk then chunks ++ [current_chunk] else chunks in
    Returns (_add_overlap self chunks))).

(** The chunk dictionary [process_document] builds for [chunk_text], the
    [i]-th element of [chunks], when [n] chunks were emitted before it. *)
Definition make_chunk (e : env) (source_path : str) (source_metadata : pyval)
    (n : nat) (i : nat) (chunk_text : str) : Chunk.t :=
  let chunk_metadata :=
    {| Chunk.chunk_id := source_path ++ lit "_chunk_" ++ lit (pretty i);
       Chunk.chunk_index := i;
       Chunk.source_document := source_path;
       Chunk.source_metadata := source_metadata;
       Chunk.chunk_size := length chunk_text;
       Chunk.word_count := length (split chunk_text);
       Chunk.created_at := clock e n |} in
  {| Chunk.content := strip chunk_text; Chunk.meta := chunk_metadata |}.

(** [len(chunk_text.strip()) < 50]: the chunk is skipped. *)
Definition too_small (chunk_text : str) : bool := len (strip chunk_text) <? 50.

(** The [for i, chunk_text in enumerate(chunks)] loop of
    [process_document]; it returns [processed_chunks] and what was logged. *)
Fixpoint emit (self : t) (e : env) (source_path : str) (source_metadata : pyval)
    (i : nat) (chunks : list str) (processed_chunks : list Chunk.t)
    : list Chunk.t * list log_record :=
  match chunks with
  | [] => (processed_chunks, [])
  | chunk_text :: rest =>
      if too_small chunk_text
      then emit self e source_path source_metadata (S i) rest processed_chunks
      else
        let chunk :=
          make_chunk e source_path source_metadata (length processed_chunks)
                     i chunk_text in
        let processed_chunks := processed_chunks ++ [chunk] in
        if max_chunks_per_doc self <=? len processed_chunks
        then (processed_chunks,
              [Log LWarning "Reached max chunks limit for document" None])
        else emit self e source_path source_metadata (S i) rest processed_chunks
  end.

(** The elements of [chunks] that pass the 50-character test, each with
    its position in [chunks] (counted from [i]). *)
Fixpoint survivors (i : nat) (chunks : list str) : list (nat * str) :=
  match chunks with
  | [] => []
  | chunk_text :: rest =>
      if too_small chunk_text then survivors (S i) rest
      else (i, chunk_text) :: survivors (S i) rest
  end.

(** How many of the first [k] elements of [chunks] the 50-character test
    discards. *)
Definition discarded_before (k : nat) (chunks : list str) : nat :=
  length (filter (λ c, too_small c = true) (take k chunks)).

(** The list [chunks] that [process_document] builds before it attaches
    metadata: the segmentation of the cleaned text. *)
Definition segmentation (self : t) (e : env) (fuel : nat) (content : str)
    : outcome (list str) :=
  let cleaned_text := _clean_text content in
  if preserve_sentences self
  then _chunk_by_sentences self e fuel cleaned_text
  else _chunk_by_characters self fuel cleaned_text.

(** [ChunkProcessor.process_document]: the chunks returned and what was
    logged. *)
Definition process_document (self : t) (e : env) (fuel : nat)
    (document : Document.t) : outcome (list Chunk.t) * list log_record :=
  match Document.content document with
  | None => (Returns [], [Log LError "Invalid document format" None])
  | Some content =>
      if negb (truthy content) || negb (truthy (strip content))
      then (Returns [], [Log LWarning "Document has no content to chunk" None])
      else
        match segmentation self e fuel content with
        | Returns chunks =>
            let source_metadata := default (PDict []) (Document.metadata document) in
            let source_path := default (lit "unknown") (Document.source document) in
            let '(processed_chunks, logs) :=
              emit self e source_path source_metadata 0 chunks [] in
            (Returns processed_chunks, logs)
        | Raises ex =>
            (Returns [], [Log LError "Error processing document" (Some ex)])
        | OutOfFuel => (OutOfFuel, [])
        end
  end.

(** [ChunkProcessor.process_multiple_documents] *)
Fixpoint process_multiple_documents (self : t) (e : env) (fuel : nat)
    (documents : list Document.t) : outcome (list Chunk.t) :=
  match documents with
  | [] => Returns []
  | document :: rest =>
      obind (fst (process_document self e fuel document)) (λ chunks,
      obind (process_multiple_documents self e fuel rest) (λ all_chunks,
        Returns (chunks ++ all_chunks)))
  end.

End ChunkProcessor.

(** ** Effects: state, exceptions and a trace *)

Module Eff.

Abbreviation embedding := (list Q).

(** The calls that leave the pipeline. *)
Inductive call :=
| ModelEncode (texts : list str)
| CollectionCount
| CollectionAdd (documents : list str) (metadatas : list (gmap str pyval))
                (ids : list str)
| CollectionQuery (query_embedding : embedding) (n_results : Z)
| CollectionDelete (ids : list str)
| ClientDeleteCollection (name : str)
| ClientCreateCollection (name : str).

Inductive event :=
| Logged (r : log_record)
| Called (c : call).

(** A computation on a state [S]: its outcome, the state it leaves and what
    it logged and called, in order.  The state reached before an exception
    is kept, as in Python. *)
Record run (S A : Type) := Run {
  result : outcome A;
  final : S;
  trace : list event
}.
Arguments Run {S A}.
Arguments result {S A}.
Arguments final {S A}.
Arguments trace {S A}.

Definition M (S A : Type) : Type := S -> run S A.

Definition ret {S A} (a : A) : M S A := λ s, Run (Returns a) s [].

Definition raise {S A} (e : exn) : M S A := λ s, Run (Raises e) s [].

Definition bind {S A B} (m : M S A) (k : A -> M S B) : M S B :=
  λ s,
    let r := m s in
    match result r with
    | Returns a =>
        let r' := k a (final r) in
        Run (result r') (final r') (trace r ++ trace r')
    | Raises e => Run (Raises e) (final r) (trace r)
    | OutOfFuel => Run OutOfFuel (final r) (trace r)
    end.

(** [try: body except Exception as e: handler(e)] *)
Definition try_except {S A} (body : M S A) (handler : exn -> M S A) : M S A :=
  λ s,
    let r := body s in
    match result r with
    | Raises e =>
        let r' := handler e (final r) in
        Run (result r') (final r') (trace r ++ trace r')
    | _ => r
    end.

Definition get {S} : M S S := λ s, Run (Returns s) s [].
Definition put {S} (s : S) : M S unit := λ _, Run (Returns tt) s [].
Definition tell {S} (ev : event) : M S unit := λ s, Run (Returns tt) s [ev].
Definition log {S} (l : level) (text : string) (about : option exn) : M S unit :=
  tell (Logged (Log l text about)).

(** An outcome computed without touching the state. *)
Definition lift {S A} (o : outcome A) : M S A := λ s, Run o s [].

(** Several records at once. *)
Definition tell_all {S} (evs : list event) : M S unit :=
  λ s, Run (Returns tt) s evs.

(** A call to a collaborator: recorded, then answered. *)
Definition calling {S A} (c : call) (answer : outcome A) : M S A :=
  λ s, Run answer s [Called c].

(** Run a computation on a part of the state; [None] is a missing object,
    on which any method call raises AttributeError. *)
Definition within {S T A} (part : S -> option T) (update : T -> S -> S)
    (m : M T A) : M S A :=
  λ s,
    match part s with
    | Some t => let r := m t in Run (result r) (update (final r) s) (trace r)
    | None => Run (Raises AttributeError) s []
    end.

Declare Scope eff_scope.
Delimit Scope eff_scope with eff.
Notation "'let*' x ':=' m 'in' k" := (bind m (λ x, k))
  (at level 10, x name, m at level 100, k at level 200) : eff_scope.
Notation "m ';;;' k" := (bind m (λ _, k))
  (at level 100, k at level 200, right associativity) : eff_scope.

End Eff.

(** ** The embedding adapter (src/rag/embedding.py) *)

Module EmbeddingModel.
Import Eff.
Local Open Scope eff_scope.

(** [model] is the loaded sentence-transformers model, as its [encode]
    method. *)
Record t := {
  model_name : str;
  model : option (list str -> outcome (list embedding));
  dimension : Z
}.

(** [EmbeddingModel.clean_text] *)
Definition clean_text (text : str) : str :=
  if negb (truthy text) || negb (truthy (strip text)) then []
  else
    let text := strip text in
    join [] (split text).

(** The argument of [encode_text]: one string or a list of strings. *)
Inductive texts := One (text : str) | Many (text : list str).

(** [if isinstance(text, str): text = [text]] *)
Definition as_list (text : texts) : list str :=
  match text with One t => [t] | Many l => l end.

(** [EmbeddingModel.encode_text] *)
Definition encode_text {S} (self : t) (text : texts) : M S (list embedding) :=
  match model self with
  | None => raise (RuntimeError "Embedding model not loaded")
  | Some encode =>
      try_except
        (let text := as_list text in
         let cleaned_text := map clean_text text in
         let* embedding := calling (ModelEncode cleaned_text) (encode cleaned_text) in
         log LDebug "Generated embeddings" None ;;;
         ret embedding)
        (λ e, log LError "Error generating embeddings" (Some e) ;;; raise e)
  end.

(** [EmbeddingModel.encode_query] *)
Definition encode_query {S} (self : t) (query : str) : M S embedding :=
  let query :=
    if rag_config.max_query_length <? len query
    then slice_to query rag_config.max_query_length else query in
  let* embeddings := encode_text self (One query) in
  match embeddings with
  | first :: _ => ret first
  | [] => raise IndexError
  end.

End EmbeddingModel.

(** ** The vector store (src/rag/vector_store.py) *)

Module VectorStore.
Import Eff.
Local Open Scope eff_scope.

(** What [collection.query] answers: for each query embedding, the
    documents, metadata and distances of its nearest entries. *)
Record query_result := {
  documents : option (list (list str));
  metadatas : option (list (list (gmap str scalar)));
  distances : option (list (list Q))
}.

(** The ChromaDB collection and client behind the store. *)
Class Chroma (C : Type) := {
  count : C -> outcome nat;
  add : C -> list str -> list embedding -> list (gmap str pyval) -> list str
        -> outcome C;
  query : C -> embedding -> Z -> outcome query_result;
  delete : C -> list str -> outcome C;
  delete_collection : C -> outcome unit;
  create_collection : str -> outcome C
}.

(** The store object; [collection] is [None] until the collection handle
    is opened. *)
Record t (C : Type) := {
  collection_name : str;
  collection : option C
}.
Arguments collection_name {C}.
Arguments collection {C}.

(** One entry of a search result. *)
Record hit := {
  document : str;
  metadata : gmap str scalar;
  similarity_score : Q;
  distance : Q
}.

Section Flatten.
Context `{PyText}.

(** [_flatten_recursive] of [_flatten_metadata], with the dictionary
    [flattened] it fills passed along. *)
Fixpoint _flatten_recursive (obj : pyval) (prefix : str)
    (flattened : gmap str pyval) : gmap str pyval :=
  match obj with
  | PDict items =>
      (fix each (items : list (str * pyval)) (flattened : gmap str pyval) :=
         match items with
         | [] => flattened
         | (key, value) :: rest =>
             let new_key :=
               if truthy prefix then prefix ++ lit "_" ++ key else key in
             each rest
               match value with
               | PDict _ => _flatten_recursive value new_key flattened
               | PScalar _ => <[new_key := value]> flattened
               | PList elements =>
                   <[new_key :=
                       PScalar (SStr (join (lit ", ") (map py_str elements)))]>
                     flattened
               | POther _ _ =>
                   <[new_key := PScalar (SStr (py_str value))]> flattened
               end
         end) items flattened
  | _ =>
      <[prefix := if is_scalar obj then obj else PScalar (SStr (py_str obj))]>
        flattened
  end.

(** [VectorStore._flatten_metadata] *)
Definition _flatten_metadata (metadata : pyval) : gmap str pyval :=
  let flattened := _flatten_recursive metadata [] ∅ in
  (λ value, if is_scalar value then value else PScalar (SStr (py_str value)))
    <$> flattened.

End Flatten.

(** [1 / (1 + distance)], both operations in binary64; a zero denominator
    raises. *)
Definition similarity_of (distance : Q) : outcome Q :=
  let denominator := fadd 1 distance in
  if Qeq_bool denominator 0 then Raises ZeroDivisionError
  else Returns (fdiv 1 denominator).

(** The [for doc, metadata, distance in zip(...)] loop of
    [search_similar]. *)
Fixpoint collect (similarity_threshold : Q)
    (rows : list (str * gmap str scalar * Q)) (similar_docs : list hit)
    : outcome (list hit) :=
  match rows with
  | [] => Returns similar_docs
  | (doc, metadata, distance) :: rest =>
      obind (similarity_of distance) (λ similarity,
        collect similarity_threshold rest
          (if Qle_bool similarity_threshold similarity
           then similar_docs
                ++ [{| document := doc; metadata := metadata;
                       similarity_score := similarity; distance := distance |}]
           else similar_docs))
  end.

(** The rows [search_similar] reads off an answer of [collection.query]. *)
Definition rows_of (results : query_result)
    : list (str * gmap str scalar * Q) :=
  match documents results with
  | Some (first :: _) =>
      if truthy first then
        let documents := first in
        let metadatas :=
          match metadatas results with
          | Some (m :: _) => m
          | _ => replicate (length documents) ∅
          end in
        let distances :=
          match distances results with
          | Some (d :: _) => d
          | _ => replicate (length documents) 0%Q
          end in
        zip (zip documents metadatas) distances
      else []
  | _ => []
  end.

(** The entry [search_similar] builds from a row. *)
Definition hit_of (row : str * gmap str scalar * Q) : hit :=
  {| document := row.1.1;
     metadata := row.1.2;
     similarity_score := fdiv 1 (fadd 1 row.2);
     distance := row.2 |}.

(** The row clears the threshold. *)
Definition clears (threshold : Q) (row : str * gmap str scalar * Q) : Prop :=
  Qle_bool threshold (fdiv 1 (fadd 1 row.2)) = true.

#[global] Instance clears_dec threshold row : Decision (clears threshold row).
Proof. unfold clears. apply _. Defined.

Section Store.
Context {C : Type} `{Chroma C} `{PyText}.

Definition set_collection (c : C) : M (t C) unit :=
  let* self := get in
  put {| collection_name := collection_name self; collection := Some c |}.

(** [if not self.collection: raise RuntimeError(...)] *)
Definition require_collection : M (t C) C :=
  let* self := get in
  match collection self with
  | Some c => ret c
  | None => raise (RuntimeError "Vector store not initialized")
  end.

(** [VectorStore.add_documents] *)
Definition add_documents (documents : list str) (embeddings : list embedding)
    (metadata : list pyval) (ids : option (list str)) : M (t C) bool :=
  try_except
    (let* c := require_collection in
     let* ids :=
       match ids with
       | Some ids => ret ids
       | None =>
           let* existing_count := calling CollectionCount (count c) in
           ret (map (λ i, lit "doc_" ++ lit (pretty (existing_count + i)%nat))
                    (seq 0 (length documents)))
       end in
     let flattened_metadata :=
       map (λ meta,
              if is_dict meta then _flatten_metadata meta
              else {[ lit "content" := PScalar (SStr (py_str meta)) ]})
           metadata in
     let* c' := calling (CollectionAdd documents flattened_metadata ids)
                        (add c documents embeddings flattened_metadata ids) in
     set_collection c' ;;;
     log LInfo "Added documents to collection" None ;;;
     ret true)
    (λ e, log LError "Error adding documents" (Some e) ;;; ret false).

(** [VectorStore.search_similar] *)
Definition search_similar (query_embedding : embedding) (top_k : Z)
    (similarity_threshold : Q) : M (t C) (list hit) :=
  try_except
    (let* c := require_collection in
     let* results := calling (CollectionQuery query_embedding top_k)
                             (query c query_embedding top_k) in
     let* similar_docs :=
       lift (collect similarity_threshold (rows_of results) []) in
     log LDebug "Found similar documents" None ;;;
     ret similar_docs)
    (λ e, log LError "Error searching vector store" (Some e) ;;; ret []).

(** [VectorStore.delete_document] *)
Definition delete_document (ids : list str) : M (t C) bool :=
  try_except
    (let* c := require_collection in
     let* c' := calling (CollectionDelete ids) (delete c ids) in
     set_collection c' ;;;
     ret true)
    (λ e, log LError "Error deleting documents" (Some e) ;;; ret false).

(** [VectorStore.clear_collection] *)
Definition clear_collection : M (t C) bool :=
  try_except
    (let* c := require_collection in
     let* self := get in
     calling (ClientDeleteCollection (collection_name self)) (delete_collection c) ;;;
     let* c' := calling (ClientCreateCollection (collection_name self))
                        (create_collection (collection_name self)) in
     set_collection c' ;;;
     ret true)
    (λ e, log LError "Error clearing collection" (Some e) ;;; ret false).

End Store.

End VectorStore.

(** ** The flattening transform as the specification words it *)

Module FlattenSpec.

Section Spec.
Context `{PyText}.

(** What is stored for a value that is not a mapping: a scalar as it is, a
    list as the comma-joined string forms of its elements, anything else
    as its string form. *)
Definition leaf (value : pyval) : pyval :=
  match value with
  | PScalar _ => value
  | PList elements => PScalar (SStr (join (lit ", ") (map py_str elements)))
  | _ => PScalar (SStr (py_str value))
  end.

(** The key of a child under a parent key: the two joined with an
    underscore; at the top there is no parent. *)
Definition joined (parent : option str) (key : str) : str :=
  match parent with
  | Some p => p ++ lit "_" ++ key
  | None => key
  end.

(** The entries a value contributes under its key, walking nested
    mappings. *)
Fixpoint entries (parent : option str) (key : str) (value : pyval)
    : list (str * pyval) :=
  match value with
  | PDict items =>
      flat_map (λ kv, entries (Some (joined parent key)) kv.1 kv.2) items
  | _ => [(joined parent key, leaf value)]
  end.

(** The flat mapping of a metadata dictionary; a later entry replaces an
    earlier one with the same key. *)
Definition flatten (items : list (str * pyval)) : gmap str pyval :=
  foldl (λ m kv, <[kv.1 := kv.2]> m) ∅
        (flat_map (λ kv, entries None kv.1 kv.2) items).

End Spec.

End FlattenSpec.

(** ** The retriever (src/rag/retriever.py) *)

Module RAGRetriever.
Import Eff.
Local Open Scope eff_scope.

(** The retriever object.  [embedding_model] and [vector_store] stay
    [None], and [is_ready] false, when [setup_retriever] failed. *)
Record t (C : Type) := {
  collection_name : str;
  embedding_model_name : str;
  embedding_model : option EmbeddingModel.t;
  vector_store : option (VectorStore.t C);
  is_ready : bool;
  default_top_k : Z;
  similarity_threshold : Q;
  max_query_length : Z
}.
Arguments collection_name {C}.
Arguments embedding_model_name {C}.
Arguments embedding_model {C}.
Arguments vector_store {C}.
Arguments is_ready {C}.
Arguments default_top_k {C}.
Arguments similarity_threshold {C}.
Arguments max_query_length {C}.

Definition with_vector_store {C} (store : VectorStore.t C) (self : t C) : t C :=
  {| collection_name := collection_name self;
     embedding_model_name := embedding_model_name self;
     embedding_model := embedding_model self;
     vector_store := Some store;
     is_ready := is_ready self;
     default_top_k := default_top_k self;
     similarity_threshold := similarity_threshold self;
     max_query_length := max_query_length self |}.

(** A chunk dictionary handed to [index_chunks]; [None] is a missing
    key, [metadata] the items of the metadata dictionary. *)
Record chunk := {
  content : option str;
  metadata : option (list (str * pyval))
}.

(** The dictionary built by [_analyze_query_match]. *)
Record match_info := {
  exact_word_matches : nat;
  total_query_words : nat;
  match_percentage : Q;
  matched_words : list str
}.

(** One retrieval result. *)
Record retrieved := {
  result_content : str;
  result_metadata : gmap str scalar;
  similarity_score : Q;
  distance : Q;
  relevance_rank : nat;
  query_match_info : match_info
}.

(** The query is [None], empty or whitespace only. *)
Definition blank (query : option str) : bool :=
  match query with
  | None => true
  | Some q => negb (truthy q) || negb (truthy (strip q))
  end.

(** [RAGRetriever._analyze_query_match] *)
Definition _analyze_query_match (document query : str) : match_info :=
  let doc_lower := lower document in
  let query_lower := lower query in
  let query_words := split query_lower in
  let exact_matches :=
    filter (λ word, contains doc_lower word = true) query_words in
  {| exact_word_matches := length exact_matches;
     total_query_words := length query_words;
     match_percentage :=
       if truthy query_words
       then fdiv (inject_Z (len exact_matches)) (inject_Z (len query_words))
       else 0%Q;
     matched_words := exact_matches |}.

(** [RAGRetriever._clean_query] *)
Definition _clean_query (query : str) : str :=
  let query := join (lit " ") (split query) in
  let query :=
    map (λ c, if isword c || isspace c
                 || bool_decide (c ∈ [".";",";"!";"?"]%char)
              then c else " "%char) query in
  strip query.

(** The inner [for key, value in filter_metadata.items()] loop: every
    filter key is in the metadata with an equal value. *)
Definition should_include (filter_metadata doc_metadata : gmap str scalar) : bool :=
  forallb (λ kv, match doc_metadata !! kv.1 with
                 | Some v => py_eq v kv.2
                 | None => false
                 end)
          (map_to_list filter_metadata).

(** [if filter_metadata:] followed by the inner loop: the result is kept. *)
Definition passes (filter_metadata : option (gmap str scalar))
    (doc_metadata : gmap str scalar) : bool :=
  match filter_metadata with
  | Some f => if bool_decide (f = ∅) then true else should_include f doc_metadata
  | None => true
  end.

(** The search result [doc] passes the filter. *)
Definition kept (filter_metadata : option (gmap str scalar))
    (doc : VectorStore.hit) : Prop :=
  passes filter_metadata (VectorStore.metadata doc) = true.

#[global] Instance kept_dec filter_metadata doc : Decision (kept filter_metadata doc).
Proof. unfold kept. apply _. Defined.

(** The result dictionary built for [doc] at rank [rank]. *)
Definition result_of (original_query : str) (doc : VectorStore.hit)
    (rank : nat) : retrieved :=
  {| result_content := VectorStore.document doc;
     result_metadata := VectorStore.metadata doc;
     similarity_score := VectorStore.similarity_score doc;
     distance := VectorStore.distance doc;
     relevance_rank := rank;
     query_match_info :=
       _analyze_query_match (VectorStore.document doc) original_query |}.

(** The [for doc in similar_docs] loop of [_process_search_results]. *)
Fixpoint process (original_query : str)
    (filter_metadata : option (gmap str scalar))
    (similar_docs : list VectorStore.hit) (processed_results : list retrieved)
    : list retrieved :=
  match similar_docs with
  | [] => processed_results
  | doc :: rest =>
      if passes filter_metadata (VectorStore.metadata doc) then
        let result :=
          result_of original_query doc (length processed_results + 1) in
        process original_query filter_metadata rest (processed_results ++ [result])
      else process original_query filter_metadata rest processed_results
  end.

(** [RAGRetriever._process_search_results] *)
Definition _process_search_results (similar_docs : list VectorStore.hit)
    (original_query : str) (filter_metadata : option (gmap str scalar))
    : list retrieved :=
  process original_query filter_metadata similar_docs [].

Section Retriever.
Context {C : Type} `{VectorStore.Chroma C} `{PyText}.

(** A method call on [self.embedding_model]. *)
Definition on_model {A} (m : EmbeddingModel.t -> M (t C) A) : M (t C) A :=
  let* self := get in
  match embedding_model self with
  | Some model => m model
  | None => raise AttributeError
  end.

(** A method call on [self.vector_store]. *)
Definition on_store {A} (m : M (VectorStore.t C) A) : M (t C) A :=
  within vector_store with_vector_store m.

(** The [for chunk in chunks] loop of [index_chunks]; it returns [texts],
    [metadatas], [ids] and the warnings logged.  A [chunk_id] is a string,
    as the chunker writes it; a value of another type is read as a missing
    one. *)
Fixpoint gather (chunks : list chunk) (texts : list str)
    (metadatas : list pyval) (ids : list str) (warnings : list event)
    : list str * list pyval * list str * list event :=
  match chunks with
  | [] => (texts, metadatas, ids, warnings)
  | chunk :: rest =>
      match content chunk with
      | None =>
          gather rest texts metadatas ids
            (warnings
             ++ [Logged (Log LWarning "Chunk missing content field, skipping" None)])
      | Some content =>
          if negb (truthy content) || negb (truthy (strip content))
          then gather rest texts metadatas ids warnings
          else
            let items := default [] (metadata chunk) in
            let chunk_id :=
              match (list_to_map (reverse items) : gmap str pyval) !! lit "chunk_id" with
              | Some (PScalar (SStr id)) =>
                  if truthy id then id
                  else lit "chunk_" ++ lit (pretty (length ids))
              | _ => lit "chunk_" ++ lit (pretty (length ids))
              end in
            gather rest (texts ++ [content]) (metadatas ++ [PDict items])
                   (ids ++ [chunk_id]) warnings
      end
  end.

(** [RAGRetriever.index_chunks] *)
Definition index_chunks (chunks : list chunk) : M (t C) bool :=
  let* self := get in
  if negb (is_ready self) then
    log LError "RAG retriever not ready - setup failed" None ;;; ret false
  else if negb (truthy chunks) then
    log LWarning "No chunks provided for indexing" None ;;; ret false
  else
    try_except
      (let '(texts, metadatas, ids, warnings) := gather chunks [] [] [] [] in
       tell_all warnings ;;;
       if negb (truthy texts) then
         log LError "No valid text content found in chunks" None ;;; ret false
       else
         let* embeddings :=
           on_model (λ model, EmbeddingModel.encode_text model
                                (EmbeddingModel.Many texts)) in
         let* success :=
           on_store (VectorStore.add_documents texts embeddings metadatas
                                               (Some ids)) in
         ret success)
      (λ e, log LError "Error indexing chunks" (Some e) ;;; ret false).

(** [RAGRetriever.retrieve] *)
Definition retrieve (query : option str) (top_k : option Z)
    (similarity_threshold : option Q)
    (filter_metadata : option (gmap str scalar)) : M (t C) (list retrieved) :=
  let* self := get in
  if negb (is_ready self) then
    log LError "RAG retriever not ready" None ;;; ret []
  else
    match query with
    | None => log LWarning "Empty query provided" None ;;; ret []
    | Some query =>
        if negb (truthy query) || negb (truthy (strip query)) then
          log LWarning "Empty query provided" None ;;; ret []
        else
          let top_k := or_int top_k (default_top_k self) in
          let similarity_threshold :=
            or_float similarity_threshold (RAGRetriever.similarity_threshold self) in
          try_except
            (let cleaned_query := _clean_query query in
             let truncate := max_query_length self <? len cleaned_query in
             let cleaned_query :=
               if truncate then slice_to cleaned_query (max_query_length self)
               else cleaned_query in
             (if truncate then log LWarning "Query truncated" None else ret tt) ;;;
             let* query_embedding :=
               on_model (λ model, EmbeddingModel.encode_query model cleaned_query) in
             let* similar_docs :=
               on_store (VectorStore.search_similar query_embedding top_k
                                                    similarity_threshold) in
             ret (_process_search_results similar_docs query filter_metadata))
            (λ e, log LError "Error during retrieval" (Some e) ;;; ret [])
    end.

(** [RAGRetriever.clear_index] *)
Definition clear_index : M (t C) bool :=
  let* self := get in
  if negb (is_ready self) then ret false
  else
    try_except
      (on_store VectorStore.clear_collection)
      (λ e, log LError "Error clearing index" (Some e) ;;; ret false).

End Retriever.

End RAGRetriever.

(** ** Concrete inputs used in the examples below *)

Module Scenario.
Import ChunkProcessor.

(** No nltk: sentences come from [_simple_sentence_split]. *)
Definition plain : env :=
  {| nltk := None; clock := λ _, lit "2024-01-01 00:00:00" |}.

Definition document_of (text : str) : Document.t :=
  {| Document.content := Some text;
     Document.metadata := None;
     Document.source := Some (lit "notes.txt") |}.

(** [ChunkProcessor(chunk_size=60, chunk_overlap=10)] *)
Definition narrow : t := init (Some 60) (Some 10) true.

(** Three sentences of 60, 29 and 30 characters. *)
Definition s1 : str := lit "Vector stores keep every chunk next to its own embeddingdata".
Definition s2 : str := lit "Queries get encoded like that".
Definition s3 : str := lit "Results come back ranked first".
Definition three_sentences : str :=
  s1 ++ lit ". " ++ s2 ++ lit ". " ++ s3 ++ lit ".".

(** A sentence of 13 characters and one of 56. *)
Definition short : str := lit "Short intro x".
Definition long : str := lit "This longer sentence has exactly fifty five characters x".

Definition short_then_long : str := short ++ lit ". " ++ long ++ lit ".".

(** The only chunk [short_then_long] yields at widths 60 and 10. *)
Definition second_chunk : Chunk.t :=
  make_chunk plain (lit "notes.txt") (PDict []) 0 1 (lit "rt intro x " ++ long).

(** [n] times the short sentence followed by the long one. *)
Fixpoint alternating (n : nat) : str :=
  match n with
  | O => []
  | S n => short ++ lit ". " ++ long ++ lit ". " ++ alternating n
  end.

(** The segments of a text at the widths of [narrow]. *)
Definition segments_of (text : str) : list str :=
  match segmentation narrow plain 1 text with
  | Returns segments => segments
  | _ => []
  end.

(** A collection that answers every query with the rows it holds and
    accepts every write. *)
#[local] Instance canned : VectorStore.Chroma VectorStore.query_result :=
  {| VectorStore.count := λ _, Returns 0%nat;
     VectorStore.add := λ c _ _ _ _, Returns c;
     VectorStore.query := λ c _ _, Returns c;
     VectorStore.delete := λ c _, Returns c;
     VectorStore.delete_collection := λ _, Returns tt;
     VectorStore.create_collection := λ _,
       Returns {| VectorStore.documents := None;
                  VectorStore.metadatas := None;
                  VectorStore.distances := None |} |}.

(** Printing for values without quotes, escapes or floats. *)
#[local] Instance simple_text : PyText :=
  {| float_repr := λ _, lit "0.0";
     str_repr := λ s, lit "'" ++ s ++ lit "'" |}.

(** A model that embeds a text as its length. *)
Definition length_model : EmbeddingModel.t :=
  {| EmbeddingModel.model_name := lit "all-MiniLM-L6-v2";
     EmbeddingModel.model := Some (λ texts, Returns (map (λ t, [inject_Z (len t)]) texts));
     EmbeddingModel.dimension := 1 |}.

(** A store whose collection handle was never opened. *)
Definition unopened : VectorStore.t VectorStore.query_result :=
  {| VectorStore.collection_name := lit "rag_documents";
     VectorStore.collection := None |}.

(** Two entries at the distances [0.125] and [2.0] (similarities
    [0.888...] and [0.333...]). *)
Definition two_rows : VectorStore.query_result :=
  {| VectorStore.documents := Some [[lit "near"; lit "far"]];
     VectorStore.metadatas :=
       Some [[ {[ lit "file_type" := SStr (lit ".pdf") ]};
               {[ lit "file_type" := SStr (lit ".txt") ]} ]];
     VectorStore.distances := Some [[1 # 8; 2 # 1]] |}.

Definition two_entries : VectorStore.t VectorStore.query_result :=
  {| VectorStore.collection_name := lit "rag_documents";
     VectorStore.collection := Some two_rows |}.

(** Two entries at the distances [0.0] and [2 ** -60]. *)
Definition close_rows : VectorStore.query_result :=
  {| VectorStore.documents := Some [[lit "same"; lit "close"]];
     VectorStore.metadatas := Some [[∅; ∅]];
     VectorStore.distances := Some [[0; 1 # 2 ^ 60]]%Q |}.

Definition close_entries : VectorStore.t VectorStore.query_result :=
  {| VectorStore.collection_name := lit "rag_documents";
     VectorStore.collection := Some close_rows |}.

(** An entry at the distance [0.125] and one at [-1.0], a distance of the
    inner-product space. *)
Definition degenerate_rows : VectorStore.query_result :=
  {| VectorStore.documents := Some [[lit "near"; lit "opposite"]];
     VectorStore.metadatas := Some [[∅; ∅]];
     VectorStore.distances := Some [[1 # 8; -1]]%Q |}.

Definition degenerate_entries : VectorStore.t VectorStore.query_result :=
  {| VectorStore.collection_name := lit "rag_documents";
     VectorStore.collection := Some degenerate_rows |}.

(** A retriever whose setup succeeded, and one whose setup failed. *)
Definition ready_retriever : RAGRetriever.t VectorStore.query_result :=
  {| RAGRetriever.collection_name := lit "rag_documents";
     RAGRetriever.embedding_model_name := lit "all-MiniLM-L6-v2";
     RAGRetriever.embedding_model := Some length_model;
     RAGRetriever.vector_store := Some two_entries;
     RAGRetriever.is_ready := true;
     RAGRetriever.default_top_k := rag_config.default_top_k;
     RAGRetriever.similarity_threshold := rag_config.similarity_threshold;
     RAGRetriever.max_query_length := rag_config.max_query_length |}.

Definition failed_retriever : RAGRetriever.t VectorStore.query_result :=
  {| RAGRetriever.collection_name := lit "rag_documents";
     RAGRetriever.embedding_model_name := lit "all-MiniLM-L6-v2";
     RAGRetriever.embedding_model := None;
     RAGRetriever.vector_store := None;
     RAGRetriever.is_ready := false;
     RAGRetriever.default_top_k := rag_config.default_top_k;
     RAGRetriever.similarity_threshold := rag_config.similarity_threshold;
     RAGRetriever.max_query_length := rag_config.max_query_length |}.

(** Search results tagged .pdf, .txt and .pdf. *)
Definition tagged (text extension : string) (d : Q) : VectorStore.hit :=
  {| VectorStore.document := lit text;
     VectorStore.metadata := {[ lit "file_type" := SStr (lit extension) ]};
     VectorStore.similarity_score := fdiv 1 (fadd 1 d);
     VectorStore.distance := d |}.



(** The texts and the number of the chunks of a result. *)
Definition contents (r : outcome (list Chunk.t)) : list str :=
  match r with
  | Returns chunks => map Chunk.content chunks
  | _ => []
  end.

Definition count {A} (r : outcome (list A)) : option nat :=
  match r with
  | Returns l => Some (length l)
  | _ => None
  end.

End Scenario.

(** ** Chunk statistics (src/rag/chunk_processor.py) *)

Module ChunkStatistics.

(** The dictionary [get_chunk_stats] returns for at least one chunk; the
    averages are floats. *)
Record stats := {
  total_chunks : nat;
  avg_chunk_size : Q;
  min_chunk_size : Z;
  max_chunk_size : Z;
  avg_word_count : Q;
  total_content_length : Z
}.

(** What [get_chunk_stats] returns: [{"total_chunks": 0}] or the full
    dictionary. *)
Inductive report :=
| NoChunks
| Stats (s : stats).

(** [sum(l)] *)
Definition sum (l : list Z) : Z := foldr Z.add 0 l.

(** [min(l)] and [max(l)] of a list that starts with [x]. *)
Definition minimum (x : Z) (l : list Z) : Z := foldr Z.min x l.
Definition maximum (x : Z) (l : list Z) : Z := foldr Z.max x l.

(** [ChunkProcessor.get_chunk_stats] *)
Definition get_chunk_stats (chunks : list Chunk.t) : report :=
  match chunks with
  | [] => NoChunks
  | first :: rest =>
      let chunk_sizes := map (λ chunk, len (Chunk.content chunk)) chunks in
      let word_counts := map (λ chunk, len (split (Chunk.content chunk))) chunks in
      Stats
        {| total_chunks := length chunks;
           avg_chunk_size := fdiv (inject_Z (sum chunk_sizes)) (inject_Z (len chunk_sizes));
           min_chunk_size :=
             minimum (len (Chunk.content first))
                     (map (λ chunk, len (Chunk.content chunk)) rest);
           max_chunk_size :=
             maximum (len (Chunk.content first))
                     (map (λ chunk, len (Chunk.content chunk)) rest);
           avg_word_count := fdiv (inject_Z (sum word_counts)) (inject_Z (len word_counts));
           total_content_length := sum chunk_sizes |}
  end.

End ChunkStatistics.

(** ** Document validation (src/rag/document_loader.py) *)

Module DocumentLoader.

(** [DocumentLoader.validate_document]: the result and what was logged. *)
Definition validate_document (document : Document.t) : bool * list log_record :=
  match Document.content document, Document.metadata document,
        Document.source document with
  | None, _, _ | _, None, _ | _, _, None =>
      (false, [Log LError "Missing required field in document" None])
  | Some content, Some _, Some _ =>
      if negb (truthy content) || negb (truthy (strip content))
      then (false, [Log LError "Document has empty content" None])
      else (true, [])
  end.

End DocumentLoader.

(** ** Retrieval with conversation context (src/rag/retriever.py) *)

Module RetrieverContext.
Import Eff RAGRetriever.
Local Open Scope eff_scope.

(** [RAGRetriever._enhance_query_with_context]; the line feed is the
    character of code 10. *)
Definition _enhance_query_with_context (query : str)
    (conversation_history : option (list str)) : str :=
  match conversation_history with
  | None => query
  | Some history =>
      if negb (truthy history) then query
      else
        let recent_context := join (lit " ") (slice_from history (-2)) in
        let recent_context :=
          if 200 <? len recent_context then slice_to recent_context 200
          else recent_context in
        lit "Context: " ++ recent_context ++ "010"%char :: lit "Query: " ++ query
  end.




Section Context.
Context {C : Type} `{VectorStore.Chroma C} `{PyText}.


End Context.

End RetrieverContext.

(** ** Construction of the retriever (src/rag/retriever.py) *)

Module RetrieverSetup.
Import Eff RAGRetriever.
Local Open Scope eff_scope.

Section Setup.
Context {C : Type}.

(** The factories [create_embedding_model] and [create_vector_store]:
    what each comes to for a given name. *)
Variable create_embedding_model : str -> outcome EmbeddingModel.t.
Variable create_vector_store : str -> outcome (VectorStore.t C).

Definition with_embedding_model (model : EmbeddingModel.t) (self : t C) : t C :=
  {| collection_name := collection_name self;
     embedding_model_name := embedding_model_name self;
     embedding_model := Some model;
     vector_store := vector_store self;
     is_ready := is_ready self;
     default_top_k := default_top_k self;
     similarity_threshold := similarity_threshold self;
     max_query_length := max_query_length self |}.

Definition with_is_ready (ready : bool) (self : t C) : t C :=
  {| collection_name := collection_name self;
     embedding_model_name := embedding_model_name self;
     embedding_model := embedding_model self;
     vector_store := vector_store self;
     is_ready := ready;
     default_top_k := default_top_k self;
     similarity_threshold := similarity_threshold self;
     max_query_length := max_query_length self |}.

(** [RAGRetriever.setup_retriever] *)
Definition setup_retriever : M (t C) unit :=
  try_except
    (let* self := get in
     let* model := lift (create_embedding_model (embedding_model_name self)) in
     put (with_embedding_model model self) ;;;
     let* self := get in
     let* store := lift (create_vector_store (collection_name self)) in
     put (with_vector_store store self) ;;;
     let* self := get in
     put (with_is_ready true self))
    (λ e,
       log LError "Error setting up RAG retriever" (Some e) ;;;
       let* self := get in
       put (with_is_ready false self)).

(** [RAGRetriever.__init__], with the two names as they are after
    [or] with the configured ones. *)
Definition init (collection_name embedding_model_name : str) : run (t C) unit :=
  setup_retriever
    {| RAGRetriever.collection_name := collection_name;
       RAGRetriever.embedding_model_name := embedding_model_name;
       embedding_model := None;
       vector_store := None;
       is_ready := false;
       default_top_k := rag_config.default_top_k;
       similarity_threshold := rag_config.similarity_threshold;
       max_query_length := rag_config.max_query_length |}.

End Setup.

End RetrieverSetup.

(** ** End-to-end indexing (src/rag/__init__.py) *)

Module RAGSystem.
Import Eff.
Local Open Scope eff_scope.



Section System.
Context {C : Type} `{VectorStore.Chroma C} `{PyText}.


End System.

End RAGSystem.

(** ** Further scenarios *)

Module Cases.
Import ChunkProcessor.

(** A tokenizer that fails on every text. *)
Definition broken_tokenizer : env :=
  {| nltk := Some (λ _, Raises (External "punkt not found"));
     clock := λ _, lit "2024-01-01 00:00:00" |}.

(** [ChunkProcessor(chunk_size=5, chunk_overlap=5, preserve_sentences=False)] *)
Definition stuck : t := init (Some 5) (Some 5) false.

(** [ChunkProcessor(chunk_size=60, chunk_overlap=0, preserve_sentences=False)] *)
Definition disjoint : t :=
  {| chunk_size := 60; chunk_overlap := 0; preserve_sentences := false;
     max_chunks_per_doc := rag_config.max_chunks_per_doc |}.

(** The two chunks [Scenario.three_sentences] yields at widths 60 and 10. *)
Definition overlapped : list Chunk.t :=
  [make_chunk Scenario.plain (lit "notes.txt") (PDict []) 0 0 Scenario.s1;
   make_chunk Scenario.plain (lit "notes.txt") (PDict []) 1 1
     (lit "eddingdata " ++ Scenario.s2 ++ lit " " ++ Scenario.s3)].

(** A document with all three fields. *)
Definition full_document (text : str) : Document.t :=
  {| Document.content := Some text;
     Document.metadata := Some (PDict [(lit "file_type", PScalar (SStr (lit ".txt")))]);
     Document.source := Some (lit "notes.txt") |}.

(** A client that deletes collections and cannot create one. *)
#[local] Instance cannot_create : VectorStore.Chroma unit :=
  {| VectorStore.count := λ _, Returns 0%nat;
     VectorStore.add := λ c _ _ _ _, Returns c;
     VectorStore.query := λ _ _ _,
       Returns {| VectorStore.documents := None;
                  VectorStore.metadatas := None;
                  VectorStore.distances := None |};
     VectorStore.delete := λ c _, Returns c;
     VectorStore.delete_collection := λ _, Returns tt;
     VectorStore.create_collection := λ _, Raises (External "disk full") |}.

(** A collection whose handle is stale: every call on it raises. *)
#[local] Instance stale : VectorStore.Chroma unit :=
  {| VectorStore.count := λ _, Raises (External "collection does not exist");
     VectorStore.add := λ _ _ _ _ _, Raises (External "collection does not exist");
     VectorStore.query := λ _ _ _, Raises (External "collection does not exist");
     VectorStore.delete := λ _ _, Raises (External "collection does not exist");
     VectorStore.delete_collection := λ _, Raises (External "collection does not exist");
     VectorStore.create_collection := λ _, Returns tt |}.

Definition opened : VectorStore.t unit :=
  {| VectorStore.collection_name := lit "rag_documents";
     VectorStore.collection := Some tt |}.

(** The one result the store of [Scenario.ready_retriever] has for a
    query at the default threshold. *)
Definition near_result : RAGRetriever.retrieved :=
  RAGRetriever.result_of (lit "what is near?")
    (Scenario.tagged "near" ".pdf" (1 # 8)) 1.

(** Chunk dictionaries as a caller other than the chunker may pass them:
    one with text and an id, a blank one, one without content, and one
    with text and no metadata. *)
Definition loose_chunks : list RAGRetriever.chunk :=
  [ {| RAGRetriever.content := Some (lit "alpha text");
       RAGRetriever.metadata := Some [(lit "chunk_id", PScalar (SStr (lit "a-1")))] |};
    {| RAGRetriever.content := Some (lit "   ");
       RAGRetriever.metadata := None |};
    {| RAGRetriever.content := None;
       RAGRetriever.metadata := None |};
    {| RAGRetriever.content := Some (lit "gamma text");
       RAGRetriever.metadata := None |} ].

End Cases.

(** * Properties *)

(** ** Facts about the string primitives *)

Module PyFacts.

Lemma len_app {A} (l k : list A) : len (l ++ k) = len l + len k.
Proof. unfold len. rewrite length_app. lia. Qed.

Lemma len_nonneg {A} (l : list A) : 0 <= len l.
Proof. unfold len. lia. Qed.

Lemma truthy_false {A} (l : list A) : truthy l = false -> l = [].
Proof. destruct l; [reflexivity | discriminate]. Qed.

Lemma lstrip_length s : (length (lstrip s) <= length s)%nat.
Proof.
  induction s as [|c s IH]; simpl; [lia|].
  destruct (isspace c); simpl; lia.
Qed.

Lemma strip_length s : (length (strip s) <= length s)%nat.
Proof.
  unfold strip, rstrip. rewrite length_reverse.
  etransitivity; [apply lstrip_length|].
  rewrite length_reverse. apply lstrip_length.
Qed.

Lemma len_strip s : len (strip s) <= len s.
Proof. unfold len. pose proof (strip_length s). lia. Qed.

(** A slice is never longer than what it is cut from. *)
Lemma slice_length_le {A} (s : list A) a b : (length (slice s a b) <= length s)%nat.
Proof.
  unfold slice. rewrite length_take, length_drop. lia.
Qed.

(** A window of [n] positions holds at most [n] elements, wherever it
    starts. *)
Lemma slice_window {A} (s : list A) a n :
  0 <= n -> len (slice s a (a + n)) <= n.
Proof.
  intros Hn. unfold slice, len, clamp.
  rewrite length_take, length_drop.
  destruct (a <? 0) eqn:Ha, (a + n <? 0) eqn:Hb; lia.
Qed.

Lemma slice_from_length {A} (s : list A) k :
  0 < k -> len (slice_from s (- k)) <= k.
Proof.
  intros Hk. unfold slice_from, len, clamp.
  rewrite length_drop.
  destruct (- k <? 0) eqn:E; lia.
Qed.

Lemma slice_to_subseteq {A} (s : list A) b x : x ∈ slice_to s b -> x ∈ s.
Proof.
  unfold slice_to, slice. intros H.
  apply subseteq_take in H. eapply subseteq_drop; eauto.
Qed.

Lemma last_in {A} (l : list A) d : l <> [] -> List.last l d ∈ l.
Proof.
  induction l as [|x l IH]; [congruence|]. intros _.
  destruct l as [|y l]; simpl.
  - apply list_elem_of_here.
  - apply list_elem_of_further. apply IH. congruence.
Qed.

(** No piece of [split_on] is longer than the text it is cut from. *)
Lemma split_on_from_length sep s cur skip :
  Forall (λ p, (length p <= length cur + length s)%nat) (split_on_from sep s cur skip).
Proof.
  revert cur skip. induction s as [|c s IH]; intros cur skip; simpl.
  - constructor; [rewrite length_reverse; lia | constructor].
  - destruct skip as [|k].
    + match goal with |- context [if ?b then _ else _] => destruct b end.
      * constructor; [rewrite length_reverse; lia|].
        eapply Forall_impl; [apply IH|]. simpl. intros; lia.
      * eapply Forall_impl; [apply IH|]. simpl. intros; lia.
    + eapply Forall_impl; [apply IH|]. simpl. intros; lia.
Qed.

Lemma split_on_from_nonempty sep s cur skip : split_on_from sep s cur skip <> [].
Proof.
  revert cur skip. induction s as [|c s IH]; intros cur skip; simpl; [congruence|].
  destruct skip; [|apply IH].
  match goal with |- context [if ?b then _ else _] => destruct b end;
    [congruence | apply IH].
Qed.

Lemma last_piece_split_on_length sep s :
  (length (last_piece (split_on sep s)) <= length s)%nat.
Proof.
  unfold last_piece, split_on.
  pose proof (split_on_from_length sep s [] O) as H.
  rewrite Forall_forall in H.
  specialize (H _ (last_in _ [] (split_on_from_nonempty sep s [] O))).
  simpl in H. exact H.
Qed.

End PyFacts.

(** ** The chunker *)

Module ChunkerFacts.
Import PyFacts ChunkProcessor.

Section Bounds.

Variable self : t.
Hypothesis size_pos : 0 < chunk_size self.

Definition fits (bound : Z) (chunks : list str) : Prop :=
  Forall (λ c, len c <= bound) chunks.

Lemma fits_app bound l k : fits bound l -> fits bound k -> fits bound (l ++ k).
Proof. unfold fits. intros. apply Forall_app; auto. Qed.

Lemma fits_elem bound l c : fits bound l -> c ∈ l -> len c <= bound.
Proof. unfold fits. rewrite Forall_forall. auto. Qed.

(** Every chunk of the character window pass is within [chunk_size]. *)
Lemma chunk_loop_fits fuel text : ∀ start acc r,
  fits (chunk_size self) acc ->
  chunk_loop self fuel text start acc = Returns r ->
  fits (chunk_size self) r.
Proof.
  induction fuel as [|fuel IH]; intros start acc r Hacc; simpl; [discriminate|].
  destruct (negb (start <? len text)); [intros [= <-]; exact Hacc|].
  set (w := slice text start (start + chunk_size self)).
  assert (Hw : len w <= chunk_size self) by (apply slice_window; lia).
  match goal with |- obind ?c _ = _ -> _ => destruct c as [at_word| |]; simpl; try discriminate end.
  set (cut := at_word && _).
  assert (Hnew : fits (chunk_size self) (acc ++ [if cut then slice_to w (rfind w " ") else w])).
  { apply fits_app; [exact Hacc|]. constructor; [|constructor].
    destruct cut; [|exact Hw].
    pose proof (slice_length_le w 0 (rfind w " ")). unfold slice_to, len in *. lia. }
  destruct (len text <=? _); [intros [= <-]; exact Hnew|].
  apply IH. exact Hnew.
Qed.

Lemma _chunk_by_characters_fits fuel text r :
  _chunk_by_characters self fuel text = Returns r -> fits (chunk_size self) r.
Proof. apply chunk_loop_fits. constructor. Qed.

(** Packing keeps every finished chunk and the running buffer within
    [chunk_size]. *)
Lemma pack_fits fuel sentences : ∀ chunks current chunks' current',
  fits (chunk_size self) chunks -> len current <= chunk_size self ->
  pack self fuel sentences chunks current = Returns (chunks', current') ->
  fits (chunk_size self) chunks' ∧ len current' <= chunk_size self.
Proof.
  induction sentences as [|sentence rest IH]; intros chunks current chunks' current' Hc Hcur; simpl.
  - intros [= <- <-]. auto.
  - set (potential := if truthy current then _ else _).
    destruct (len potential <=? chunk_size self) eqn:Hfit.
    + apply IH; [exact Hc | lia].
    + set (flushed := if truthy current then chunks ++ [current] else chunks).
      assert (Hfl : fits (chunk_size self) flushed).
      { subst flushed. destruct (truthy current); [|exact Hc].
        apply fits_app; [exact Hc|]. constructor; [exact Hcur | constructor]. }
      destruct (chunk_size self <? len sentence) eqn:Hlong.
      * destruct (_chunk_by_characters self fuel sentence) as [cc| |] eqn:Hcc;
          simpl; try discriminate.
        apply _chunk_by_characters_fits in Hcc.
        apply IH.
        -- apply fits_app; [exact Hfl|]. unfold fits. rewrite Forall_forall.
           intros x Hx. apply slice_to_subseteq in Hx. eapply fits_elem; eauto.
        -- destruct cc as [|c0 cc]; simpl truthy; cbv iota.
           ++ unfold len. simpl. lia.
           ++ eapply fits_elem; [exact Hcc|]. apply last_in. congruence.
      * apply IH; [exact Hfl | lia].
Qed.

Hypothesis overlap_pos : 0 < chunk_overlap self.

(** The overlap prefix is at most [chunk_overlap] characters long. *)
Lemma overlap_of_length previous : len (overlap_of self previous) <= chunk_overlap self.
Proof.
  unfold overlap_of.
  set (tail := if chunk_overlap self <? len previous then _ else _).
  assert (Ht : len tail <= chunk_overlap self).
  { subst tail. destruct (chunk_overlap self <? len previous) eqn:E.
    - apply slice_from_length. exact overlap_pos.
    - lia. }
  destruct (1 <? len _); [|exact Ht].
  pose proof (last_piece_split_on_length (lit ". ") tail). unfold len in *. lia.
Qed.

Lemma overlap_loop_fits previous chunks :
  fits (chunk_size self) chunks ->
  fits (chunk_size self + chunk_overlap self + 1) (overlap_loop self previous chunks).
Proof.
  revert previous. induction chunks as [|c rest IH]; intros previous H;
    cbn [overlap_loop].
  - constructor.
  - inversion H as [|? ? Hc Hrest]; subst. constructor; [|apply IH; exact Hrest].
    rewrite !len_app. pose proof (overlap_of_length previous).
    change (len (lit " ")) with 1. lia.
Qed.

Lemma _add_overlap_fits chunks :
  fits (chunk_size self) chunks ->
  fits (chunk_size self + chunk_overlap self + 1) (_add_overlap self chunks).
Proof.
  intros H. unfold _add_overlap.
  assert (Hweak : fits (chunk_size self + chunk_overlap self + 1) chunks).
  { eapply Forall_impl; [exact H|]. simpl. intros; lia. }
  destruct (len chunks <=? 1); [exact Hweak|].
  destruct chunks as [|first rest]; [constructor|].
  inversion H; subst. inversion Hweak; subst.
  constructor; [assumption|]. apply overlap_loop_fits. assumption.
Qed.

Lemma _chunk_by_sentences_fits e fuel text r :
  _chunk_by_sentences self e fuel text = Returns r ->
  fits (chunk_size self + chunk_overlap self + 1) r.
Proof.
  unfold _chunk_by_sentences.
  destruct (sentences_of e text) as [sentences| |]; simpl; try discriminate.
  destruct (pack self fuel sentences [] []) as [[chunks current]| |] eqn:Hp;
    simpl; try discriminate.
  intros [= <-]. apply _add_overlap_fits.
  apply pack_fits in Hp as [Hc Hcur]; [|constructor|unfold len; simpl; lia].
  destruct (truthy current); [|exact Hc].
  apply fits_app; [exact Hc|]. constructor; [exact Hcur|constructor].
Qed.

Lemma segmentation_fits e fuel content r :
  segmentation self e fuel content = Returns r ->
  fits (chunk_size self + chunk_overlap self + 1) r.
Proof.
  unfold segmentation. destruct (preserve_sentences self).
  - apply _chunk_by_sentences_fits.
  - intros H. apply _chunk_by_characters_fits in H.
    eapply Forall_impl; [exact H|]. simpl. intros; lia.
Qed.

End Bounds.

(** *** The emitting loop *)

Section Emit.

Variables (self : t) (e : env) (source_path : str) (source_metadata : pyval).

Local Abbreviation emit' := (emit self e source_path source_metadata).
Local Abbreviation make' := (make_chunk e source_path source_metadata).

(** The number of chunks after which the loop breaks: the cap, and one
    chunk when the cap is below one (the test follows the append). *)
Definition cap : nat := Z.to_nat (Z.max 1 (max_chunks_per_doc self)).

Definition numbered (n : nat) (l : list (nat * str)) : list Chunk.t :=
  imap (λ j it, make' (n + j)%nat it.1 it.2) l.

Lemma numbered_cons n it l : numbered n (it :: l) = make' n it.1 it.2 :: numbered (S n) l.
Proof.
  unfold numbered. rewrite imap_cons. f_equal.
  - f_equal. lia.
  - apply imap_ext. intros j x _. simpl. f_equal. lia.
Qed.

Lemma numbered_length n l : length (numbered n l) = length l.
Proof. unfold numbered. apply length_imap. Qed.

Lemma numbered_lookup n l j it :
  l !! j = Some it -> numbered n l !! j = Some (make' (n + j)%nat it.1 it.2).
Proof. intros H. unfold numbered. rewrite list_lookup_imap, H. reflexivity. Qed.

(** The loop appends the survivors, numbered in order, until the cap. *)
Lemma emit_chunks chunks : ∀ i processed,
  (length processed < cap)%nat ->
  (emit' i chunks processed).1
  = processed ++ numbered (length processed)
                   (take (cap - length processed) (survivors i chunks)).
Proof.
  induction chunks as [|chunk_text rest IH]; intros i processed Hlt; simpl.
  - rewrite take_nil. unfold numbered. simpl. rewrite app_nil_r. reflexivity.
  - destruct (too_small chunk_text); [apply IH; exact Hlt|].
    destruct (cap - length processed)%nat as [|k] eqn:Hk; [lia|].
    rewrite firstn_cons, numbered_cons. simpl.
    destruct (max_chunks_per_doc self <=? _) eqn:Hfull.
    + assert (k = 0)%nat as ->.
      { apply Z.leb_le in Hfull. unfold len in Hfull. rewrite length_app in Hfull.
        simpl in Hfull. unfold cap in *. lia. }
      reflexivity.
    + rewrite IH.
      * rewrite length_app. simpl. rewrite <- app_assoc. simpl.
        replace (cap - (length processed + 1))%nat with k by lia.
        replace (length processed + 1)%nat with (S (length processed)) by lia.
        reflexivity.
      * apply Z.leb_gt in Hfull. unfold len in Hfull. rewrite length_app in *.
        simpl in *. unfold cap. lia.
Qed.

(** The truncation is logged exactly when the cap is reached. *)
Lemma emit_logs chunks : ∀ i processed,
  1 <= max_chunks_per_doc self ->
  len processed < max_chunks_per_doc self ->
  (emit' i chunks processed).2
  = if max_chunks_per_doc self <=? len processed + len (survivors i chunks)
    then [Log LWarning "Reached max chunks limit for document" None]
    else [].
Proof.
  induction chunks as [|chunk_text rest IH]; intros i processed Hmax Hlt; simpl.
  - change (len []) with 0. destruct (Z.leb_spec (max_chunks_per_doc self) (len processed + 0));
      [lia | reflexivity].
  - destruct (too_small chunk_text); [apply IH; assumption|].
    unfold len in *. rewrite length_app. simpl.
    destruct (Z.leb_spec (max_chunks_per_doc self) (Z.of_nat (length processed + 1))).
    + destruct (Z.leb_spec (max_chunks_per_doc self)
                  (Z.of_nat (length processed) + Z.of_nat (S (length (survivors (S i) rest)))));
        [reflexivity | lia].
    + rewrite IH; [|assumption|rewrite length_app; simpl; lia].
      rewrite length_app. simpl.
      replace (Z.of_nat (length processed + 1) + Z.of_nat (length (survivors (S i) rest)))
        with (Z.of_nat (length processed) + Z.of_nat (S (length (survivors (S i) rest))))
        by lia.
      reflexivity.
Qed.

End Emit.

(** *** The survivors of the 50-character test *)

Lemma survivors_lookup chunks : ∀ i j k c,
  survivors i chunks !! j = Some (k, c) ->
  (i <= k)%nat ∧ chunks !! (k - i)%nat = Some c ∧ too_small c = false
  ∧ (k - i = j + discarded_before (k - i) chunks)%nat.
Proof.
  unfold discarded_before.
  induction chunks as [|c0 rest IH]; intros i j k c; simpl; [discriminate|].
  destruct (too_small c0) eqn:Hs.
  - intros H. apply IH in H as (Hle & Hlk & Hc & Hn).
    replace (k - i)%nat with (S (k - S i)) by lia. simpl.
    split; [lia|]. split; [exact Hlk|]. split; [exact Hc|].
    rewrite filter_cons_True by exact Hs. simpl. lia.
  - destruct j as [|j]; simpl.
    + intros [= <- <-]. replace (i - i)%nat with 0%nat by lia. simpl.
      auto.
    + intros H. apply IH in H as (Hle & Hlk & Hc & Hn).
      replace (k - i)%nat with (S (k - S i)) by lia. simpl.
      split; [lia|]. split; [exact Hlk|]. split; [exact Hc|].
      rewrite filter_cons_False by congruence. lia.
Qed.

Lemma survivors_increasing chunks : ∀ i j1 j2 k1 k2 c1 c2,
  (j1 < j2)%nat ->
  survivors i chunks !! j1 = Some (k1, c1) ->
  survivors i chunks !! j2 = Some (k2, c2) ->
  (k1 < k2)%nat.
Proof.
  induction chunks as [|c0 rest IH]; intros i j1 j2 k1 k2 c1 c2 Hlt; simpl;
    [discriminate|].
  destruct (too_small c0); [apply IH; exact Hlt|].
  destruct j2 as [|j2]; [lia|]. destruct j1 as [|j1]; simpl.
  - intros [= <- <-] H. apply survivors_lookup in H. lia.
  - apply IH. lia.
Qed.

Lemma survivors_elem chunks : ∀ i k c, (k, c) ∈ survivors i chunks -> c ∈ chunks.
Proof.
  intros i k c H. apply list_elem_of_lookup in H as [j Hj].
  apply survivors_lookup in Hj as (_ & Hlk & _).
  eapply list_elem_of_lookup_2; eauto.
Qed.

(** *** Termination of the character window pass *)

Section Termination.

Variable self : t.
Hypothesis size_pos : 0 < chunk_size self.
Hypothesis overlap_small : 5 * chunk_overlap self <= 4 * chunk_size self.

Lemma index_in_range {A} (s : list A) i :
  0 <= i < len s -> ∃ c, index s i = Some c.
Proof.
  intros [H0 H1]. unfold index.
  destruct (i <? 0) eqn:E; [lia|].
  apply lookup_lt_is_Some_2. unfold len in H1. lia.
Qed.

(** With the window advancing by at least one character per round, a
    budget above the remaining length is enough. *)
Lemma chunk_loop_returns fuel text : ∀ start acc,
  0 <= start ->
  (Z.to_nat (len text - start) < fuel)%nat ->
  ∃ r, chunk_loop self fuel text start acc = Returns r.
Proof.
  induction fuel as [|fuel IH]; intros start acc Hstart Hfuel; [lia|]. simpl.
  destruct (start <? len text) eqn:Hin; simpl; [|eauto].
  apply Z.ltb_lt in Hin.
  set (w := slice text start (start + chunk_size self)).
  assert (Hob : ∃ at_word,
    (if start + chunk_size self <? len text
     then match index text (start + chunk_size self) with
          | Some c => Returns (negb (isspace c))
          | None => Raises IndexError
          end
     else Returns false) = Returns at_word).
  { destruct (start + chunk_size self <? len text) eqn:E; [|eauto].
    apply Z.ltb_lt in E.
    destruct (index_in_range text (start + chunk_size self)) as [c ->]; [lia|eauto]. }
  destruct Hob as [at_word ->]. simpl.
  set (cut := at_word && _).
  destruct (len text <=? _) eqn:Hend; [eauto|].
  apply Z.leb_gt in Hend.
  apply IH.
  - destruct cut eqn:Hcut; [|lia].
    subst cut. apply andb_true_iff in Hcut as [_ Hcut]. apply Z.ltb_lt in Hcut. lia.
  - destruct cut eqn:Hcut; [|lia].
    subst cut. apply andb_true_iff in Hcut as [_ Hcut]. apply Z.ltb_lt in Hcut. lia.
Qed.

End Termination.

(** More budget never changes an answer. *)
Lemma chunk_loop_mono self fuel text : ∀ fuel' start acc r,
  (fuel <= fuel')%nat ->
  chunk_loop self fuel text start acc = Returns r ->
  chunk_loop self fuel' text start acc = Returns r.
Proof.
  induction fuel as [|fuel IH]; intros fuel' start acc r Hle; simpl; [discriminate|].
  destruct fuel' as [|fuel']; [lia|]. simpl.
  destruct (negb (start <? len text)); [auto|].
  match goal with |- obind ?c _ = _ -> _ => destruct c as [at_word| |]; simpl; try discriminate end.
  destruct (len text <=? _); [auto|].
  apply IH. lia.
Qed.

Lemma pack_mono self fuel fuel' sentences : ∀ chunks current r,
  (fuel <= fuel')%nat ->
  pack self fuel sentences chunks current = Returns r ->
  pack self fuel' sentences chunks current = Returns r.
Proof.
  induction sentences as [|sentence rest IH]; intros chunks current r Hle; simpl; [auto|].
  destruct (len _ <=? chunk_size self); [apply IH; exact Hle|].
  destruct (chunk_size self <? len sentence); [|apply IH; exact Hle].
  unfold _chunk_by_characters.
  destruct (chunk_loop self fuel sentence 0 []) as [cc| |] eqn:Hcc; simpl; try discriminate.
  rewrite (chunk_loop_mono _ _ _ fuel' _ _ _ Hle Hcc). simpl.
  apply IH. exact Hle.
Qed.

Lemma pack_returns self fuel sentences :
  0 < chunk_size self ->
  5 * chunk_overlap self <= 4 * chunk_size self ->
  Forall (λ s, (length s < fuel)%nat) sentences ->
  ∀ chunks current, ∃ r, pack self fuel sentences chunks current = Returns r.
Proof.
  intros Hs Ho. induction 1 as [|sentence rest Hlen _ IH]; intros chunks current; simpl; [eauto|].
  destruct (len _ <=? chunk_size self); [apply IH|].
  destruct (chunk_size self <? len sentence); [|apply IH].
  destruct (chunk_loop_returns self Hs Ho fuel sentence 0 []) as [cc Hcc];
    [lia | unfold len; lia |].
  unfold _chunk_by_characters. rewrite Hcc. simpl. apply IH.
Qed.

Lemma length_le_sum (l : list str) s : s ∈ l -> (length s <= sum_list (map length l))%nat.
Proof.
  induction 1; simpl; lia.
Qed.

(** Whenever the window advances, the segmentation of a text whose
    sentences the tokenizer returns has one answer for every budget from
    some point on. *)
Lemma segmentation_returns self e content :
  0 < chunk_size self ->
  5 * chunk_overlap self <= 4 * chunk_size self ->
  (preserve_sentences self = true ->
   ∃ sentences, sentences_of e (_clean_text content) = Returns sentences) ->
  ∃ fuel0 segments, ∀ fuel, (fuel0 <= fuel)%nat ->
    segmentation self e fuel content = Returns segments.
Proof.
  intros Hs Ho Htok. unfold segmentation.
  destruct (preserve_sentences self).
  - destruct (Htok eq_refl) as [sentences Hsent].
    set (fuel0 := S (sum_list (map length sentences))).
    destruct (pack_returns self fuel0 sentences Hs Ho) with (chunks := @nil str) (current := @nil ascii)
      as [[chunks current] Hp].
    { rewrite Forall_forall. intros s Hin. apply length_le_sum in Hin. subst fuel0. lia. }
    exists fuel0. eexists. intros fuel Hle.
    unfold _chunk_by_sentences. rewrite Hsent. simpl.
    rewrite (pack_mono _ _ fuel _ _ _ _ Hle Hp). simpl. reflexivity.
  - destruct (chunk_loop_returns self Hs Ho (S (length (_clean_text content)))
                (_clean_text content) 0 []) as [r Hr]; [lia | unfold len; lia|].
    exists (S (length (_clean_text content))), r. intros fuel Hle.
    unfold _chunk_by_characters. eapply chunk_loop_mono; eauto.
Qed.

End ChunkerFacts.

(** ** The chunker's contract *)

Module ChunkerContract.
Import PyFacts ChunkProcessor ChunkerFacts.

Lemma strip_truthy content : truthy (strip content) = true -> truthy content = true.
Proof. destruct content; [discriminate | reflexivity]. Qed.

(** What [process_document] returns once the segmentation is known. *)
Lemma process_document_segments self e fuel document content segments :
  Document.content document = Some content ->
  truthy (strip content) = true ->
  segmentation self e fuel content = Returns segments ->
  let source_path := default (lit "unknown") (Document.source document) in
  let source_metadata := default (PDict []) (Document.metadata document) in
  process_document self e fuel document
  = (Returns (numbered e source_path source_metadata 0
                (take (cap self) (survivors 0 segments))),
     (emit self e source_path source_metadata 0 segments []).2).
Proof.
  intros Hc Hs Hseg. cbv zeta. unfold process_document.
  rewrite Hc, Hs, (strip_truthy _ Hs), Hseg. simpl.
  set (sp := default (lit "unknown") (Document.source document)).
  set (sm := default (PDict []) (Document.metadata document)).
  pose proof (emit_chunks self e sp sm segments 0 []) as H.
  destruct (emit self e sp sm 0 segments []) as [processed logs] eqn:He.
  simpl in *. rewrite H; [|unfold cap; lia].
  rewrite Nat.sub_0_r. reflexivity.
Qed.

(** Without usable content nothing is returned. *)
Lemma process_document_blank self e fuel document content :
  Document.content document = Some content ->
  truthy (strip content) = false ->
  (process_document self e fuel document).1 = Returns [].
Proof.
  intros Hc Hs. unfold process_document. rewrite Hc, Hs.
  rewrite orb_true_r. reflexivity.
Qed.

(** Every chunk returned is the stripped text of some segment. *)
Lemma process_document_elem self e fuel document chunks c :
  (process_document self e fuel document).1 = Returns chunks ->
  c ∈ chunks ->
  ∃ content segments text,
    Document.content document = Some content
    ∧ segmentation self e fuel content = Returns segments
    ∧ text ∈ segments
    ∧ Chunk.content c = strip text
    ∧ Chunk.chunk_size (Chunk.meta c) = length text.
Proof.
  intros Hret Hin.
  destruct (Document.content document) as [content|] eqn:Hc.
  2:{ unfold process_document in Hret. rewrite Hc in Hret. simpl in Hret.
      injection Hret as <-. inversion Hin. }
  destruct (truthy (strip content)) eqn:Hs.
  2:{ rewrite (process_document_blank _ _ _ _ _ Hc Hs) in Hret.
      injection Hret as <-. inversion Hin. }
  destruct (segmentation self e fuel content) as [segments| |] eqn:Hseg.
  - rewrite (process_document_segments _ _ _ _ _ _ Hc Hs Hseg) in Hret.
    simpl in Hret. injection Hret as <-.
    apply list_elem_of_lookup in Hin as [j Hj].
    unfold numbered in Hj. rewrite list_lookup_imap in Hj.
    destruct (take (cap self) (survivors 0 segments) !! j) as [[k text]|] eqn:Hk;
      [|discriminate].
    simpl in Hj. injection Hj as <-.
    exists content, segments, text.
    split; [reflexivity|]. split; [exact Hseg|].
    split; [|split; reflexivity].
    apply (survivors_elem segments 0 k). eapply subseteq_take.
    eapply list_elem_of_lookup_2; eauto.
  - unfold process_document in Hret.
    rewrite Hc, Hs, (strip_truthy _ Hs), Hseg in Hret. simpl in Hret.
    injection Hret as <-. inversion Hin.
  - unfold process_document in Hret.
    rewrite Hc, Hs, (strip_truthy _ Hs), Hseg in Hret. discriminate.
Qed.

(** C3, amended: with positive [chunk_size] and [chunk_overlap], the text of
    every chunk [process_document] returns, stripped or not, is at most
    [chunk_size + chunk_overlap + 1] characters long: the overlap prefix is
    joined to the chunk by one space. *)
Theorem chunk_length_bound self e fuel document chunks c :
  0 < chunk_size self ->
  0 < chunk_overlap self ->
  (process_document self e fuel document).1 = Returns chunks ->
  c ∈ chunks ->
  len (Chunk.content c) <= chunk_size self + chunk_overlap self + 1
  ∧ Z.of_nat (Chunk.chunk_size (Chunk.meta c))
    <= chunk_size self + chunk_overlap self + 1.
Proof.
  intros Hs Ho Hret Hin.
  destruct (process_document_elem _ _ _ _ _ _ Hret Hin)
    as (content & segments & text & _ & Hseg & Htext & -> & ->).
  pose proof (segmentation_fits self Hs Ho e fuel content segments Hseg) as Hfit.
  pose proof (fits_elem _ _ _ Hfit Htext) as Hlen.
  pose proof (len_strip text). unfold len in *. lia.
Qed.

Lemma chunk_length_bound_witness :
  len (Chunk.content Scenario.second_chunk)
    <= chunk_size Scenario.narrow + chunk_overlap Scenario.narrow + 1
  ∧ Z.of_nat (Chunk.chunk_size (Chunk.meta Scenario.second_chunk))
    <= chunk_size Scenario.narrow + chunk_overlap Scenario.narrow + 1.
Proof.
  apply (chunk_length_bound Scenario.narrow Scenario.plain 1
           (Scenario.document_of Scenario.short_then_long)
           [Scenario.second_chunk]).
  - vm_compute; reflexivity.
  - vm_compute; reflexivity.
  - vm_compute; reflexivity.
  - apply list_elem_of_here.
Defined.

(** C3 as stated fails: no sentence of this document is longer than
    [chunk_size], the second chunk holds two whole sentences behind its
    overlap prefix, and it is 71 characters long with
    [chunk_size + chunk_overlap = 70]. *)
Lemma chunk_length_bound_counterexample :
  sentences_of Scenario.plain (_clean_text Scenario.three_sentences)
    = Returns [Scenario.s1; Scenario.s2; Scenario.s3]
  ∧ Forall (λ s, len s <= chunk_size Scenario.narrow)
           [Scenario.s1; Scenario.s2; Scenario.s3]
  ∧ Scenario.contents
      (process_document Scenario.narrow Scenario.plain 1
         (Scenario.document_of Scenario.three_sentences)).1
    = [Scenario.s1;
       lit "eddingdata" ++ lit " " ++ Scenario.s2 ++ lit " " ++ Scenario.s3]
  ∧ ¬ (len (lit "eddingdata" ++ lit " " ++ Scenario.s2 ++ lit " " ++ Scenario.s3)
       <= chunk_size Scenario.narrow + chunk_overlap Scenario.narrow).
Proof.
  split; [vm_compute; reflexivity|].
  split; [repeat constructor; vm_compute; discriminate|].
  split; [vm_compute; reflexivity|].
  vm_compute. intros H. apply H. reflexivity.
Qed.

(** C4, amended: the chunks come out in document order, and the
    [chunk_index] of the chunk emitted at position [j] is its position in
    the segmentation before the 50-character filter: [j] plus the number
    of segments discarded ahead of it. *)
Theorem chunk_index_is_segment_position self e fuel document content segments :
  Document.content document = Some content ->
  segmentation self e fuel content = Returns segments ->
  ∃ chunks,
    (process_document self e fuel document).1 = Returns chunks
    ∧ (∀ j c, chunks !! j = Some c ->
         let k := Chunk.chunk_index (Chunk.meta c) in
         (∃ text, segments !! k = Some text
                  ∧ too_small text = false
                  ∧ Chunk.content c = strip text)
         ∧ k = (j + discarded_before k segments)%nat)
    ∧ (∀ j1 j2 c1 c2, (j1 < j2)%nat ->
         chunks !! j1 = Some c1 -> chunks !! j2 = Some c2 ->
         (Chunk.chunk_index (Chunk.meta c1) < Chunk.chunk_index (Chunk.meta c2))%nat).
Proof.
  intros Hc Hseg.
  destruct (truthy (strip content)) eqn:Hs.
  2:{ exists []. rewrite (process_document_blank _ _ _ _ _ Hc Hs).
      split; [reflexivity|]. split; intros; discriminate. }
  rewrite (process_document_segments _ _ _ _ _ _ Hc Hs Hseg).
  eexists. split; [reflexivity|].
  set (kept := take (cap self) (survivors 0 segments)).
  assert (Hkept : ∀ j it, kept !! j = Some it -> survivors 0 segments !! j = Some it).
  { intros j it H. subst kept. apply lookup_take_Some in H as [H _]. exact H. }
  assert (Hnum : ∀ j c,
    numbered e (default (lit "unknown") (Document.source document))
      (default (PDict []) (Document.metadata document)) 0 kept !! j = Some c ->
    ∃ k text, kept !! j = Some (k, text)
              ∧ Chunk.chunk_index (Chunk.meta c) = k
              ∧ Chunk.content c = strip text).
  { intros j c H. unfold numbered in H. rewrite list_lookup_imap in H.
    destruct (kept !! j) as [[k text]|]; [|discriminate].
    injection H as <-. exists k, text. auto. }
  split.
  - intros j c Hj. cbv zeta.
    destruct (Hnum _ _ Hj) as (k & text & Hk & -> & ->).
    apply Hkept, survivors_lookup in Hk as (_ & Hlk & Hsmall & Hcount).
    rewrite Nat.sub_0_r in *. split; [|exact Hcount].
    exists text. auto.
  - intros j1 j2 c1 c2 Hlt H1 H2.
    destruct (Hnum _ _ H1) as (k1 & t1 & Hk1 & -> & _).
    destruct (Hnum _ _ H2) as (k2 & t2 & Hk2 & -> & _).
    eapply survivors_increasing; eauto.
Qed.

Lemma chunk_index_is_segment_position_witness :
  ∃ chunks,
    (process_document Scenario.narrow Scenario.plain 1
       (Scenario.document_of Scenario.short_then_long)).1 = Returns chunks
    ∧ (∀ j c, chunks !! j = Some c ->
         let k := Chunk.chunk_index (Chunk.meta c) in
         (∃ text, [Scenario.short; lit "rt intro x " ++ Scenario.long] !! k = Some text
                  ∧ too_small text = false
                  ∧ Chunk.content c = strip text)
         ∧ k = (j + discarded_before k
                      [Scenario.short; lit "rt intro x " ++ Scenario.long])%nat)
    ∧ (∀ j1 j2 c1 c2, (j1 < j2)%nat ->
         chunks !! j1 = Some c1 -> chunks !! j2 = Some c2 ->
         (Chunk.chunk_index (Chunk.meta c1) < Chunk.chunk_index (Chunk.meta c2))%nat).
Proof.
  apply (chunk_index_is_segment_position Scenario.narrow Scenario.plain 1
           (Scenario.document_of Scenario.short_then_long)
           Scenario.short_then_long).
  - reflexivity.
  - vm_compute; reflexivity.
Defined.

(** C4 as stated fails: the first segment of this document is 13
    characters long and is discarded, so the only chunk emitted stands at
    position 0 and carries [chunk_index] 1. *)
Lemma chunk_index_counterexample :
  segmentation Scenario.narrow Scenario.plain 1 Scenario.short_then_long
    = Returns [Scenario.short; lit "rt intro x " ++ Scenario.long]
  ∧ ∃ c, (process_document Scenario.narrow Scenario.plain 1
            (Scenario.document_of Scenario.short_then_long)).1 = Returns [c]
         ∧ [c] !! 0%nat = Some c
         ∧ Chunk.chunk_index (Chunk.meta c) = 1%nat
         ∧ Chunk.chunk_index (Chunk.meta c) ≠ 0%nat.
Proof.
  split; [vm_compute; reflexivity|].
  exists Scenario.second_chunk.
  split; [vm_compute; reflexivity|].
  split; [reflexivity|]. split; [reflexivity|]. discriminate.
Qed.

(** With a cap of at least one, [process_document] returns the first
    [max_chunks_per_doc] segments that pass the 50-character test, and logs
    the truncation exactly when that many pass. *)
Lemma process_document_capped self e fuel document content segments :
  1 <= max_chunks_per_doc self ->
  Document.content document = Some content ->
  truthy (strip content) = true ->
  segmentation self e fuel content = Returns segments ->
  let source_path := default (lit "unknown") (Document.source document) in
  let source_metadata := default (PDict []) (Document.metadata document) in
  process_document self e fuel document
  = (Returns (numbered e source_path source_metadata 0
                (take (Z.to_nat (max_chunks_per_doc self)) (survivors 0 segments))),
     if max_chunks_per_doc self <=? len (survivors 0 segments)
     then [Log LWarning "Reached max chunks limit for document" None]
     else []).
Proof.
  intros Hmax Hc Hs Hseg. cbv zeta.
  rewrite (process_document_segments _ _ _ _ _ _ Hc Hs Hseg).
  rewrite emit_logs; [|exact Hmax|change (len []) with 0; lia].
  change (len []) with 0. rewrite Z.add_0_l.
  replace (cap self) with (Z.to_nat (max_chunks_per_doc self)) by (unfold cap; lia).
  reflexivity.
Qed.

(** With a cap of at least one, no document yields more chunks than the
    cap. *)
Lemma process_document_at_most self e fuel document chunks :
  1 <= max_chunks_per_doc self ->
  (process_document self e fuel document).1 = Returns chunks ->
  len chunks <= max_chunks_per_doc self.
Proof.
  intros Hmax Hret.
  destruct (Document.content document) as [content|] eqn:Hc.
  2:{ unfold process_document in Hret. rewrite Hc in Hret.
      injection Hret as <-. change (len []) with 0. lia. }
  destruct (truthy (strip content)) eqn:Hs.
  2:{ rewrite (process_document_blank _ _ _ _ _ Hc Hs) in Hret.
      injection Hret as <-. change (len []) with 0. lia. }
  destruct (segmentation self e fuel content) as [segments| |] eqn:Hseg.
  - rewrite (process_document_capped _ _ _ _ _ _ Hmax Hc Hs Hseg) in Hret.
    injection Hret as <-. unfold len. rewrite numbered_length, length_take. lia.
  - unfold process_document in Hret.
    rewrite Hc, Hs, (strip_truthy _ Hs), Hseg in Hret.
    injection Hret as <-. change (len []) with 0. lia.
  - unfold process_document in Hret.
    rewrite Hc, Hs, (strip_truthy _ Hs), Hseg in Hret. discriminate.
Qed.

(** Once the segmentation returns, more budget leaves its answer as it
    is. *)
Lemma segmentation_mono self e fuel fuel' content segments :
  (fuel <= fuel')%nat ->
  segmentation self e fuel content = Returns segments ->
  segmentation self e fuel' content = Returns segments.
Proof.
  intros Hle. unfold segmentation. destruct (preserve_sentences self).
  - unfold _chunk_by_sentences.
    destruct (sentences_of e (_clean_text content)) as [sentences| |];
      simpl; try discriminate.
    destruct (pack self fuel sentences [] []) as [[chunks current]| |] eqn:Hp;
      simpl; try discriminate.
    rewrite (pack_mono _ _ fuel' _ _ _ _ Hle Hp). simpl. auto.
  - unfold _chunk_by_characters. apply chunk_loop_mono. exact Hle.
Qed.

(** C8: a processor as the constructor builds it has the configured cap,
    [max_chunks_per_doc].  For a document of which more than
    [max_chunks_per_doc] segments are left after the 50-character test,
    [process_document] returns exactly [max_chunks_per_doc] chunks, made
    of the first [max_chunks_per_doc] of those segments, and logs the
    truncation, and so it does on any larger budget; and no document and
    no budget make it return more than [max_chunks_per_doc] chunks, nor
    does a processor whose cap was set to another value of at least one
    return more than its cap. *)
Theorem cap_enforcement chunk_size chunk_overlap preserve_sentences e fuel
    document content segments :
  let self := init chunk_size chunk_overlap preserve_sentences in
  Document.content document = Some content ->
  truthy (strip content) = true ->
  segmentation self e fuel content = Returns segments ->
  max_chunks_per_doc self < len (survivors 0 segments) ->
  (∀ fuel', (fuel <= fuel')%nat ->
     ∃ chunks,
       process_document self e fuel' document
       = (Returns chunks, [Log LWarning "Reached max chunks limit for document" None])
       ∧ len chunks = max_chunks_per_doc self
       ∧ chunks
         = numbered e (default (lit "unknown") (Document.source document))
             (default (PDict []) (Document.metadata document)) 0
             (take (Z.to_nat (max_chunks_per_doc self)) (survivors 0 segments)))
  ∧ (∀ fuel' document' chunks',
       (process_document self e fuel' document').1 = Returns chunks' ->
       len chunks' <= max_chunks_per_doc self)
  ∧ (∀ other fuel' document' chunks',
       1 <= max_chunks_per_doc other ->
       (process_document other e fuel' document').1 = Returns chunks' ->
       len chunks' <= max_chunks_per_doc other).
Proof.
  intros self Hc Hs Hseg Hmore.
  assert (Hmax : 1 <= max_chunks_per_doc self) by (vm_compute; discriminate).
  split; [|split;
    [|intros other fuel' document' chunks' Hother;
      apply process_document_at_most; exact Hother]].
  - intros fuel' Hle. apply (segmentation_mono _ _ _ fuel' _ _ Hle) in Hseg.
    eexists. split; [|split; [|reflexivity]].
    + rewrite (process_document_capped _ _ _ _ _ _ Hmax Hc Hs Hseg).
      destruct (Z.leb_spec (max_chunks_per_doc self) (len (survivors 0 segments)));
        [reflexivity | lia].
    + unfold len in *. rewrite numbered_length, length_take. lia.
  - intros fuel' document' chunks'. apply process_document_at_most. exact Hmax.
Qed.

(** At widths 60 and 10 this document has 202 segments, of which 101 pass
    the 50-character test: 100 chunks come back, and the truncation is
    logged. *)
Lemma cap_enforcement_witness :
  let document := Scenario.document_of (Scenario.alternating 101) in
  Scenario.count
    (segmentation Scenario.narrow Scenario.plain 1 (Scenario.alternating 101))
  = Some 202%nat
  ∧ len (survivors 0 (Scenario.segments_of (Scenario.alternating 101))) = 101
  ∧ ∃ chunks,
      process_document Scenario.narrow Scenario.plain 1 document
      = (Returns chunks, [Log LWarning "Reached max chunks limit for document" None])
      ∧ len chunks = 100.
Proof.
  cbv zeta. split; [vm_compute; reflexivity|]. split; [vm_compute; reflexivity|].
  destruct (cap_enforcement (Some 60) (Some 10) true Scenario.plain 1
              (Scenario.document_of (Scenario.alternating 101))
              (Scenario.alternating 101)
              (Scenario.segments_of (Scenario.alternating 101))
              eq_refl ltac:(vm_compute; reflexivity) ltac:(vm_compute; reflexivity)
              ltac:(vm_compute; reflexivity))
    as [Hcap _].
  destruct (Hcap 1%nat (le_n 1)) as (chunks & Hrun & Hlen & _).
  exists chunks. split; [exact Hrun | exact Hlen].
Defined.

End ChunkerContract.

(** ** The embedding adapter *)

Module EmbeddingFacts.
Import PyFacts Eff EmbeddingModel.

Definition visible (c : ascii) : Prop := isspace c = false.

Lemma join_empty (parts : list str) : join [] parts = concat parts.
Proof.
  induction parts as [|p ps IH]; [reflexivity|].
  destruct ps as [|q ps]; simpl in *.
  - rewrite app_nil_r. reflexivity.
  - rewrite IH. reflexivity.
Qed.

(** The words of a string, put together, are its visible characters. *)
Lemma concat_split s : concat (split s) = filter visible s.
Proof.
  induction s as [|c rest IH]; [reflexivity|].
  cbn [split].
  destruct (isspace c) eqn:Hc.
  - rewrite filter_cons_False by (unfold visible; congruence). exact IH.
  - rewrite filter_cons_True by exact Hc. rewrite <- IH.
    destruct rest as [|c' rest']; [reflexivity|].
    destruct (isspace c') eqn:Hc'; [reflexivity|].
    destruct (split (c' :: rest')) as [|w ws]; reflexivity.
Qed.

Lemma filter_lstrip s : filter visible (lstrip s) = filter visible s.
Proof.
  induction s as [|c rest IH]; [reflexivity|]. simpl.
  destruct (isspace c) eqn:Hc; [|reflexivity].
  rewrite (filter_cons_False visible) by (unfold visible; congruence). exact IH.
Qed.

Lemma filter_strip s : filter visible (strip s) = filter visible s.
Proof.
  unfold strip, rstrip.
  rewrite filter_reverse, filter_lstrip, filter_reverse, reverse_involutive.
  apply filter_lstrip.
Qed.

(** [clean_text] keeps the visible characters and nothing else. *)
Lemma clean_text_filter text : clean_text text = filter visible text.
Proof.
  unfold clean_text.
  destruct (truthy text) eqn:Ht; simpl.
  - destruct (truthy (strip text)) eqn:Hs; simpl.
    + rewrite join_empty, concat_split. apply filter_strip.
    + apply truthy_false in Hs. rewrite <- filter_strip, Hs. reflexivity.
  - apply truthy_false in Ht. subst. reflexivity.
Qed.



End EmbeddingFacts.

(** ** Metadata flattening *)

Module FlattenFacts.
Import PyFacts VectorStore.

(** Induction on a value through the values of its mappings. *)
Section Induction.

Variable P : pyval -> Prop.
Hypothesis scalar_case : ∀ v, P (PScalar v).
Hypothesis list_case : ∀ elements, P (PList elements).
Hypothesis dict_case : ∀ items, Forall (λ kv, P kv.2) items -> P (PDict items).
Hypothesis other_case : ∀ s r, P (POther s r).

Fixpoint pyval_dict_ind (v : pyval) : P v :=
  match v with
  | PScalar v => scalar_case v
  | PList elements => list_case elements
  | PDict items =>
      dict_case items
        ((fix each (items : list (str * pyval)) : Forall (λ kv, P kv.2) items :=
            match items with
            | [] => @List.Forall_nil _ _
            | (key, value) :: rest =>
                @List.Forall_cons _ (λ kv, P kv.2) (key, value) rest
                                  (pyval_dict_ind value) (each rest)
            end) items)
  | POther s r => other_case s r
  end.

End Induction.

Section Flatten.
Context `{PyText}.

Definition put_entry (m : gmap str pyval) (kv : str * pyval) : gmap str pyval :=
  <[kv.1 := kv.2]> m.

(** What the loop of [_flatten_recursive] does with one item. *)
Definition visit (prefix : str) (flattened : gmap str pyval)
    (item : str * pyval) : gmap str pyval :=
  let new_key :=
    if truthy prefix then prefix ++ lit "_" ++ item.1 else item.1 in
  match item.2 with
  | PDict _ => _flatten_recursive item.2 new_key flattened
  | PScalar _ => <[new_key := item.2]> flattened
  | PList elements =>
      <[new_key := PScalar (SStr (join (lit ", ") (map py_str elements)))]>
        flattened
  | POther _ _ => <[new_key := PScalar (SStr (py_str item.2))]> flattened
  end.

Lemma flatten_dict items prefix flattened :
  _flatten_recursive (PDict items) prefix flattened
  = foldl (visit prefix) flattened items.
Proof.
  revert flattened. induction items as [|[key value] rest IH]; intros flattened.
  - reflexivity.
  - simpl foldl. rewrite <- IH. reflexivity.
Qed.

(** Below a non-empty prefix the code and the specification agree. *)
Lemma visit_entries value : ∀ prefix key flattened,
  prefix ≠ [] ->
  visit prefix flattened (key, value)
  = foldl put_entry flattened (FlattenSpec.entries (Some prefix) key value).
Proof.
  induction value as [v|elements|items IH|s r] using pyval_dict_ind;
    intros prefix key flattened Hne;
    unfold visit; destruct prefix as [|c prefix]; try congruence;
    try reflexivity.
  cbn [truthy fst snd]. rewrite flatten_dict.
  cbn [FlattenSpec.entries FlattenSpec.joined].
  set (new_key := (c :: prefix) ++ lit "_" ++ key).
  assert (Hnew : new_key ≠ []) by (subst new_key; discriminate).
  clearbody new_key. revert flattened.
  induction IH as [|[k v] rest Hv _ IHrest]; intros flattened; [reflexivity|].
  simpl foldl. simpl flat_map. rewrite foldl_app. simpl in Hv.
  rewrite <- (Hv new_key k flattened Hnew). apply IHrest.
Qed.

(** At the top the code agrees with the specification on every item whose
    key is not the empty string. *)
Lemma visit_top key value flattened :
  key ≠ [] ->
  visit [] flattened (key, value)
  = foldl put_entry flattened (FlattenSpec.entries None key value).
Proof.
  intros Hne. destruct value as [v|elements|items|s r]; try reflexivity.
  unfold visit. cbn [truthy fst snd]. rewrite flatten_dict.
  cbn [FlattenSpec.entries FlattenSpec.joined].
  revert flattened. induction items as [|[k v] rest IH]; intros flattened;
    [reflexivity|].
  simpl foldl. simpl flat_map. rewrite foldl_app.
  rewrite <- (visit_entries v key k flattened Hne). apply IH.
Qed.

Lemma flatten_recursive_top items :
  Forall (λ kv, kv.1 ≠ []) items ->
  ∀ flattened,
    _flatten_recursive (PDict items) [] flattened
    = foldl put_entry flattened
        (flat_map (λ kv, FlattenSpec.entries None kv.1 kv.2) items).
Proof.
  intros Hkeys flattened. rewrite flatten_dict. revert flattened.
  induction Hkeys as [|[k v] rest Hk _ IH]; intros flattened; [reflexivity|].
  simpl foldl. simpl flat_map. rewrite foldl_app.
  rewrite <- (visit_top k v flattened Hk). apply IH.
Qed.

(** The last pass of [_flatten_metadata]. *)
Definition ensure (value : pyval) : pyval :=
  if is_scalar value then value else PScalar (SStr (py_str value)).

Lemma ensure_scalar value : is_scalar (ensure value) = true.
Proof. unfold ensure. destruct value; reflexivity. Qed.

Lemma ensure_id value : is_scalar value = true -> ensure value = value.
Proof. unfold ensure. intros ->. reflexivity. Qed.

Lemma leaf_scalar value : is_scalar (FlattenSpec.leaf value) = true.
Proof. destruct value; reflexivity. Qed.

Lemma entries_scalar value : ∀ parent key,
  Forall (λ kv, is_scalar kv.2 = true) (FlattenSpec.entries parent key value).
Proof.
  induction value as [v|elements|items IH|s r] using pyval_dict_ind;
    intros parent key; try (repeat constructor).
  cbn [FlattenSpec.entries].
  induction IH as [|[k v] rest Hv _ IHrest]; [constructor|].
  simpl in *. apply Forall_app. split; [apply Hv | apply IHrest].
Qed.

Lemma ensure_foldl l : ∀ m,
  Forall (λ kv, is_scalar kv.2 = true) l ->
  ensure <$> foldl put_entry m l = foldl put_entry (ensure <$> m) l.
Proof.
  induction l as [|[k v] rest IH]; intros m Hl; [reflexivity|].
  inversion Hl as [|? ? Hv Hrest]; subst. simpl in *.
  rewrite IH by exact Hrest. unfold put_entry at 2 4. simpl.
  rewrite fmap_insert, (ensure_id v Hv). reflexivity.
Qed.

(** On a mapping whose top-level keys are not the empty string,
    [_flatten_metadata] is the flattening of the specification: nested
    mappings are walked and parent and child keys joined with an
    underscore, scalars pass through, a list becomes the comma-joined
    string forms of its elements and any other value its string form.
    No value of any output is a mapping, and the mapping a -> (b -> 1,
    c -> [1, 2]) flattens to a_b -> 1 and a_c -> the string 1, 2. *)
Lemma flatten_metadata_agrees :
  (∀ items,
     Forall (λ kv, kv.1 ≠ []) items ->
     _flatten_metadata (PDict items) = FlattenSpec.flatten items)
  ∧ (∀ metadata key value,
       _flatten_metadata metadata !! key = Some value ->
       is_scalar value = true ∧ is_dict value = false)
  ∧ _flatten_metadata
      (PDict [(lit "a",
               PDict [(lit "b", PScalar (SInt 1));
                      (lit "c", PList [PScalar (SInt 1); PScalar (SInt 2)])])])
    = <[lit "a_b" := PScalar (SInt 1)]>
        (<[lit "a_c" := PScalar (SStr (lit "1, 2"))]> ∅).
Proof.
  split; [|split].
  - intros items Hkeys. unfold _flatten_metadata, FlattenSpec.flatten.
    rewrite flatten_recursive_top by exact Hkeys.
    change (λ value, if is_scalar value then value else PScalar (SStr (py_str value)))
      with ensure.
    rewrite ensure_foldl, fmap_empty; [reflexivity|].
    clear Hkeys. induction items as [|[k v] rest IH]; [constructor|].
    simpl. apply Forall_app. split; [apply entries_scalar | exact IH].
  - intros metadata key value. unfold _flatten_metadata.
    rewrite lookup_fmap. destruct (_ !! key) as [v|]; [|discriminate].
    intros [= <-]. destruct (is_scalar v) eqn:E.
    + destruct v; try discriminate. auto.
    + auto.
  - vm_compute. reflexivity.
Qed.

End Flatten.

(** C2: the code misses the rule of the specification on a parent key
    that is the empty string.  For the mapping '' -> (b -> 1) joining
    parent and child with an underscore gives the key _b, and
    [_flatten_metadata] returns the key b: its test [if prefix] takes the
    empty parent key for no parent at all.  One level down the same code
    does join an empty key: a -> ('' -> (b -> 1)) flattens to a__b.  At the
    top the child of the empty key lands on the key of its sibling b, and
    one of the two values is lost. *)
Theorem flatten_metadata_empty_parent_key :
  @_flatten_metadata Scenario.simple_text
     (PDict [([], PDict [(lit "b", PScalar (SInt 1))])])
  = {[ lit "b" := PScalar (SInt 1) ]}
  ∧ @FlattenSpec.flatten Scenario.simple_text
      [([], PDict [(lit "b", PScalar (SInt 1))])]
    = {[ lit "_b" := PScalar (SInt 1) ]}
  ∧ @_flatten_metadata Scenario.simple_text
      (PDict [([], PDict [(lit "b", PScalar (SInt 1))])])
    ≠ @FlattenSpec.flatten Scenario.simple_text
        [([], PDict [(lit "b", PScalar (SInt 1))])]
  ∧ @_flatten_metadata Scenario.simple_text
      (PDict [(lit "a", PDict [([], PDict [(lit "b", PScalar (SInt 1))])])])
    = {[ lit "a__b" := PScalar (SInt 1) ]}
  ∧ @FlattenSpec.flatten Scenario.simple_text
      [(lit "a", PDict [([], PDict [(lit "b", PScalar (SInt 1))])])]
    = {[ lit "a__b" := PScalar (SInt 1) ]}
  ∧ @_flatten_metadata Scenario.simple_text
      (PDict [([], PDict [(lit "b", PScalar (SInt 1))]);
              (lit "b", PScalar (SInt 2))])
    = {[ lit "b" := PScalar (SInt 2) ]}.
Proof.
  split; [vm_compute; reflexivity|]. split; [vm_compute; reflexivity|].
  split; [|repeat split; vm_compute; reflexivity].
  intros Heq. apply (f_equal (λ m, m !! lit "b")) in Heq.
  vm_compute in Heq. discriminate.
Qed.

End FlattenFacts.

(** ** Reasoning about computations *)

Module EffFacts.
Import Eff.

(** Unfolds the plumbing of a computation down to its [Run]. *)
Ltac run :=
  cbv [try_except bind calling within log tell tell_all lift ret raise get put
       result final trace].

(** *** What a computation may record *)

(** Every event [m] records, from any state, satisfies [P]. *)
Definition records {S A} (P : event -> Prop) (m : M S A) : Prop :=
  ∀ s ev, ev ∈ trace (m s) -> P ev.

Section Records.
Context {S : Type} (P : event -> Prop).

Lemma records_ret {A} (a : A) : records P (ret a : M S A).
Proof. intros s ev Hin. inversion Hin. Qed.

Lemma records_raise {A} e : records P (raise e : M S A).
Proof. intros s ev Hin. inversion Hin. Qed.

Lemma records_lift {A} (o : outcome A) : records P (lift o : M S A).
Proof. intros s ev Hin. inversion Hin. Qed.

Lemma records_get : records P (get : M S S).
Proof. intros s ev Hin. inversion Hin. Qed.

Lemma records_tell ev : P ev -> records P (tell ev : M S unit).
Proof.
  intros Hev s ev' Hin. apply list_elem_of_singleton in Hin. subst. exact Hev.
Qed.

Lemma records_log l text about :
  P (Logged (Log l text about)) -> records P (log l text about : M S unit).
Proof. apply records_tell. Qed.

Lemma records_calling {A} c (answer : outcome A) :
  P (Called c) -> records P (calling c answer : M S A).
Proof.
  intros Hc s ev Hin. apply list_elem_of_singleton in Hin. subst. exact Hc.
Qed.

Lemma records_bind {A B} (m : M S A) (k : A -> M S B) :
  records P m -> (∀ a, records P (k a)) -> records P (bind m k).
Proof.
  intros Hm Hk s ev. unfold bind.
  destruct (result (m s)) as [a| |] eqn:E; cbn [trace].
  - rewrite elem_of_app. intros [Hin|Hin]; [eapply Hm | eapply Hk]; eauto.
  - apply Hm.
  - apply Hm.
Qed.

Lemma records_try_except {A} (body : M S A) handler :
  records P body -> (∀ e, records P (handler e)) ->
  records P (try_except body handler).
Proof.
  intros Hb Hh s ev. unfold try_except.
  destruct (result (body s)) as [a|e|] eqn:E; cbn [trace].
  - apply Hb.
  - rewrite elem_of_app. intros [Hin|Hin]; [eapply Hb | eapply Hh]; eauto.
  - apply Hb.
Qed.

End Records.

Lemma records_within {S T A} P (part : S -> option T) update (m : M T A) :
  records P m -> records P (within part update m).
Proof.
  intros Hm s ev. unfold within. destruct (part s) as [t|]; cbn [trace].
  - apply Hm.
  - intros Hin. inversion Hin.
Qed.

(** A computation that starts by reading the state records what its
    continuation records from that state. *)
Lemma trace_bind_get {S A} (k : S -> M S A) s :
  trace (bind get k s) = trace (k s s).
Proof. reflexivity. Qed.

Lemma bind_get {S A} (k : S -> M S A) s : bind get k s = k s s.
Proof. unfold bind, get. simpl. destruct (k s s); reflexivity. Qed.

(** One step of a proof that a computation records only [P]-events. *)
Ltac records_step :=
  match goal with
  | |- records _ (ret _) => apply records_ret
  | |- records _ (raise _) => apply records_raise
  | |- records _ (lift _) => apply records_lift
  | |- records _ get => apply records_get
  | |- records _ (log _ _ _) => apply records_log
  | |- records _ (calling _ _) => apply records_calling
  | |- records _ (bind _ _) => apply records_bind
  | |- records _ (try_except _ _) => apply records_try_except
  | |- records _ (within _ _ _) => apply records_within
  | |- records _ (match ?x with _ => _ end) => destruct x
  | |- ∀ _, _ => intro
  end.

End EffFacts.

(** ** Binary64 rounding *)

Module FloatFacts.
Local Open Scope Q_scope.

Lemma two_pos k : 0 < 2 ^ k.
Proof. apply Qpower_0_lt. reflexivity. Qed.

Lemma two_nonzero k : ~ 2 ^ k == 0.
Proof. pose proof (two_pos k). lra. Qed.

Lemma two_plus a b : 2 ^ (a + b) == 2 ^ a * 2 ^ b.
Proof. apply Qpower_plus. discriminate. Qed.

Lemma two_minus a b : 2 ^ (a - b) == 2 ^ a / 2 ^ b.
Proof.
  unfold Z.sub. rewrite two_plus, Qpower_opp. reflexivity.
Qed.

Lemma two_Z k : (0 <= k)%Z -> 2 ^ k == inject_Z (2 ^ k)%Z.
Proof. intros Hk. rewrite Zpower_Qpower by exact Hk. reflexivity. Qed.

Lemma two_le a b : (a <= b)%Z -> 2 ^ a <= 2 ^ b.
Proof. intros H. apply Qpower_le_compat_l; [exact H | discriminate]. Qed.

Lemma inject_Z_pos z : (0 < z)%Z -> 0 < inject_Z z.
Proof. intros H. unfold Qlt. cbn. lia. Qed.

(** [exponent] is the binade of a positive number. *)
Lemma exponent_spec q :
  0 < q -> 2 ^ exponent q <= q /\ q < 2 ^ (exponent q + 1).
Proof.
  intros Hq. destruct q as [n d]. unfold exponent. cbn [Qnum Qden].
  assert (Hn : (0 < n)%Z) by (unfold Qlt in Hq; cbn in Hq; lia).
  pose proof (Z.log2_spec n Hn) as [Hn1 Hn2].
  pose proof (Z.log2_spec (Z.pos d) (Pos2Z.is_pos d)) as [Hd1 Hd2].
  pose proof (Z.log2_nonneg n) as Hln. pose proof (Z.log2_nonneg (Z.pos d)) as Hld.
  set (ln := Z.log2 n) in *. set (ld := Z.log2 (Z.pos d)) in *.
  assert (Hp : forall k, (0 <= k)%Z -> (0 < 2 ^ k)%Z) by (intros; apply Z.pow_pos_nonneg; lia).
  pose proof (Hp ln Hln) as Hpn. pose proof (Hp ld Hld) as Hpd.
  destruct (Qle_bool (2 ^ (ln - ld)) (n # d)) eqn:Hb.
  - split; [apply Qle_bool_iff; exact Hb |].
    replace (ln - ld + 1)%Z with (Z.succ ln - ld)%Z by lia.
    rewrite two_minus, !two_Z by lia.
    apply Qlt_shift_div_l.
    + apply inject_Z_pos. exact Hpd.
    + revert Hn2 Hd1 Hpd. generalize (2 ^ Z.succ ln)%Z (2 ^ ld)%Z. intros N D Hn2 Hd1 Hpd.
      unfold Qlt, Qmult, inject_Z. cbn [Qnum Qden]. rewrite !Pos.mul_1_r, !Z.mul_1_r.
      apply Z.le_lt_trans with (n * Z.pos d)%Z; nia.
  - assert (Hlt : (n # d) < 2 ^ (ln - ld)).
    { apply Qnot_le_lt. intros Hle. apply Qle_bool_iff in Hle. congruence. }
    split.
    + replace (ln - ld - 1)%Z with (ln - Z.succ ld)%Z by lia.
      rewrite two_minus, !two_Z by lia.
      apply Qle_shift_div_r.
      * apply inject_Z_pos. apply Hp. lia.
      * revert Hn1 Hd2. generalize (2 ^ ln)%Z (2 ^ Z.succ ld)%Z. intros N D Hn1 Hd2.
        unfold Qle, Qmult, inject_Z. cbn [Qnum Qden]. rewrite ?Pos.mul_1_r, ?Z.mul_1_r, ?Z.mul_1_l.
        idtac. nia.
    + replace (ln - ld - 1 + 1)%Z with (ln - ld)%Z by lia. exact Hlt.
Qed.

Lemma exponent_le x y : 0 < x -> x <= y -> (exponent x <= exponent y)%Z.
Proof.
  intros Hx Hxy.
  destruct (exponent_spec x Hx) as [Hx1 _].
  destruct (exponent_spec y) as [_ Hy2]; [lra |].
  assert (H : 2 ^ exponent x < 2 ^ (exponent y + 1)) by lra.
  apply Qpower_lt_compat_l_inv in H; [lia | reflexivity].
Qed.

Lemma half_even_near x :
  half_even x = Qfloor x \/ half_even x = (Qfloor x + 1)%Z.
Proof.
  unfold half_even.
  destruct (x - inject_Z (Qfloor x) ?= 1 # 2); [destruct (Z.even _) | |]; auto.
Qed.

Lemma half_even_Z z : half_even (inject_Z z) = z.
Proof.
  unfold half_even. rewrite Qfloor_Z.
  destruct (Qcompare_spec (inject_Z z - inject_Z z) (1 # 2)) as [H|H|H]; [lra | reflexivity | lra].
Qed.

(** Rounding to the nearest integer is monotone and fixes the integers. *)
Lemma half_even_le x y : x <= y -> (half_even x <= half_even y)%Z.
Proof.
  intros Hxy. pose proof (Qfloor_resp_le x y Hxy) as Hf.
  destruct (Z.eq_dec (Qfloor x) (Qfloor y)) as [He|Hne].
  - unfold half_even. rewrite He.
    destruct (Qcompare_spec (x - inject_Z (Qfloor y)) (1 # 2)) as [H1|H1|H1];
      destruct (Qcompare_spec (y - inject_Z (Qfloor y)) (1 # 2)) as [H2|H2|H2];
      try destruct (Z.even (Qfloor y)); try lia; lra.
  - destruct (half_even_near x) as [-> | ->], (half_even_near y) as [-> | ->]; lia.
Qed.

Lemma half_even_comp x y : x == y -> half_even x = half_even y.
Proof.
  intros H. apply Z.le_antisymm; apply half_even_le; lra.
Qed.

Lemma half_even_nonneg x : 0 <= x -> (0 <= half_even x)%Z.
Proof.
  intros H. change 0%Z with (half_even (inject_Z 0)) at 1. apply half_even_le. exact H.
Qed.

(** The unit in the last place of a positive number. *)
Definition place (q : Q) : Z := Z.max (exponent q) (-1022) - 52.

Lemma Qabs_nonneg_eq q : 0 <= q -> Qabs q = q.
Proof.
  destruct q as [n d]. unfold Qle, Qabs. cbn. intros H.
  f_equal. apply Z.abs_eq. lia.
Qed.

Lemma fl_pos q :
  0 < q -> fl q == inject_Z (half_even (q / 2 ^ place q)) * 2 ^ place q.
Proof.
  intros Hq. unfold fl.
  destruct (Qeq_bool q 0) eqn:Hz; [apply Qeq_bool_iff in Hz; lra |].
  assert (Hle : Qle_bool 0 q = true) by (apply Qle_bool_iff; lra).
  cbv zeta. rewrite Hle, Qred_correct, Qabs_nonneg_eq by lra. reflexivity.
Qed.

Lemma fl_zero q : q == 0 -> fl q = 0.
Proof.
  intros H. unfold fl. apply Qeq_bool_iff in H. rewrite H. reflexivity.
Qed.

Lemma fl_nonneg q : 0 <= q -> 0 <= fl q.
Proof.
  intros Hq. destruct (Qle_lt_or_eq _ _ Hq) as [Hpos | Hz].
  - rewrite fl_pos by exact Hpos.
    apply Qmult_le_0_compat; [| apply Qlt_le_weak, two_pos].
    change 0 with (inject_Z 0). rewrite <- Zle_Qle. apply half_even_nonneg.
    apply Qle_shift_div_l; [apply two_pos | lra].
  - rewrite fl_zero by (symmetry; exact Hz). lra.
Qed.

(** Rounding a positive number stays within its binade. *)
Lemma fl_above_power q k :
  0 < q -> (place q <= k)%Z -> 2 ^ k <= q -> 2 ^ k <= fl q.
Proof.
  intros Hq Hk Hle. rewrite fl_pos by exact Hq.
  set (p := place q) in *.
  assert (Hsplit : 2 ^ k == inject_Z (2 ^ (k - p))%Z * 2 ^ p).
  { rewrite <- two_Z by lia. rewrite <- two_plus. replace (k - p + p)%Z with k by lia. reflexivity. }
  rewrite Hsplit. apply Qmult_le_compat_r; [| apply Qlt_le_weak, two_pos].
  rewrite <- Zle_Qle.
  rewrite <- (half_even_Z (2 ^ (k - p))%Z) at 1. apply half_even_le.
  apply Qle_shift_div_l; [apply two_pos |]. rewrite <- Hsplit. exact Hle.
Qed.

Lemma fl_below_power q k :
  0 < q -> (place q <= k)%Z -> q <= 2 ^ k -> fl q <= 2 ^ k.
Proof.
  intros Hq Hk Hle. rewrite fl_pos by exact Hq.
  set (p := place q) in *.
  assert (Hsplit : 2 ^ k == inject_Z (2 ^ (k - p))%Z * 2 ^ p).
  { rewrite <- two_Z by lia. rewrite <- two_plus. replace (k - p + p)%Z with k by lia. reflexivity. }
  rewrite Hsplit. apply Qmult_le_compat_r; [| apply Qlt_le_weak, two_pos].
  rewrite <- Zle_Qle.
  rewrite <- (half_even_Z (2 ^ (k - p))%Z). apply half_even_le.
  apply Qle_shift_div_r; [apply two_pos |]. rewrite <- Hsplit. exact Hle.
Qed.

Lemma fl_le_pos x y : 0 < x -> x <= y -> fl x <= fl y.
Proof.
  intros Hx Hxy. assert (Hy : 0 < y) by lra.
  pose proof (exponent_le x y Hx Hxy) as He.
  destruct (exponent_spec x Hx) as [Hx1 Hx2].
  destruct (exponent_spec y Hy) as [Hy1 Hy2].
  destruct (Z.eq_dec (place x) (place y)) as [Hp | Hp].
  - rewrite (fl_pos x Hx), (fl_pos y Hy), Hp.
    apply Qmult_le_compat_r; [| apply Qlt_le_weak, two_pos].
    rewrite <- Zle_Qle. apply half_even_le.
    apply Qmult_le_compat_r; [exact Hxy |].
    apply Qlt_le_weak, Qinv_lt_0_compat, two_pos.
  - assert (Hlt : (exponent x < exponent y)%Z) by (unfold place in *; lia).
    apply Qle_trans with (2 ^ exponent y).
    + apply fl_below_power; [exact Hx | unfold place in *; lia |].
      apply Qle_trans with (2 ^ (exponent x + 1)); [apply Qlt_le_weak; exact Hx2 | apply two_le; lia].
    + apply fl_above_power; [exact Hy | unfold place in *; lia | exact Hy1].
Qed.

(** Rounding is monotone on the non-negative numbers. *)
Lemma fl_le x y : 0 <= x -> x <= y -> fl x <= fl y.
Proof.
  intros Hx Hxy. destruct (Qle_lt_or_eq _ _ Hx) as [Hpos | Hz].
  - apply fl_le_pos; assumption.
  - rewrite (fl_zero x) by (symmetry; exact Hz). apply fl_nonneg. lra.
Qed.

Lemma fl_comp x y : x == y -> fl x = fl y.
Proof.
  intros Hxy. unfold fl.
  assert (Hz : Qeq_bool x 0 = Qeq_bool y 0).
  { destruct (Qeq_bool x 0) eqn:H1, (Qeq_bool y 0) eqn:H2; try reflexivity.
    - apply Qeq_bool_iff in H1. assert (H : y == 0) by lra. apply Qeq_bool_iff in H. congruence.
    - apply Qeq_bool_iff in H2. assert (H : x == 0) by lra. apply Qeq_bool_iff in H. congruence. }
  rewrite Hz. destruct (Qeq_bool y 0) eqn:Hy0; [reflexivity |].
  assert (Hny : ~ y == 0) by (intros H; apply Qeq_bool_iff in H; congruence).
  assert (Ha : Qabs x == Qabs y) by (rewrite Hxy; reflexivity).
  assert (Hpos : 0 < Qabs y).
  { apply Qabs_case; intros H; destruct (Qle_lt_or_eq _ _ H) as [H' | H'];
      try lra; exfalso; apply Hny; lra. }
  assert (He : exponent (Qabs x) = exponent (Qabs y)).
  { apply Z.le_antisymm; apply exponent_le; lra. }
  assert (Hl : Qle_bool 0 x = Qle_bool 0 y).
  { destruct (Qle_bool 0 x) eqn:H1, (Qle_bool 0 y) eqn:H2; try reflexivity.
    - apply Qle_bool_iff in H1. assert (H : 0 <= y) by lra. apply Qle_bool_iff in H. congruence.
    - apply Qle_bool_iff in H2. assert (H : 0 <= x) by lra. apply Qle_bool_iff in H. congruence. }
  cbv zeta. rewrite He, Hl. apply Qred_complete.
  assert (Hh : half_even (Qabs x / 2 ^ (Z.max (exponent (Qabs y)) (-1022) - 52))
             = half_even (Qabs y / 2 ^ (Z.max (exponent (Qabs y)) (-1022) - 52))).
  { apply half_even_comp. rewrite Ha. reflexivity. }
  rewrite Hh. reflexivity.
Qed.

Lemma fl_one : fl 1 = 1.
Proof. vm_compute. reflexivity. Qed.

(** The doubles of 0.1, 0.7 and 2/3; ties go to the even neighbour, at 1
    and among the subnormal numbers. *)
Lemma fl_examples :
  fl (1 # 10) = 3602879701896397 # 36028797018963968
  ∧ fl (7 # 10) = 3152519739159347 # 4503599627370496
  ∧ fl (2 # 3) = 6004799503160661 # 9007199254740992
  ∧ fl (- (2 # 3)) = - (6004799503160661 # 9007199254740992)
  ∧ fl (1 + (1 # 2 ^ 53)) = 1
  ∧ fl (1 + (3 # 2 ^ 53)) = 1 + (1 # 2 ^ 51)
  ∧ fl (1 # 2 ^ 1075) = 0
  ∧ fl (3 # 2 ^ 1075) == 2 * 2 ^ (-1074)
  ∧ fl (2 ^ (-1074)) == 2 ^ (-1074).
Proof.
  repeat split; vm_compute; reflexivity.
Qed.

(** Integers of at most 53 bits are doubles. *)
Lemma fl_integer z : (0 <= z <= 2 ^ 53)%Z -> fl (inject_Z z) == inject_Z z.
Proof.
  intros Hz. destruct (Z.eq_dec z 0%Z) as [-> | Hnz]; [reflexivity |].
  assert (Hpos : 0 < inject_Z z) by (apply inject_Z_pos; lia).
  destruct (exponent_spec _ Hpos) as [He1 He2].
  set (e := exponent (inject_Z z)) in *.
  assert (He0 : (0 <= e)%Z).
  { assert (H : 2 ^ 0 < 2 ^ (e + 1)).
    { apply Qle_lt_trans with (inject_Z z); [| exact He2].
      change (2 ^ 0) with (inject_Z 1). rewrite <- Zle_Qle. lia. }
    apply (Qpower_lt_compat_l_inv 2 0 (e + 1)) in H; [lia | reflexivity]. }
  assert (He53 : (e <= 53)%Z).
  { assert (H : 2 ^ e <= 2 ^ 53).
    { apply Qle_trans with (inject_Z z); [exact He1 |].
      rewrite (two_Z 53) by lia. rewrite <- Zle_Qle. lia. }
    apply (Qpower_le_compat_l_inv 2 e 53) in H; [lia | reflexivity]. }
  destruct (Z.eq_dec e 53%Z) as [E53 | N53].
  - assert (Hz53 : inject_Z z == 2 ^ 53).
    { apply Qle_antisym.
      - rewrite (two_Z 53) by lia. rewrite <- Zle_Qle. lia.
      - rewrite <- E53. exact He1. }
    assert (Hp : (place (inject_Z z) <= 53)%Z) by (unfold place; fold e; lia).
    apply Qle_antisym.
    + rewrite Hz53 at 2. apply fl_below_power; [exact Hpos | exact Hp | rewrite Hz53; apply Qle_refl].
    + rewrite Hz53 at 1. apply fl_above_power; [exact Hpos | exact Hp | rewrite Hz53; apply Qle_refl].
  - rewrite fl_pos by exact Hpos.
    assert (Hp : place (inject_Z z) = (e - 52)%Z) by (unfold place; fold e; lia).
    rewrite Hp.
    assert (Hq : inject_Z z / 2 ^ (e - 52) == inject_Z (z * 2 ^ (52 - e))).
    { rewrite inject_Z_mult, <- two_Z by lia.
      replace (52 - e)%Z with (- (e - 52))%Z by lia. rewrite Qpower_opp. reflexivity. }
    rewrite (half_even_comp _ _ Hq), half_even_Z, inject_Z_mult, <- two_Z by lia.
    rewrite <- Qmult_assoc, <- two_plus.
    replace (52 - e + (e - 52))%Z with 0%Z by lia. change (2 ^ 0) with 1. ring.
Qed.

End FloatFacts.

(** ** The vector store *)

Module StoreFacts.
Import PyFacts Eff EffFacts VectorStore.

(** *** The distance-to-similarity transform *)

Lemma similarity_of_returns d s :
  similarity_of d = Returns s ->
  ¬ (fadd 1 d == 0)%Q ∧ s = fdiv 1 (fadd 1 d).
Proof.
  unfold similarity_of. cbv zeta.
  destruct (Qeq_bool (fadd 1 d) 0) eqn:E; [discriminate|].
  intros [= <-]. split; [|reflexivity].
  intros Hz. apply Qeq_bool_iff in Hz. congruence.
Qed.

Lemma similarity_of_defined d :
  ¬ (fadd 1 d == 0)%Q -> similarity_of d = Returns (fdiv 1 (fadd 1 d)).
Proof.
  intros Hd. unfold similarity_of. cbv zeta.
  destruct (Qeq_bool (fadd 1 d) 0) eqn:E; [|reflexivity].
  apply Qeq_bool_iff in E. contradiction.
Qed.

Lemma Qinv_antitone a b : (0 < a)%Q -> (a <= b)%Q -> (1 / b <= 1 / a)%Q.
Proof.
  intros Ha Hab.
  apply Qle_shift_div_r; [lra|].
  assert (E : (1 / a * b == b / a)%Q) by (field; lra).
  rewrite E. apply Qle_shift_div_l; lra.
Qed.

(** From -1 upwards a larger distance never has a larger similarity. *)
Lemma similarity_nonincreasing d1 d2 s1 s2 :
  (-1 < d1)%Q -> (d1 <= d2)%Q ->
  similarity_of d1 = Returns s1 -> similarity_of d2 = Returns s2 ->
  (s2 <= s1)%Q.
Proof.
  intros Hd1 Hle H1 H2.
  apply similarity_of_returns in H1 as [Hn1 ->].
  apply similarity_of_returns in H2 as [Hn2 ->].
  unfold fdiv, fadd in *.
  assert (Ha1 : (0 <= fl (1 + d1))%Q) by (apply FloatFacts.fl_nonneg; lra).
  assert (Ha : (fl (1 + d1) <= fl (1 + d2))%Q) by (apply FloatFacts.fl_le; lra).
  assert (Hp1 : (0 < fl (1 + d1))%Q).
  { destruct (Qle_lt_or_eq _ _ Ha1) as [Hlt | Heq]; [exact Hlt|].
    exfalso. apply Hn1. symmetry. exact Heq. }
  apply FloatFacts.fl_le.
  - apply Qle_shift_div_l; lra.
  - apply Qinv_antitone; assumption.
Qed.

(** A distance that is not negative has a similarity between 0 and 1. *)
Lemma similarity_unit d :
  (0 <= d)%Q -> ∃ s, similarity_of d = Returns s ∧ (0 <= s <= 1)%Q.
Proof.
  intros Hd.
  assert (Ha : (1 <= fadd 1 d)%Q).
  { unfold fadd. apply Qle_trans with (fl 1); [rewrite FloatFacts.fl_one; apply Qle_refl|].
    apply FloatFacts.fl_le; lra. }
  exists (fdiv 1 (fadd 1 d)). split; [apply similarity_of_defined; lra|].
  unfold fdiv. split.
  - apply FloatFacts.fl_nonneg. apply Qle_shift_div_l; lra.
  - apply Qle_trans with (fl 1); [|rewrite FloatFacts.fl_one; apply Qle_refl].
    apply FloatFacts.fl_le.
    + apply Qle_shift_div_l; lra.
    + apply Qle_shift_div_r; lra.
Qed.

(** Every entry collected carries the transform of its own distance and
    clears the threshold. *)
Lemma collect_sound threshold rows : ∀ acc hits,
  collect threshold rows acc = Returns hits ->
  ∀ h, h ∈ hits ->
    h ∈ acc
    ∨ (similarity_score h = fdiv 1 (fadd 1 (distance h))
       ∧ Qle_bool threshold (similarity_score h) = true).
Proof.
  induction rows as [|[[doc meta] d] rest IH]; intros acc hits; simpl.
  - intros [= <-] h Hh. left. exact Hh.
  - destruct (similarity_of d) as [s| |] eqn:Hs; simpl; try discriminate.
    apply similarity_of_returns in Hs as [_ ->].
    intros Hc h Hh. specialize (IH _ _ Hc h Hh).
    destruct (Qle_bool threshold (fdiv 1 (fadd 1 d))) eqn:E; [|exact IH].
    destruct IH as [Hacc|IH]; [|right; exact IH].
    apply elem_of_app in Hacc as [Hacc|Hnew]; [left; exact Hacc|].
    apply list_elem_of_singleton in Hnew. subst h. right. simpl. auto.
Qed.

(** When no denominator is zero nothing raises, and exactly the rows that
    clear the threshold are collected, in order. *)
Lemma collect_complete threshold rows : ∀ acc,
  Forall (λ row, ¬ (fadd 1 row.2 == 0)%Q) rows ->
  collect threshold rows acc
  = Returns (acc ++ map hit_of (filter (clears threshold) rows)).
Proof.
  induction rows as [|[[doc meta] d] rest IH]; intros acc Hpos; simpl.
  - rewrite app_nil_r. reflexivity.
  - inversion Hpos as [|? ? Hd Hrest]; subst. simpl in Hd.
    rewrite similarity_of_defined by exact Hd. simpl.
    rewrite IH by exact Hrest.
    destruct (Qle_bool threshold (fdiv 1 (fadd 1 d))) eqn:E.
    + rewrite filter_cons_True by exact E. simpl.
      rewrite <- app_assoc. reflexivity.
    + rewrite filter_cons_False by (unfold clears; simpl; congruence).
      reflexivity.
Qed.

(** A row whose denominator is zero empties the result. *)
Lemma collect_raises threshold rows : ∀ acc,
  Exists (λ row, (fadd 1 row.2 == 0)%Q) rows ->
  collect threshold rows acc = Raises ZeroDivisionError.
Proof.
  induction rows as [|[[doc meta] d] rest IH]; intros acc Hex; simpl.
  - inversion Hex.
  - unfold similarity_of. cbv zeta.
    destruct (Qeq_bool (fadd 1 d) 0) eqn:E; [reflexivity|]. simpl.
    apply IH. inversion Hex as [? ? Hd|? ? Hrest]; subst; [|exact Hrest].
    simpl in Hd. apply Qeq_bool_iff in Hd. congruence.
Qed.

Lemma similarity_of_zero : similarity_of 0 = Returns 1%Q.
Proof. vm_compute. reflexivity. Qed.

(** Rows without metadata and distances: every document comes back at
    distance 0 and similarity 1, or none does. *)
Lemma collect_defaults threshold documents : ∀ acc,
  collect threshold
    (zip (zip documents (replicate (length documents) ∅))
         (replicate (length documents) 0%Q)) acc
  = Returns
      (acc ++ if Qle_bool threshold 1
              then map (λ doc, {| document := doc; metadata := ∅;
                                  similarity_score := 1; distance := 0 |})
                       documents
              else []).
Proof.
  induction documents as [|doc rest IH]; intros acc.
  - simpl. destruct (Qle_bool threshold 1); rewrite app_nil_r; reflexivity.
  - cbn [length replicate zip zip_with collect]. rewrite similarity_of_zero.
    cbn [obind]. rewrite IH.
    destruct (Qle_bool threshold 1); [|reflexivity].
    rewrite <- app_assoc. reflexivity.
Qed.

(** The rows of an answer that has all three lists. *)
Lemma rows_of_lists documents metadatas distances more_documents more_metadatas
    more_distances :
  rows_of {| VectorStore.documents := Some (documents :: more_documents);
             VectorStore.metadatas := Some (metadatas :: more_metadatas);
             VectorStore.distances := Some (distances :: more_distances) |}
  = zip (zip documents metadatas) distances.
Proof. unfold rows_of. simpl. destruct documents; reflexivity. Qed.

Section Store.
Context {C : Type} `{Chroma C} `{PyText}.

(** What [search_similar] comes to, case by case. *)
Lemma search_similar_result (store : t C) emb top_k threshold :
  result (search_similar emb top_k threshold store)
  = match collection store with
    | None => Returns []
    | Some c =>
        match query c emb top_k with
        | Returns results =>
            match collect threshold (rows_of results) [] with
            | Returns hits => Returns hits
            | Raises _ => Returns []
            | OutOfFuel => OutOfFuel
            end
        | Raises _ => Returns []
        | OutOfFuel => OutOfFuel
        end
    end.
Proof.
  unfold search_similar, require_collection, set_collection. run.
  destruct (collection store) as [c|]; [|reflexivity].
  destruct (query c emb top_k) as [results| |]; try reflexivity.
  destruct (collect threshold (rows_of results) []); reflexivity.
Qed.

(** Every entry [search_similar] returns carries the transform of its own
    distance and clears the threshold. *)
Lemma search_similar_sound (store : t C) emb top_k threshold hits h :
  result (search_similar emb top_k threshold store) = Returns hits ->
  h ∈ hits ->
  similarity_score h = fdiv 1 (fadd 1 (distance h))
  ∧ Qle_bool threshold (similarity_score h) = true.
Proof.
  intros Hres Hin. rewrite search_similar_result in Hres.
  destruct (collection store) as [c|];
    [|injection Hres as <-; inversion Hin].
  destruct (query c emb top_k) as [results| |];
    [|injection Hres as <-; inversion Hin|discriminate].
  destruct (collect threshold (rows_of results) []) as [hits0| |] eqn:Hc;
    [|injection Hres as <-; inversion Hin|discriminate].
  injection Hres as <-.
  destruct (collect_sound _ _ _ _ Hc h Hin) as [Hnil|Hok];
    [inversion Hnil|exact Hok].
Qed.

(** C1, amended: every entry [search_similar] returns carries the float
    [1 / (1 + distance)] of its own distance, the sum and the quotient each
    rounded to the nearest double, and is not below the threshold; when
    [1 + distance] is [0.0] for no entry of the answer, the entries
    returned are exactly the entries of the answer whose similarity is at
    least the threshold, in their order, each with the document, the
    metadata and the distance of the answer; an answer without metadata
    and distances gives every document empty metadata, distance 0 and
    similarity 1.  The transform sends distance
    0 to similarity 1, never grows with the distance from -1 upwards, and
    stays between 0 and 1 on the distances that are not negative. *)
Theorem search_similar_scores (store : t C) emb top_k threshold :
  (∀ hits h,
     result (search_similar emb top_k threshold store) = Returns hits ->
     h ∈ hits ->
     similarity_score h = fdiv 1 (fadd 1 (distance h))
     ∧ (threshold <= similarity_score h)%Q
     ∧ ¬ (similarity_score h < threshold)%Q)
  ∧ (∀ c documents metadatas distances more_documents more_metadatas
       more_distances,
       collection store = Some c ->
       query c emb top_k
       = Returns {| VectorStore.documents := Some (documents :: more_documents);
                    VectorStore.metadatas := Some (metadatas :: more_metadatas);
                    VectorStore.distances := Some (distances :: more_distances) |} ->
       Forall (λ d, ¬ (fadd 1 d == 0)%Q) distances ->
       result (search_similar emb top_k threshold store)
       = Returns
           (map (λ row, {| document := row.1.1;
                           metadata := row.1.2;
                           similarity_score := fdiv 1 (fadd 1 row.2);
                           distance := row.2 |})
              (filter (λ row, Qle_bool threshold (fdiv 1 (fadd 1 row.2)) = true)
                 (zip (zip documents metadatas) distances))))
  ∧ (∀ c documents more_documents,
       collection store = Some c ->
       query c emb top_k
       = Returns {| VectorStore.documents := Some (documents :: more_documents);
                    VectorStore.metadatas := None;
                    VectorStore.distances := None |} ->
       result (search_similar emb top_k threshold store)
       = Returns
           (if Qle_bool threshold 1
            then map (λ doc, {| document := doc; metadata := ∅;
                                similarity_score := 1; distance := 0 |})
                     documents
            else []))
  ∧ similarity_of 0 = Returns 1%Q
  ∧ (∀ d1 d2 s1 s2, (-1 < d1)%Q -> (d1 <= d2)%Q ->
       similarity_of d1 = Returns s1 -> similarity_of d2 = Returns s2 ->
       (s2 <= s1)%Q)
  ∧ (∀ d, (0 <= d)%Q ->
       ∃ s, similarity_of d = Returns s ∧ (0 <= s <= 1)%Q).
Proof.
  split; [|split; [|split; [|split; [|split]]]].
  - intros hits h Hres Hin.
    destruct (search_similar_sound _ _ _ _ _ _ Hres Hin) as [Hs Hle].
    apply Qle_bool_iff in Hle.
    split; [exact Hs|]. split; [exact Hle|]. apply Qle_not_lt. exact Hle.
  - intros c documents metadatas distances more_documents more_metadatas
      more_distances Hcoll Hq Hpos.
    rewrite search_similar_result, Hcoll, Hq, rows_of_lists, collect_complete.
    + reflexivity.
    + apply Forall_forall. intros [[doc meta] d] Hin. simpl.
      apply elem_of_zip_r in Hin.
      rewrite Forall_forall in Hpos. apply Hpos. exact Hin.
  - intros c documents more_documents Hcoll Hq.
    rewrite search_similar_result, Hcoll, Hq. unfold rows_of.
    cbn [VectorStore.documents VectorStore.metadatas VectorStore.distances].
    destruct documents as [|doc rest];
      [cbn; destruct (Qle_bool threshold 1); reflexivity|].
    cbn [truthy]. rewrite collect_defaults. reflexivity.
  - exact similarity_of_zero.
  - exact similarity_nonincreasing.
  - exact similarity_unit.
Qed.

(** C7, amended: on a store whose collection is unset, [add_documents],
    [delete_document] and [clear_collection] return false and
    [search_similar] returns an empty list; the RuntimeError raised inside
    is caught and logged, no call reaches ChromaDB, and the store is left
    as it was. *)
Theorem uninitialized_store_reports_failure (store : t C)
    documents embeddings metadata ids doomed emb top_k threshold :
  collection store = None ->
  let not_ready := RuntimeError "Vector store not initialized" in
  add_documents documents embeddings metadata ids store
    = Run (Returns false) store
          [Logged (Log LError "Error adding documents" (Some not_ready))]
  ∧ search_similar emb top_k threshold store
    = Run (Returns []) store
          [Logged (Log LError "Error searching vector store" (Some not_ready))]
  ∧ delete_document doomed store
    = Run (Returns false) store
          [Logged (Log LError "Error deleting documents" (Some not_ready))]
  ∧ clear_collection store
    = Run (Returns false) store
          [Logged (Log LError "Error clearing collection" (Some not_ready))].
Proof.
  intros Hnone. cbv zeta.
  unfold add_documents, search_similar, delete_document, clear_collection,
    require_collection, set_collection.
  run. rewrite Hnone. auto.
Qed.

End Store.

#[local] Existing Instance Scenario.canned.
#[local] Existing Instance Scenario.simple_text.

(** After the threshold example of the specification: of two entries at
    the distances 0.125 and 2.0 (similarities 0.888... and 0.333...) a
    search at threshold 0.5 returns the first, with its document, metadata
    and distance. *)
Lemma search_similar_scores_witness :
  result (search_similar [] 5 (1 # 2) Scenario.two_entries)
  = Returns
      [ {| document := lit "near";
           metadata := {[ lit "file_type" := SStr (lit ".pdf") ]};
           similarity_score := 2001599834386887 # 2251799813685248;
           distance := 1 # 8 |} ].
Proof.
  rewrite (proj1 (proj2 (search_similar_scores Scenario.two_entries [] 5 (1 # 2)))
             Scenario.two_rows
             [lit "near"; lit "far"]
             [ {[ lit "file_type" := SStr (lit ".pdf") ]};
               {[ lit "file_type" := SStr (lit ".txt") ]} ]
             [1 # 8; 2 # 1]%Q [] [] [] ltac:(reflexivity) ltac:(reflexivity)).
  - vm_compute. reflexivity.
  - repeat constructor; vm_compute; discriminate.
Defined.

(** C1 as stated fails: the distances 0 and 2 ** -60 differ and have the
    same similarity, 1.0, which is not the quotient 1 / (1 + 2 ** -60); a
    search at threshold 1.0 returns the entry at distance 2 ** -60,
    although that quotient is below 1.  And next to an entry at distance
    -1.0 an entry of similarity 0.888... is not returned at threshold
    0.5: the division by zero empties the result. *)
Lemma search_similar_scores_counterexample :
  (0 < 1 # 2 ^ 60)%Q
  ∧ similarity_of 0 = Returns 1%Q
  ∧ similarity_of (1 # 2 ^ 60) = Returns 1%Q
  ∧ (1 / (1 + (1 # 2 ^ 60)) < 1)%Q
  ∧ result (search_similar [] 5 1 Scenario.close_entries)
    = Returns
        [ {| document := lit "same"; metadata := ∅;
             similarity_score := 1; distance := 0 |};
          {| document := lit "close"; metadata := ∅;
             similarity_score := 1; distance := 1 # 2 ^ 60 |} ]
  ∧ similarity_of (1 # 8) = Returns (2001599834386887 # 2251799813685248)%Q
  ∧ (1 # 2 <= 2001599834386887 # 2251799813685248)%Q
  ∧ search_similar [] 5 (1 # 2) Scenario.degenerate_entries
    = Run (Returns []) Scenario.degenerate_entries
          [Called (CollectionQuery [] 5);
           Logged (Log LError "Error searching vector store"
                     (Some ZeroDivisionError))].
Proof.
  repeat split; vm_compute; try reflexivity; discriminate.
Qed.

Lemma uninitialized_store_reports_failure_witness :
  add_documents [lit "text"] [[1%Q]] [PDict []] None Scenario.unopened
    = Run (Returns false) Scenario.unopened
          [Logged (Log LError "Error adding documents"
                     (Some (RuntimeError "Vector store not initialized")))]
  ∧ search_similar [1%Q] 5 (7 # 10) Scenario.unopened
    = Run (Returns []) Scenario.unopened
          [Logged (Log LError "Error searching vector store"
                     (Some (RuntimeError "Vector store not initialized")))]
  ∧ delete_document [] Scenario.unopened
    = Run (Returns false) Scenario.unopened
          [Logged (Log LError "Error deleting documents"
                     (Some (RuntimeError "Vector store not initialized")))]
  ∧ clear_collection Scenario.unopened
    = Run (Returns false) Scenario.unopened
          [Logged (Log LError "Error clearing collection"
                     (Some (RuntimeError "Vector store not initialized")))].
Proof.
  exact (uninitialized_store_reports_failure Scenario.unopened
           [lit "text"] [[1%Q]] [PDict []] None [] [1%Q] 5 (7 # 10) eq_refl).
Defined.

(** C7 as stated fails: on an unopened store no operation ends in an
    error; [search_similar] returns an empty list, as it does when nothing
    matches, and the others return false. *)
Lemma uninitialized_store_counterexample :
  VectorStore.collection Scenario.unopened = None
  ∧ result (search_similar [1%Q] 5 (7 # 10) Scenario.unopened) = Returns []
  ∧ result (add_documents [lit "text"] [[1%Q]] [PDict []] None Scenario.unopened)
    = Returns false
  ∧ result (delete_document [lit "doc_0"] Scenario.unopened) = Returns false
  ∧ result (clear_collection Scenario.unopened) = Returns false
  ∧ ∀ e, result (search_similar [1%Q] 5 (7 # 10) Scenario.unopened) ≠ Raises e.
Proof.
  repeat split; try reflexivity. intros e. discriminate.
Qed.

End StoreFacts.

(** ** The retriever *)

Module RetrieverFacts.
Import PyFacts Eff EffFacts RAGRetriever.

(** *** Post-processing of search results *)

(** The results already collected, then the documents that pass, ranked
    from the next free rank on. *)
Lemma process_ranks (query : str) (filter_metadata : option (gmap str scalar))
    (docs : list VectorStore.hit) : ∀ processed,
  process query filter_metadata docs processed
  = processed
    ++ imap (λ i doc, result_of query doc (length processed + i + 1))
            (filter (kept filter_metadata) docs).
Proof.
  induction docs as [|doc rest IH]; intros processed; simpl.
  - rewrite app_nil_r. reflexivity.
  - destruct (passes filter_metadata (VectorStore.metadata doc)) eqn:E.
    + rewrite filter_cons_True by exact E. rewrite IH, imap_cons.
      rewrite <- app_assoc. simpl. f_equal. f_equal.
      * f_equal. lia.
      * apply imap_ext. intros i d _. simpl. f_equal.
        rewrite length_app. simpl. lia.
    + rewrite filter_cons_False by (unfold kept; congruence). apply IH.
Qed.





(** *** Declining to work *)

Lemma lstrip_whitespace q : Forall (λ c, isspace c = true) q -> lstrip q = [].
Proof. induction 1 as [|c q Hc _ IH]; simpl; [|rewrite Hc]; auto. Qed.

Lemma whitespace_blank q : Forall (λ c, isspace c = true) q -> blank (Some q) = true.
Proof.
  intros Hq. unfold blank, strip. rewrite (lstrip_whitespace q Hq).
  apply orb_true_r.
Qed.

Section Retriever.
Context {C : Type} `{VectorStore.Chroma C} `{PyText}.

(** C6: a retriever whose setup failed answers [retrieve] with an empty
    list and [index_chunks] with false, and a ready one answers an empty
    or whitespace-only query with an empty list; in each case nothing is
    raised, the only effect is one log record, and neither the encoder nor
    the store is called. *)
Theorem retrieve_and_index_decline (self : t C) query top_k threshold
    filter_metadata chunks :
  (is_ready self = false ->
     retrieve query top_k threshold filter_metadata self
       = Run (Returns []) self [Logged (Log LError "RAG retriever not ready" None)]
     ∧ index_chunks chunks self
       = Run (Returns false) self
             [Logged (Log LError "RAG retriever not ready - setup failed" None)])
  ∧ (is_ready self = true -> blank query = true ->
       retrieve query top_k threshold filter_metadata self
       = Run (Returns []) self [Logged (Log LWarning "Empty query provided" None)])
  ∧ blank None = true
  ∧ blank (Some []) = true
  ∧ (∀ q, Forall (λ c, isspace c = true) q -> blank (Some q) = true).
Proof.
  split; [|split; [|split; [|split]]].
  - intros Hready. unfold retrieve, index_chunks. run. rewrite Hready. auto.
  - intros Hready Hblank. unfold retrieve. run. rewrite Hready.
    destruct query as [q|]; [|reflexivity].
    simpl in Hblank. cbv [negb]. cbv [negb] in Hblank.
    destruct (truthy q); [|reflexivity].
    destruct (truthy (strip q)); [discriminate|reflexivity].
  - reflexivity.
  - reflexivity.
  - apply whitespace_blank.
Qed.

(** Every query [retrieve] sends to the collection asks for
    [top_k or default_top_k] results. *)
Lemma retrieve_asks_for (self : t C) query top_k threshold filter_metadata emb n :
  Called (CollectionQuery emb n)
    ∈ trace (retrieve query top_k threshold filter_metadata self) ->
  n = or_int top_k (default_top_k self).
Proof.
  set (P := λ ev, ∀ emb n, ev = Called (CollectionQuery emb n) ->
                           n = or_int top_k (default_top_k self)).
  intros Hin. unfold retrieve in Hin. rewrite trace_bind_get in Hin.
  revert Hin.
  match goal with
  | |- _ ∈ trace (?body self) -> _ =>
      assert (Hrec : records P body); [|intros Hin; exact (Hrec self _ Hin emb n eq_refl)]
  end.
  unfold on_model, on_store, EmbeddingModel.encode_query,
    EmbeddingModel.encode_text, VectorStore.search_similar,
    VectorStore.require_collection.
  repeat records_step;
    subst P; cbv beta; intros emb' n' Heq; try discriminate Heq.
  injection Heq as _ <-. reflexivity.
Qed.

End Retriever.

#[local] Existing Instance Scenario.canned.
#[local] Existing Instance Scenario.simple_text.

Lemma retrieve_and_index_decline_witness :
  retrieve (Some (lit "what is a chunk")) None None None Scenario.failed_retriever
    = Run (Returns []) Scenario.failed_retriever
          [Logged (Log LError "RAG retriever not ready" None)]
  ∧ index_chunks [] Scenario.failed_retriever
    = Run (Returns false) Scenario.failed_retriever
          [Logged (Log LError "RAG retriever not ready - setup failed" None)].
Proof.
  exact (proj1 (retrieve_and_index_decline Scenario.failed_retriever
                  (Some (lit "what is a chunk")) None None None [])
               eq_refl).
Defined.

End RetrieverFacts.

(** * Further properties of the code *)

(** ** More facts about the string primitives *)

Module TextFacts.
Import PyFacts.

Definition blank_run (w : str) : Prop := Forall (λ c, isspace c = true) w.

(** [lstrip] removes a run of whitespace and nothing else. *)
Lemma lstrip_split s : ∃ w, blank_run w ∧ s = w ++ lstrip s.
Proof.
  induction s as [|c s (w & Hw & IH)]; [exists []; split; [constructor|reflexivity]|].
  simpl. destruct (isspace c) eqn:Hc.
  - exists (c :: w). split; [constructor; assumption|]. simpl. congruence.
  - exists []. split; [constructor|reflexivity].
Qed.

Lemma lstrip_head s : lstrip s = [] ∨ ∃ c r, lstrip s = c :: r ∧ isspace c = false.
Proof.
  induction s as [|c s IH]; [left; reflexivity|]. simpl.
  destruct (isspace c) eqn:Hc; [exact IH|]. right. eauto.
Qed.

Lemma lstrip_fixed c r : isspace c = false -> lstrip (c :: r) = c :: r.
Proof. intros H. simpl. rewrite H. reflexivity. Qed.

Lemma lstrip_idem s : lstrip (lstrip s) = lstrip s.
Proof.
  destruct (lstrip_head s) as [->|(c & r & -> & Hc)]; [reflexivity|].
  apply lstrip_fixed. exact Hc.
Qed.

Lemma rstrip_split s : ∃ w, blank_run w ∧ s = rstrip s ++ w.
Proof.
  unfold rstrip. destruct (lstrip_split (reverse s)) as (w & Hw & H).
  exists (reverse w). split.
  - unfold blank_run in *. rewrite Forall_forall in *. intros c Hc.
    apply Hw. apply elem_of_reverse. exact Hc.
  - rewrite <- reverse_app, <- H, reverse_involutive. reflexivity.
Qed.

Lemma rstrip_idem s : rstrip (rstrip s) = rstrip s.
Proof. unfold rstrip. rewrite reverse_involutive, lstrip_idem. reflexivity. Qed.

(** What [strip] returns begins with a visible character, if it is not
    empty. *)
Lemma strip_head s : strip s = [] ∨ ∃ c r, strip s = c :: r ∧ isspace c = false.
Proof.
  unfold strip. destruct (lstrip_head s) as [->|(c & r & -> & Hc)]; [left; reflexivity|].
  destruct (rstrip_split (c :: r)) as (w & Hw & H).
  destruct (rstrip (c :: r)) as [|c' r'] eqn:E; [left; reflexivity|].
  right. exists c', r'. split; [reflexivity|].
  simpl in H. injection H as <- _. exact Hc.
Qed.

Lemma strip_idem s : strip (strip s) = strip s.
Proof.
  destruct (strip_head s) as [->|(c & r & H & Hc)]; [reflexivity|].
  unfold strip at 1. rewrite H, (lstrip_fixed _ _ Hc), <- H.
  unfold strip. apply rstrip_idem.
Qed.

(** A text with something left after [strip] has a word. *)
Lemma split_nonempty s : truthy (strip s) = true -> split s ≠ [].
Proof.
  intros Hs Hsplit.
  pose proof (EmbeddingFacts.concat_split s) as H. rewrite Hsplit in H. simpl in H.
  rewrite <- EmbeddingFacts.filter_strip in H.
  destruct (strip_head s) as [E|(c & r & E & Hc)]; rewrite E in *; [discriminate|].
  rewrite filter_cons_True in H by exact Hc. discriminate.
Qed.

Lemma lit_inj a b : lit a = lit b -> a = b.
Proof.
  unfold lit. intros H.
  rewrite <- (string_of_list_ascii_of_string a), <- (string_of_list_ascii_of_string b).
  congruence.
Qed.

Lemma last_cons_nonempty {A} (x d : A) l : l ≠ [] -> List.last (x :: l) d = List.last l d.
Proof. destruct l; [congruence | reflexivity]. Qed.

(** The last piece of a split is the end of the text. *)
Lemma split_on_from_last sep s : ∀ cur skip,
  last_piece (split_on_from sep s cur skip) `suffix_of` s
  ∨ last_piece (split_on_from sep s cur skip) = reverse cur ++ drop skip s.
Proof.
  unfold last_piece.
  induction s as [|c s IH]; intros cur skip; cbn [split_on_from].
  - right. rewrite drop_nil, app_nil_r. reflexivity.
  - destruct skip as [|k].
    + match goal with |- context [if ?b then _ else _] => destruct b end.
      * left.
        rewrite last_cons_nonempty by apply split_on_from_nonempty.
        destruct (IH [] (length sep - 1)%nat) as [H|H].
        -- apply suffix_cons_r. exact H.
        -- rewrite H. simpl. apply suffix_cons_r, suffix_drop.
      * destruct (IH (c :: cur) O) as [H|H].
        -- left. apply suffix_cons_r. exact H.
        -- right. rewrite H, reverse_cons, <- app_assoc. reflexivity.
    + destruct (IH cur k) as [H|H].
      * left. apply suffix_cons_r. exact H.
      * right. exact H.
Qed.

Lemma last_piece_split_on_suffix sep s : last_piece (split_on sep s) `suffix_of` s.
Proof.
  unfold split_on. destruct (split_on_from_last sep s [] O) as [H|H]; [exact H|].
  rewrite H. reflexivity.
Qed.

(** A contiguous piece of a text. *)
Definition part_of (p text : str) : Prop := ∃ a b, text = a ++ p ++ b.

Lemma strip_part s : part_of (strip s) s.
Proof.
  unfold strip. destruct (lstrip_split s) as (w1 & _ & H1).
  destruct (rstrip_split (lstrip s)) as (w2 & _ & H2).
  exists w1, w2. rewrite <- H2. exact H1.
Qed.

Lemma part_of_elem p text c : part_of p text -> c ∈ p -> c ∈ text.
Proof.
  intros (a & b & ->) H. apply elem_of_app. right. apply elem_of_app. left. exact H.
Qed.

Lemma part_of_trans p q text : part_of p q -> part_of q text -> part_of p text.
Proof.
  intros (a & b & ->) (a' & b' & ->). exists (a' ++ a), (b ++ b').
  rewrite <- !app_assoc. reflexivity.
Qed.

End TextFacts.

(** ** More facts about computations *)

Module EffMore.
Import Eff EffFacts.

(** A computation that leaves the state as it found it. *)
Definition preserves {S A} (m : M S A) : Prop := ∀ s, final (m s) = s.

Section Preserves.
Context {S : Type}.

Lemma preserves_ret {A} (a : A) : preserves (ret a : M S A).
Proof. intros s. reflexivity. Qed.

Lemma preserves_raise {A} e : preserves (raise e : M S A).
Proof. intros s. reflexivity. Qed.

Lemma preserves_lift {A} (o : outcome A) : preserves (lift o : M S A).
Proof. intros s. reflexivity. Qed.

Lemma preserves_get : preserves (get : M S S).
Proof. intros s. reflexivity. Qed.

Lemma preserves_log l text about : preserves (log l text about : M S unit).
Proof. intros s. reflexivity. Qed.

Lemma preserves_tell_all evs : preserves (tell_all evs : M S unit).
Proof. intros s. reflexivity. Qed.

Lemma preserves_calling {A} c (answer : outcome A) : preserves (calling c answer : M S A).
Proof. intros s. reflexivity. Qed.

Lemma preserves_bind {A B} (m : M S A) (k : A -> M S B) :
  preserves m -> (∀ a, preserves (k a)) -> preserves (bind m k).
Proof.
  intros Hm Hk s. unfold bind.
  destruct (result (m s)) as [a| |]; cbn [final]; rewrite ?Hk; apply Hm.
Qed.

Lemma preserves_try_except {A} (body : M S A) handler :
  preserves body -> (∀ e, preserves (handler e)) ->
  preserves (try_except body handler).
Proof.
  intros Hb Hh s. unfold try_except.
  destruct (result (body s)) as [a|e|]; cbn [final]; rewrite ?Hh; apply Hb.
Qed.

End Preserves.


Ltac preserves_step :=
  match goal with
  | |- preserves (ret _) => apply preserves_ret
  | |- preserves (raise _) => apply preserves_raise
  | |- preserves (lift _) => apply preserves_lift
  | |- preserves get => apply preserves_get
  | |- preserves (log _ _ _) => apply preserves_log
  | |- preserves (tell_all _) => apply preserves_tell_all
  | |- preserves (calling _ _) => apply preserves_calling
  | |- preserves (bind _ _) => apply preserves_bind
  | |- preserves (try_except _ _) => apply preserves_try_except
  | |- preserves (match ?x with _ => _ end) => destruct x
  | |- ∀ _, _ => intro
  end.

Lemma records_put {S} P (s : S) : records P (put s).
Proof. intros s0 ev Hin. inversion Hin. Qed.

Lemma records_tell_all {S} P evs :
  Forall P evs -> records P (tell_all evs : M S unit).
Proof. intros Hall s ev Hin. rewrite Forall_forall in Hall. apply Hall, Hin. Qed.

Lemma records_bind_ret {S A B} P (a : A) (k : A -> M S B) :
  records P (k a) -> records P (bind (ret a) k).
Proof. intros Hk s ev. unfold bind, ret. cbn. apply Hk. Qed.

(** What a sequence returned, its first part returned first. *)
Lemma bind_returns {S A B} (m : M S A) (k : A -> M S B) s b :
  result (bind m k s) = Returns b ->
  ∃ a, result (m s) = Returns a ∧ result (k a (final (m s))) = Returns b.
Proof.
  unfold bind. destruct (result (m s)) as [a| |]; cbn [result]; try discriminate.
  eauto.
Qed.

Lemma within_returns {S T A} (part : S -> option T) update (m : M T A) s a :
  result (within part update m s) = Returns a ->
  ∃ t, part s = Some t ∧ result (m t) = Returns a.
Proof.
  unfold within. destruct (part s) as [t|]; cbn [result]; [eauto | discriminate].
Qed.

(** A guarded block returns what its body returned or what its handler
    made of the failure. *)
Lemma try_except_returns {S A} (body : M S A) handler s a :
  result (try_except body handler s) = Returns a ->
  result (body s) = Returns a
  ∨ ∃ e, result (body s) = Raises e
         ∧ result (handler e (final (body s))) = Returns a.
Proof.
  unfold try_except. destruct (result (body s)) as [a'|e|] eqn:E; cbn [result].
  - rewrite E. auto.
  - eauto.
  - rewrite E. discriminate.
Qed.


End EffMore.

(** ** The chunker: termination, failures and the shape of its output *)

Module ChunkerBehaviour.
Import PyFacts TextFacts ChunkProcessor ChunkerFacts ChunkerContract.

(** A result of [process_document] is either empty or the numbered
    survivors of a segmentation. *)
Lemma process_document_shape self e fuel document chunks :
  (process_document self e fuel document).1 = Returns chunks ->
  chunks = []
  ∨ ∃ content segments,
      Document.content document = Some content
      ∧ segmentation self e fuel content = Returns segments
      ∧ chunks = numbered e (default (lit "unknown") (Document.source document))
                   (default (PDict []) (Document.metadata document)) 0
                   (take (cap self) (survivors 0 segments)).
Proof.
  intros Hret.
  destruct (Document.content document) as [content|] eqn:Hc.
  2:{ unfold process_document in Hret. rewrite Hc in Hret.
      injection Hret as <-. left. reflexivity. }
  destruct (truthy (strip content)) eqn:Hs.
  2:{ rewrite (process_document_blank _ _ _ _ _ Hc Hs) in Hret.
      injection Hret as <-. left. reflexivity. }
  destruct (segmentation self e fuel content) as [segments| |] eqn:Hseg.
  - rewrite (process_document_segments _ _ _ _ _ _ Hc Hs Hseg) in Hret.
    injection Hret as <-. right. exists content, segments. auto.
  - unfold process_document in Hret.
    rewrite Hc, Hs, (strip_truthy _ Hs), Hseg in Hret.
    injection Hret as <-. left. reflexivity.
  - unfold process_document in Hret.
    rewrite Hc, Hs, (strip_truthy _ Hs), Hseg in Hret. discriminate.
Qed.

(** The tokenizer answers: it returns or raises. *)
Definition answers (e : env) : Prop :=
  ∀ sent_tokenize text, nltk e = Some sent_tokenize -> sent_tokenize text ≠ OutOfFuel.

(** X1: when the window of the character pass advances (a positive
    [chunk_size] and [chunk_overlap] at most four fifths of it, as in the
    default 1000 and 200) and the tokenizer answers, [process_document]
    comes to a result on every document, the same for every loop budget
    from some point on. *)
Theorem process_document_terminates self e document :
  0 < chunk_size self ->
  5 * chunk_overlap self <= 4 * chunk_size self ->
  answers e ->
  ∃ fuel0 chunks, ∀ fuel, (fuel0 <= fuel)%nat ->
    (process_document self e fuel document).1 = Returns chunks.
Proof.
  intros Hsize Hover Hans.
  destruct (Document.content document) as [content|] eqn:Hc.
  2:{ exists 0%nat, []. intros fuel _. unfold process_document. rewrite Hc.
      reflexivity. }
  destruct (truthy (strip content)) eqn:Hs.
  2:{ exists 0%nat, []. intros fuel _.
      apply (process_document_blank _ _ _ _ _ Hc Hs). }
  assert (Hcase :
    (∃ fuel0 segments, ∀ fuel, (fuel0 <= fuel)%nat ->
       segmentation self e fuel content = Returns segments)
    ∨ (∃ ex, ∀ fuel, segmentation self e fuel content = Raises ex)).
  { destruct (preserve_sentences self) eqn:Hp.
    - destruct (sentences_of e (_clean_text content)) as [sentences|ex|] eqn:Hsent.
      + left. apply segmentation_returns; try assumption. eauto.
      + right. exists ex. intros fuel. unfold segmentation, _chunk_by_sentences.
        rewrite Hp, Hsent. reflexivity.
      + exfalso. unfold sentences_of in Hsent.
        destruct (nltk e) as [tok|] eqn:Hn; [|discriminate].
        specialize (Hans tok (_clean_text content) Hn).
        destruct (tok (_clean_text content)) as [l|[]|]; congruence.
    - left. apply segmentation_returns; try assumption. congruence. }
  destruct Hcase as [(fuel0 & segments & Hseg)|(ex & Hseg)].
  - exists fuel0. eexists. intros fuel Hle.
    rewrite (process_document_segments _ _ _ _ _ _ Hc Hs (Hseg fuel Hle)).
    reflexivity.
  - exists 0%nat, []. intros fuel _. unfold process_document.
    rewrite Hc, Hs, (strip_truthy _ Hs), Hseg. reflexivity.
Qed.

Lemma process_document_terminates_witness :
  ∃ fuel0 chunks, ∀ fuel, (fuel0 <= fuel)%nat ->
    (process_document Scenario.narrow Scenario.plain fuel
       (Scenario.document_of Scenario.three_sentences)).1 = Returns chunks.
Proof.
  apply (process_document_terminates Scenario.narrow Scenario.plain
           (Scenario.document_of Scenario.three_sentences)).
  - reflexivity.
  - vm_compute; discriminate.
  - intros sent_tokenize text Hn. discriminate Hn.
Defined.

Lemma rfind_from_absent s c : ∀ i found, c ∉ s -> rfind_from s c i found = found.
Proof.
  induction s as [|x s IH]; intros i found Hc; [reflexivity|]. simpl.
  apply not_elem_of_cons in Hc as [Hne Hc].
  destruct (Ascii.eqb_spec x c); [congruence|]. apply IH. exact Hc.
Qed.

(** X2: with [chunk_overlap] equal to [chunk_size] the window of
    [_chunk_by_characters] does not advance: on a text longer than
    [chunk_size] that holds no space the loop never ends, whatever budget
    it is given. *)
Theorem equal_overlap_never_advances self text fuel :
  0 < chunk_size self ->
  chunk_overlap self = chunk_size self ->
  chunk_size self < len text ->
  " "%char ∉ text ->
  _chunk_by_characters self fuel text = OutOfFuel.
Proof.
  intros Hsize Hover Hlong Hspace. unfold _chunk_by_characters.
  generalize (@nil str) as acc.
  induction fuel as [|fuel IH]; intros acc; [reflexivity|]. simpl.
  destruct (Z.ltb_spec 0 (len text)); [|lia]. simpl.
  destruct (Z.ltb_spec (0 + chunk_size self) (len text)); [|lia].
  destruct (index_in_range text (0 + chunk_size self)) as [c ->]; [lia|]. simpl.
  unfold rfind. rewrite rfind_from_absent.
  2:{ intros Hin. apply Hspace. unfold slice in Hin.
      apply subseteq_take, subseteq_drop in Hin. exact Hin. }
  replace (4 * chunk_size self <? 5 * -1) with false
    by (symmetry; apply Z.ltb_ge; lia).
  rewrite andb_false_r.
  destruct (Z.leb_spec (len text) (0 + chunk_size self)); [lia|].
  replace (0 + chunk_size self - chunk_overlap self) with 0 by lia.
  apply IH.
Qed.


Lemma equal_overlap_never_advances_witness :
  _chunk_by_characters Cases.stuck 1000 (lit "abcdefghij") = OutOfFuel.
Proof.
  apply (equal_overlap_never_advances Cases.stuck (lit "abcdefghij") 1000).
  - reflexivity.
  - reflexivity.
  - reflexivity.
  - intros Hin. vm_compute in Hin. repeat (apply elem_of_cons in Hin as [Hin|Hin]; [discriminate|]).
    inversion Hin.
Defined.

(** X3: a failure of the sentence tokenizer other than a missing nltk does
    not leave [process_document]: the document yields no chunk and the
    failure is logged as an error. *)
Theorem tokenizer_failure_is_absorbed self e fuel document content sent_tokenize ex :
  Document.content document = Some content ->
  truthy (strip content) = true ->
  preserve_sentences self = true ->
  nltk e = Some sent_tokenize ->
  sent_tokenize (_clean_text content) = Raises ex ->
  ex ≠ ImportError ->
  process_document self e fuel document
  = (Returns [], [Log LError "Error processing document" (Some ex)]).
Proof.
  intros Hc Hs Hp Hn Htok Hex. unfold process_document.
  rewrite Hc, Hs, (strip_truthy _ Hs). simpl.
  unfold segmentation, _chunk_by_sentences, sentences_of.
  rewrite Hp, Hn, Htok. destruct ex; try reflexivity. congruence.
Qed.

Lemma tokenizer_failure_is_absorbed_witness :
  process_document Scenario.narrow Cases.broken_tokenizer 1
    (Scenario.document_of Scenario.three_sentences)
  = (Returns [], [Log LError "Error processing document"
                    (Some (External "punkt not found"))]).
Proof.
  apply (tokenizer_failure_is_absorbed Scenario.narrow Cases.broken_tokenizer 1
           (Scenario.document_of Scenario.three_sentences)
           Scenario.three_sentences
           (λ _, Raises (External "punkt not found"))
           (External "punkt not found")).
  - reflexivity.
  - vm_compute; reflexivity.
  - reflexivity.
  - reflexivity.
  - reflexivity.
  - discriminate.
Defined.


Section Identifiers.

Variables (e : env) (source_path : str) (source_metadata : pyval).

Lemma numbered_ids n l :
  map (λ c, Chunk.chunk_id (Chunk.meta c)) (numbered e source_path source_metadata n l)
  = map (λ k : nat, source_path ++ lit "_chunk_" ++ lit (pretty k)) (map fst l).
Proof.
  revert n. induction l as [|it l IH]; intros n; [reflexivity|].
  rewrite numbered_cons. simpl. f_equal. apply IH.
Qed.

Lemma chunk_id_inj (i j : nat) :
  source_path ++ lit "_chunk_" ++ lit (pretty i)
  = source_path ++ lit "_chunk_" ++ lit (pretty j) -> i = j.
Proof.
  intros H. apply app_inv_head, app_inv_head, lit_inj in H.
  apply (inj pretty) in H. exact H.
Qed.

End Identifiers.

Lemma survivors_positions_distinct chunks i n :
  NoDup (map fst (take n (survivors i chunks))).
Proof.
  apply NoDup_alt. intros j1 j2 k H1 H2.
  rewrite list_lookup_fmap in H1, H2.
  destruct (take n (survivors i chunks) !! j1) as [[k1 c1]|] eqn:E1; [|discriminate].
  destruct (take n (survivors i chunks) !! j2) as [[k2 c2]|] eqn:E2; [|discriminate].
  simpl in H1, H2. injection H1 as ->. injection H2 as ->.
  apply lookup_take_Some in E1 as [E1 _]. apply lookup_take_Some in E2 as [E2 _].
  destruct (Nat.lt_trichotomy j1 j2) as [Hlt|[Heq|Hgt]]; [|exact Heq|].
  - pose proof (survivors_increasing _ _ _ _ _ _ _ _ Hlt E1 E2). lia.
  - pose proof (survivors_increasing _ _ _ _ _ _ _ _ Hgt E2 E1). lia.
Qed.

(** X5: the chunks of one document carry pairwise distinct [chunk_id]s. *)
Theorem chunk_ids_distinct self e fuel document chunks :
  (process_document self e fuel document).1 = Returns chunks ->
  NoDup (map (λ c, Chunk.chunk_id (Chunk.meta c)) chunks).
Proof.
  intros Hret.
  apply process_document_shape in Hret as [->|(content & segments & _ & _ & ->)];
    [constructor|].
  rewrite numbered_ids.
  apply NoDup_fmap_2; [|apply survivors_positions_distinct].
  intros i j. apply chunk_id_inj.
Qed.


Lemma chunk_ids_distinct_witness :
  NoDup (map (λ c, Chunk.chunk_id (Chunk.meta c)) Cases.overlapped).
Proof.
  apply (chunk_ids_distinct Scenario.narrow Scenario.plain 1
           (Scenario.document_of Scenario.three_sentences) Cases.overlapped).
  vm_compute; reflexivity.
Defined.

(** Every chunk returned was made from a segment that passes the
    50-character test. *)
Lemma process_document_made self e fuel document chunks c :
  (process_document self e fuel document).1 = Returns chunks ->
  c ∈ chunks ->
  ∃ n k text,
    c = make_chunk e (default (lit "unknown") (Document.source document))
          (default (PDict []) (Document.metadata document)) n k text
    ∧ too_small text = false.
Proof.
  intros Hret Hin.
  apply process_document_shape in Hret as [->|(content & segments & _ & _ & ->)];
    [inversion Hin|].
  apply list_elem_of_lookup in Hin as [j Hj].
  unfold numbered in Hj. rewrite list_lookup_imap in Hj.
  destruct (take (cap self) (survivors 0 segments) !! j) as [[k text]|] eqn:Hk;
    [|discriminate].
  simpl in Hj. injection Hj as <-.
  apply lookup_take_Some in Hk as [Hk _].
  apply survivors_lookup in Hk as (_ & _ & Hbig & _).
  eauto.
Qed.

Lemma not_too_small_has_text text : too_small text = false -> truthy (strip text) = true.
Proof.
  unfold too_small. intros Hbig. apply Z.ltb_ge in Hbig.
  destruct (strip text); [|reflexivity]. change (len []) with 0 in Hbig. lia.
Qed.

(** X6: every chunk [process_document] returns holds at least 50
    characters and no whitespace at either end, at least one word is
    counted for it, its recorded [chunk_size] is the length before
    stripping, and its [chunk_id] is the source, which is [unknown] for a
    document without one, followed by [_chunk_] and its [chunk_index]. *)
Theorem chunk_record_invariants self e fuel document chunks c :
  (process_document self e fuel document).1 = Returns chunks ->
  c ∈ chunks ->
  50 <= len (Chunk.content c)
  ∧ strip (Chunk.content c) = Chunk.content c
  ∧ (length (Chunk.content c) <= Chunk.chunk_size (Chunk.meta c))%nat
  ∧ (1 <= Chunk.word_count (Chunk.meta c))%nat
  ∧ Chunk.source_document (Chunk.meta c)
    = default (lit "unknown") (Document.source document)
  ∧ Chunk.chunk_id (Chunk.meta c)
    = Chunk.source_document (Chunk.meta c) ++ lit "_chunk_"
      ++ lit (pretty (Chunk.chunk_index (Chunk.meta c))).
Proof.
  intros Hret Hin.
  destruct (process_document_made _ _ _ _ _ _ Hret Hin) as (n & k & text & -> & Hbig).
  pose proof (not_too_small_has_text _ Hbig) as Htext.
  unfold too_small in Hbig. apply Z.ltb_ge in Hbig.
  simpl. split; [exact Hbig|]. split; [apply strip_idem|].
  split; [apply strip_length|]. split; [|split; reflexivity].
  pose proof (split_nonempty text Htext) as Hne.
  destruct (split text); [congruence | simpl; lia].
Qed.

Lemma chunk_record_invariants_witness :
  let c := make_chunk Scenario.plain (lit "notes.txt") (PDict []) 1 1
             (lit "eddingdata " ++ Scenario.s2 ++ lit " " ++ Scenario.s3) in
  50 <= len (Chunk.content c)
  ∧ strip (Chunk.content c) = Chunk.content c
  ∧ (length (Chunk.content c) <= Chunk.chunk_size (Chunk.meta c))%nat
  ∧ (1 <= Chunk.word_count (Chunk.meta c))%nat
  ∧ Chunk.source_document (Chunk.meta c)
    = default (lit "unknown") (Some (lit "notes.txt"))
  ∧ Chunk.chunk_id (Chunk.meta c)
    = Chunk.source_document (Chunk.meta c) ++ lit "_chunk_"
      ++ lit (pretty (Chunk.chunk_index (Chunk.meta c))).
Proof.
  apply (chunk_record_invariants Scenario.narrow Scenario.plain 1
           (Scenario.document_of Scenario.three_sentences) Cases.overlapped).
  - vm_compute; reflexivity.
  - apply list_elem_of_further, list_elem_of_here.
Defined.

(** Every chunk of a batch is a chunk of one of its documents. *)
Lemma process_multiple_documents_elem self e fuel documents : ∀ all_chunks c,
  process_multiple_documents self e fuel documents = Returns all_chunks ->
  c ∈ all_chunks ->
  ∃ document chunks, document ∈ documents
    ∧ (process_document self e fuel document).1 = Returns chunks
    ∧ c ∈ chunks.
Proof.
  induction documents as [|document rest IH]; intros all_chunks c; simpl.
  - intros [= <-] Hc. inversion Hc.
  - destruct (process_document self e fuel document).1 as [chunks| |] eqn:Hd;
      simpl; try discriminate.
    destruct (process_multiple_documents self e fuel rest) as [others| |];
      simpl; try discriminate.
    intros [= <-] Hc. apply elem_of_app in Hc as [Hc|Hc].
    + exists document, chunks. split; [apply list_elem_of_here|]. auto.
    + destruct (IH others c eq_refl Hc) as (d & cs & Hd' & Hr & Hin).
      exists d, cs. split; [apply list_elem_of_further; exact Hd'|]. auto.
Qed.

(** X7: a batch yields chunks of its documents only, at most
    [max_chunks_per_doc] (and at least room for one) per document. *)
Theorem process_multiple_documents_bound self e fuel documents all_chunks :
  process_multiple_documents self e fuel documents = Returns all_chunks ->
  (length all_chunks <= cap self * length documents)%nat
  ∧ ∀ c, c ∈ all_chunks ->
      ∃ document chunks, document ∈ documents
        ∧ (process_document self e fuel document).1 = Returns chunks
        ∧ c ∈ chunks.
Proof.
  intros Hall. split; [|intros c; apply process_multiple_documents_elem; exact Hall].
  revert all_chunks Hall.
  induction documents as [|document rest IH]; intros all_chunks; simpl.
  - intros [= <-]. simpl. lia.
  - destruct (process_document self e fuel document).1 as [chunks| |] eqn:Hd;
      simpl; try discriminate.
    destruct (process_multiple_documents self e fuel rest) as [others| |];
      simpl; try discriminate.
    intros [= <-]. specialize (IH others eq_refl).
    rewrite length_app.
    assert (length chunks <= cap self)%nat; [|lia].
    apply process_document_shape in Hd as [->|(content & segments & _ & _ & ->)];
      [simpl; lia|].
    rewrite numbered_length, length_take. lia.
Qed.

Lemma process_multiple_documents_bound_witness :
  (length (Cases.overlapped ++ [Scenario.second_chunk])
   <= cap Scenario.narrow * 2)%nat
  ∧ ∀ c, c ∈ Cases.overlapped ++ [Scenario.second_chunk] ->
      ∃ document chunks,
        document ∈ [Scenario.document_of Scenario.three_sentences;
                    Scenario.document_of Scenario.short_then_long]
        ∧ (process_document Scenario.narrow Scenario.plain 1 document).1
          = Returns chunks
        ∧ c ∈ chunks.
Proof.
  apply (process_multiple_documents_bound Scenario.narrow Scenario.plain 1
           [Scenario.document_of Scenario.three_sentences;
            Scenario.document_of Scenario.short_then_long]).
  vm_compute; reflexivity.
Defined.

(** *** The overlap pass *)

Lemma overlap_of_suffix self previous : overlap_of self previous `suffix_of` previous.
Proof.
  unfold overlap_of.
  set (tail := if chunk_overlap self <? len previous then _ else _).
  assert (Ht : tail `suffix_of` previous).
  { subst tail. destruct (chunk_overlap self <? len previous); [|reflexivity].
    apply suffix_drop. }
  destruct (1 <? len _); [|exact Ht].
  etransitivity; [apply last_piece_split_on_suffix | exact Ht].
Qed.

Lemma overlap_loop_lookup self chunks : ∀ previous i before current,
  (previous :: chunks) !! i = Some before ->
  chunks !! i = Some current ->
  overlap_loop self previous chunks !! i
  = Some (overlap_of self before ++ lit " " ++ current).
Proof.
  induction chunks as [|c rest IH]; intros previous i before current; [discriminate|].
  destruct i as [|i]; simpl.
  - intros [= <-] [= <-]. reflexivity.
  - apply IH.
Qed.

(** X8: [_add_overlap] keeps the number of chunks and the first chunk;
    every later chunk becomes an end piece of the chunk before it (as it
    was before the pass), one space, and the chunk itself. *)
Theorem add_overlap_shape self chunks :
  length (_add_overlap self chunks) = length chunks
  ∧ head (_add_overlap self chunks) = head chunks
  ∧ ∀ i previous current,
      chunks !! i = Some previous -> chunks !! S i = Some current ->
      ∃ overlap, overlap `suffix_of` previous
        ∧ _add_overlap self chunks !! S i = Some (overlap ++ lit " " ++ current).
Proof.
  unfold _add_overlap.
  destruct chunks as [|first rest].
  { destruct (len [] <=? 1); repeat split; intros; discriminate. }
  destruct rest as [|second rest].
  { change (len [first] <=? 1) with true. cbv iota. repeat split.
    intros i previous current _ H. discriminate. }
  replace (len (first :: second :: rest) <=? 1) with false
    by (symmetry; apply Z.leb_gt; unfold len; simpl; lia).
  split.
  { simpl. f_equal. f_equal.
    generalize second. induction rest as [|c rest IH]; intros p; simpl; [reflexivity|].
    f_equal. apply IH. }
  split; [reflexivity|].
  intros i previous current Hp Hc.
  exists (overlap_of self previous). split; [apply overlap_of_suffix|].
  change ((first :: overlap_loop self first (second :: rest)) !! S i)
    with (overlap_loop self first (second :: rest) !! i).
  apply overlap_loop_lookup; assumption.
Qed.


(** *** The character window pass without overlap *)

Lemma rfind_from_range s c : ∀ i found,
  rfind_from s c i found = found
  ∨ i <= rfind_from s c i found < i + len s.
Proof.
  induction s as [|x s IH]; intros i found; [left; reflexivity|].
  cbn [rfind_from]. unfold len in *. cbn [length].
  destruct (IH (i + 1) (if Ascii.eqb x c then i else found)) as [H|H].
  - rewrite H. destruct (Ascii.eqb x c); [right; lia | left; reflexivity].
  - right. lia.
Qed.

Lemma rfind_range s c : -1 <= rfind s c < len s.
Proof.
  unfold rfind. pose proof (len_nonneg s) as Hlen.
  destruct (rfind_from_range s c 0 (-1)) as [->|Hr]; lia.
Qed.

Lemma slice_inside {A} (s : list A) a b :
  0 <= a -> a <= b -> b <= len s ->
  slice s a b = take (Z.to_nat (b - a)) (drop (Z.to_nat a) s).
Proof.
  intros Ha Hab Hb. unfold slice, clamp.
  destruct (Z.ltb_spec a 0); [lia|]. destruct (Z.ltb_spec b 0); [lia|].
  rewrite !Z.min_l by lia. reflexivity.
Qed.

Lemma slice_to_end {A} (s : list A) a b :
  0 <= a -> a <= len s -> len s <= b -> slice s a b = drop (Z.to_nat a) s.
Proof.
  intros Ha Hal Hb. pose proof (len_nonneg s) as Hlen. unfold slice, clamp.
  destruct (Z.ltb_spec a 0); [lia|]. destruct (Z.ltb_spec b 0); [lia|].
  rewrite (Z.min_l a), (Z.min_r b) by lia.
  apply take_ge. rewrite length_drop. unfold len. lia.
Qed.

Section Partition.

Variable self : t.
Hypothesis size_pos : 0 < chunk_size self.
Hypothesis no_overlap : chunk_overlap self = 0.

Definition piece (c : str) : Prop := 0 < len c <= chunk_size self.

Lemma chunk_loop_partition fuel text : ∀ start acc r,
  0 <= start ->
  concat acc = take (Z.to_nat start) text ->
  Forall piece acc ->
  chunk_loop self fuel text start acc = Returns r ->
  concat r = text ∧ Forall piece r.
Proof.
  induction fuel as [|fuel IH]; intros start acc r Hstart Hacc Hp; simpl;
    [discriminate|].
  destruct (Z.ltb_spec start (len text)) as [Hin|Hout]; simpl.
  2:{ intros [= <-]. split; [|exact Hp]. rewrite Hacc. apply take_ge.
      unfold len in Hout. lia. }
  set (w := slice text start (start + chunk_size self)).
  match goal with |- obind ?c _ = _ -> _ =>
    destruct c as [at_word| |] eqn:Hat; simpl; try discriminate end.
  set (cut := at_word && _).
  pose proof (rfind_range w " ") as Hrf.
  set (last_space := rfind w " ") in *. clearbody last_space.
  destruct cut eqn:Hcut.
  - subst cut. apply andb_true_iff in Hcut as [Hw Hfar]. apply Z.ltb_lt in Hfar.
    assert (Hlong : start + chunk_size self < len text).
    { destruct (Z.ltb_spec (start + chunk_size self) (len text)); [assumption|].
      injection Hat as <-. discriminate. }
    assert (Ew : w = take (Z.to_nat (chunk_size self)) (drop (Z.to_nat start) text)).
    { subst w. rewrite slice_inside by lia. f_equal. lia. }
    assert (Lw : len w = chunk_size self).
    { rewrite Ew. unfold len in *. rewrite length_take, length_drop. lia. }
    assert (Ec : slice_to w last_space
                 = take (Z.to_nat last_space) (drop (Z.to_nat start) text)).
    { unfold slice_to. rewrite slice_inside by lia.
      change (drop (Z.to_nat 0) w) with w.
      rewrite Z.sub_0_r, Ew, take_take. f_equal. lia. }
    destruct (Z.leb_spec (len text) (start + last_space)); [lia|].
    rewrite no_overlap, Z.sub_0_r. apply IH.
    + lia.
    + rewrite concat_app, Hacc, Ec. simpl. rewrite app_nil_r.
      rewrite take_take_drop. f_equal. lia.
    + apply Forall_app. split; [exact Hp|]. constructor; [|constructor].
      unfold piece. rewrite Ec. unfold len in *.
      rewrite length_take, length_drop. lia.
  - destruct (Z.leb_spec (len text) (start + chunk_size self)) as [Hend|Hmore].
    + intros [= <-]. subst w. rewrite slice_to_end by lia. split.
      * rewrite concat_app, Hacc. simpl. rewrite app_nil_r. apply take_drop.
      * apply Forall_app. split; [exact Hp|]. constructor; [|constructor].
        unfold piece, len in *. rewrite length_drop. lia.
    + rewrite no_overlap, Z.sub_0_r.
      assert (Ew : w = take (Z.to_nat (chunk_size self)) (drop (Z.to_nat start) text)).
      { subst w. rewrite slice_inside by lia. f_equal. lia. }
      apply IH.
      * lia.
      * rewrite concat_app, Hacc, Ew. simpl. rewrite app_nil_r.
        rewrite take_take_drop. f_equal. lia.
      * apply Forall_app. split; [exact Hp|]. constructor; [|constructor].
        unfold piece. rewrite Ew. unfold len in *.
        rewrite length_take, length_drop. lia.
Qed.

End Partition.

(** X9: without overlap the character pass cuts the text into non-empty
    pieces of at most [chunk_size] characters that, put end to end, give
    the text back. *)
Theorem zero_overlap_partitions_text self fuel text chunks :
  0 < chunk_size self ->
  chunk_overlap self = 0 ->
  _chunk_by_characters self fuel text = Returns chunks ->
  concat chunks = text ∧ Forall (λ c, 0 < len c <= chunk_size self) chunks.
Proof.
  intros Hs Ho. apply chunk_loop_partition; try assumption.
  - lia.
  - reflexivity.
  - constructor.
Qed.

Lemma zero_overlap_partitions_text_witness :
  concat [lit "Vector stores keep every chunk next to its own embeddingdata";
          lit ". Queries get encoded like that. Results come back ranked";
          lit " first."]
  = Scenario.three_sentences
  ∧ Forall (λ c, 0 < len c <= chunk_size Cases.disjoint)
      [lit "Vector stores keep every chunk next to its own embeddingdata";
       lit ". Queries get encoded like that. Results come back ranked";
       lit " first."].
Proof.
  apply (zero_overlap_partitions_text Cases.disjoint 10 Scenario.three_sentences).
  - reflexivity.
  - reflexivity.
  - vm_compute; reflexivity.
Defined.


(** *** Packing whole sentences *)

Lemma join_snoc (g : list str) (s : str) :
  g ≠ [] -> join (lit " ") (g ++ [s]) = join (lit " ") g ++ lit " " ++ s.
Proof.
  induction g as [|x g IH]; [congruence|]. intros _.
  destruct g as [|y g]; [reflexivity|].
  change (join (lit " ") ((x :: y :: g) ++ [s]))
    with (x ++ lit " " ++ join (lit " ") ((y :: g) ++ [s])).
  rewrite IH by congruence.
  change (join (lit " ") (x :: y :: g)) with (x ++ lit " " ++ join (lit " ") (y :: g)).
  rewrite <- !app_assoc. reflexivity.
Qed.

Lemma join_truthy (g : list str) :
  Forall (λ s, 0 < len s) g -> g ≠ [] -> truthy (join (lit " ") g) = true.
Proof.
  intros Hg Hne. destruct g as [|x g]; [congruence|].
  inversion Hg as [|? ? Hx _]; subst.
  destruct x as [|c x]; [unfold len in Hx; simpl in Hx; lia|].
  destruct g; reflexivity.
Qed.

(** The groups of sentences behind a list of chunks: all but the last
    are closed, the last is the open one (empty at the start). *)
Definition closed (gs : list (list str)) (g : list str) : list (list str) :=
  if truthy g then gs ++ [g] else gs.

Section Packing.

Variable self : t.

Definition whole (s : str) : Prop := 0 < len s <= chunk_size self.

Lemma pack_groups fuel sentences : ∀ gs g chunks current,
  Forall whole sentences ->
  Forall whole g ->
  Forall (λ g, g ≠ []) gs ->
  pack self fuel sentences (map (join (lit " ")) gs) (join (lit " ") g)
    = Returns (chunks, current) ->
  ∃ gs' g',
    chunks = map (join (lit " ")) gs'
    ∧ current = join (lit " ") g'
    ∧ concat gs' ++ g' = concat gs ++ g ++ sentences
    ∧ Forall whole g'
    ∧ Forall (λ g, g ≠ []) gs'
    ∧ (Forall (λ g, len (join (lit " ") g) <= chunk_size self) (closed gs g) ->
       Forall (λ g, len (join (lit " ") g) <= chunk_size self) (closed gs' g')).
Proof.
  induction sentences as [|s rest IH]; intros gs g chunks current Hall Hg Hgs;
    cbn [pack].
  - intros [= <- <-]. exists gs, g. rewrite app_nil_r. repeat split; auto.
  - inversion Hall as [|? ? Hs Hrest]; subst.
    assert (Hopen : truthy (join (lit " ") g) = truthy g).
    { destruct g as [|x g]; [reflexivity|].
      rewrite join_truthy; [reflexivity | eapply Forall_impl; [exact Hg|] | congruence].
      simpl. intros y [Hy _]. exact Hy. }
    rewrite Hopen.
    set (potential := if truthy g then _ else _).
    assert (Hpot : potential = join (lit " ") (g ++ [s])).
    { subst potential. destruct g as [|x g]; [reflexivity|]. cbn [truthy].
      rewrite join_snoc by congruence. reflexivity. }
    rewrite Hpot. clear Hpot potential.
    destruct (Z.leb_spec (len (join (lit " ") (g ++ [s]))) (chunk_size self)) as [Hfit|Hover].
    + intros Hp.
      assert (Hg' : Forall whole (g ++ [s]))
        by (apply Forall_app; split; [exact Hg | constructor; [exact Hs | constructor]]).
      destruct (IH gs (g ++ [s]) chunks current Hrest Hg' Hgs Hp)
        as (gs' & g' & E1 & E2 & E3 & Hw & Hne & Hb).
      exists gs', g'. repeat split; try assumption.
      * rewrite E3, <- !app_assoc. reflexivity.
      * intros Hc. apply Hb. unfold closed in *.
        assert (truthy (g ++ [s]) = true) as -> by (destruct g; reflexivity).
        apply Forall_app. split; [|repeat constructor; exact Hfit].
        destruct (truthy g); [apply Forall_app in Hc as [Hc _]|]; exact Hc.
    + destruct (Z.ltb_spec (chunk_size self) (len s)) as [Hlong|_];
        [destruct Hs; lia|].
      replace (if truthy g then map (join (lit " ")) gs ++ [join (lit " ") g]
               else map (join (lit " ")) gs)
        with (map (join (lit " ")) (closed gs g))
        by (unfold closed; destruct (truthy g); [rewrite map_app|]; reflexivity).
      change s with (join (lit " ") [s]) at 2.
      intros Hp.
      assert (Hg' : Forall whole [s]) by (constructor; [exact Hs | constructor]).
      assert (Hgs' : Forall (λ g, g ≠ []) (closed gs g)).
      { unfold closed. destruct g as [|x g]; [exact Hgs|].
        apply Forall_app. split; [exact Hgs | repeat constructor; congruence]. }
      destruct (IH (closed gs g) [s] chunks current Hrest Hg' Hgs' Hp)
        as (gs' & g' & E1 & E2 & E3 & Hw & Hne & Hb).
      exists gs', g'. repeat split; try assumption.
      * rewrite E3. unfold closed. destruct g as [|x g]; [reflexivity|].
        cbn [truthy]. rewrite concat_app. simpl. rewrite app_nil_r, <- !app_assoc.
        reflexivity.
      * intros Hc. apply Hb. unfold closed at 1. cbn [truthy].
        apply Forall_app. split; [exact Hc|].
        repeat constructor. simpl. destruct Hs; lia.
Qed.

End Packing.

(** X10: when no sentence is empty or longer than [chunk_size],
    [_chunk_by_sentences] keeps sentences whole: the sentences fall, in
    order, into groups, each group joined by single spaces is at most
    [chunk_size] long, and the chunks are these joined groups with the
    overlap pass run over them. *)
Theorem sentences_are_kept_whole self e fuel text sentences :
  sentences_of e text = Returns sentences ->
  Forall (λ s, 0 < len s <= chunk_size self) sentences ->
  ∃ groups,
    concat groups = sentences
    ∧ Forall (λ g, g ≠ []) groups
    ∧ Forall (λ g, len (join (lit " ") g) <= chunk_size self) groups
    ∧ _chunk_by_sentences self e fuel text
      = Returns (_add_overlap self (map (join (lit " ")) groups)).
Proof.
  intros Hsent Hall. unfold _chunk_by_sentences. rewrite Hsent. cbn [obind].
  destruct (pack self fuel sentences [] []) as [[chunks current]| |] eqn:Hp.
  - destruct (pack_groups self fuel sentences [] [] chunks current Hall)
      as (gs & g & -> & -> & E & Hw & Hne & Hb);
      [constructor | constructor | exact Hp |].
    simpl in E. cbn [obind].
    exists (closed gs g). unfold closed in *.
    assert (Hopen : truthy (join (lit " ") g) = truthy g).
    { destruct g as [|x g]; [reflexivity|].
      rewrite join_truthy; [reflexivity | eapply Forall_impl; [exact Hw|] | congruence].
      simpl. intros y [Hy _]. exact Hy. }
    rewrite Hopen.
    destruct g as [|x g]; cbn [truthy] in *.
    + rewrite app_nil_r in E. split; [exact E|]. split; [exact Hne|].
      split; [apply Hb; constructor | reflexivity].
    + split; [rewrite concat_app; simpl; rewrite app_nil_r; exact E|].
      split; [apply Forall_app; split; [exact Hne | repeat constructor; congruence]|].
      split; [apply Hb; constructor|]. rewrite map_app. reflexivity.
  - exfalso. revert Hp. generalize (@nil str) at 1 as chunks.
    generalize (@nil ascii) as current. clear Hsent.
    induction Hall as [|s rest Hs Hrest IH]; intros current chunks; simpl; [discriminate|].
    destruct (_ <=? _); [apply IH|].
    destruct (Z.ltb_spec (chunk_size self) (len s)); [lia | apply IH].
  - exfalso. revert Hp. generalize (@nil str) at 1 as chunks.
    generalize (@nil ascii) as current. clear Hsent.
    induction Hall as [|s rest Hs Hrest IH]; intros current chunks; simpl; [discriminate|].
    destruct (_ <=? _); [apply IH|].
    destruct (Z.ltb_spec (chunk_size self) (len s)); [lia | apply IH].
Qed.

Lemma sentences_are_kept_whole_witness :
  ∃ groups,
    concat groups = [Scenario.s1; Scenario.s2; Scenario.s3]
    ∧ Forall (λ g, g ≠ []) groups
    ∧ Forall (λ g, len (join (lit " ") g) <= chunk_size Scenario.narrow) groups
    ∧ _chunk_by_sentences Scenario.narrow Scenario.plain 1
        (_clean_text Scenario.three_sentences)
      = Returns (_add_overlap Scenario.narrow (map (join (lit " ")) groups)).
Proof.
  apply (sentences_are_kept_whole Scenario.narrow Scenario.plain 1
           (_clean_text Scenario.three_sentences)
           [Scenario.s1; Scenario.s2; Scenario.s3]).
  - vm_compute; reflexivity.
  - repeat (apply Forall_cons; split; [split; vm_compute; congruence|]).
    apply Forall_nil; exact I.
Defined.

End ChunkerBehaviour.

(** ** The chunker's text preparation *)

Module CleaningFacts.
Import PyFacts TextFacts ChunkProcessor.

(** A word: a non-empty run of visible characters. *)
Definition word (w : str) : Prop := w ≠ [] ∧ Forall (λ c, isspace c = false) w.

Lemma split_pieces_nonempty s : Forall (λ w, w ≠ []) (split s).
Proof.
  induction s as [|c rest IH]; [constructor|]. cbn [split].
  destruct (isspace c); [exact IH|].
  destruct rest as [|c' rest']; [repeat constructor; congruence|].
  destruct (isspace c'); [constructor; [congruence | exact IH]|].
  destruct (split (c' :: rest')) as [|w ws]; [repeat constructor; congruence|].
  inversion IH; subst. constructor; [congruence | assumption].
Qed.

Lemma split_chars s w c : w ∈ split s -> c ∈ w -> isspace c = false ∧ c ∈ s.
Proof.
  intros Hw Hc.
  assert (H : c ∈ concat (split s)).
  { apply list_elem_of_In, in_concat. exists w.
    split; apply list_elem_of_In; assumption. }
  rewrite EmbeddingFacts.concat_split in H.
  apply list_elem_of_filter in H. exact H.
Qed.

Lemma split_words s : Forall word (split s).
Proof.
  rewrite Forall_forall. intros w Hw. split.
  - pose proof (split_pieces_nonempty s) as H. rewrite Forall_forall in H. auto.
  - rewrite Forall_forall. intros c Hc. apply (split_chars s w c Hw Hc).
Qed.

Lemma split_cons_visible c rest :
  isspace c = false ->
  split (c :: rest)
  = match rest with
    | [] => [[c]]
    | c' :: _ =>
        if isspace c' then [c] :: split rest
        else match split rest with
             | w :: ws' => (c :: w) :: ws'
             | [] => [[c]]
             end
    end.
Proof. intros H. cbn [split]. rewrite H. reflexivity. Qed.

Lemma split_word p : word p -> split p = [p].
Proof.
  intros [Hne Hv]. induction p as [|c p IH]; [congruence|].
  inversion Hv as [|? ? Hc Hp]; subst.
  rewrite split_cons_visible by exact Hc.
  destruct p as [|c' p']; [reflexivity|].
  inversion Hp as [|? ? Hc' _]; subst. rewrite Hc'.
  rewrite IH by (congruence || assumption). reflexivity.
Qed.

Lemma split_word_app p rest :
  word p -> split (p ++ " "%char :: rest) = p :: split rest.
Proof.
  intros [Hne Hv]. induction p as [|c p IH]; [congruence|].
  inversion Hv as [|? ? Hc Hp]; subst.
  change ((c :: p) ++ " "%char :: rest) with (c :: (p ++ " "%char :: rest)).
  rewrite split_cons_visible by exact Hc.
  destruct p as [|c' p'].
  - reflexivity.
  - inversion Hp as [|? ? Hc' _]; subst.
    assert (IH' : split (c' :: (p' ++ " "%char :: rest)) = (c' :: p') :: split rest)
      by (apply IH; [congruence | assumption]).
    change ((c' :: p') ++ " "%char :: rest) with (c' :: (p' ++ " "%char :: rest)).
    cbv iota. rewrite Hc', IH'. reflexivity.
Qed.

(** Splitting undoes joining words with one space. *)
Lemma split_join ws : Forall word ws -> split (join (lit " ") ws) = ws.
Proof.
  induction 1 as [|p ws Hp Hws IH]; [reflexivity|].
  destruct ws as [|q ws]; [apply split_word; exact Hp|].
  change (join (lit " ") (p :: q :: ws))
    with (p ++ " "%char :: join (lit " ") (q :: ws)).
  rewrite split_word_app by exact Hp. rewrite IH. reflexivity.
Qed.

Lemma join_ends ws :
  Forall word ws -> ws ≠ [] ->
  (∃ c r, join (lit " ") ws = c :: r ∧ isspace c = false)
  ∧ (∃ r c, join (lit " ") ws = r ++ [c] ∧ isspace c = false).
Proof.
  induction 1 as [|p ws [Hne Hv] Hws IH]; [congruence|]. intros _.
  assert (Hhead : ∃ c r, p = c :: r ∧ isspace c = false).
  { destruct p as [|c r]; [congruence|]. inversion Hv; subst. eauto. }
  assert (Hlast : ∃ r c, p = r ++ [c] ∧ isspace c = false).
  { destruct p as [|c0 r0] using rev_ind; [congruence|].
    apply Forall_app in Hv as [_ Hv]. inversion Hv; subst. eauto. }
  destruct ws as [|q ws]; [split; assumption|].
  change (join (lit " ") (p :: q :: ws))
    with (p ++ " "%char :: join (lit " ") (q :: ws)).
  destruct IH as [_ (r & c & -> & Hc)]; [congruence|]. split.
  - destruct Hhead as (c0 & r0 & -> & Hc0). simpl. eauto.
  - exists (p ++ " "%char :: r), c. split; [|exact Hc].
    rewrite <- app_assoc. reflexivity.
Qed.

Lemma rstrip_fixed r c : isspace c = false -> rstrip (r ++ [c]) = r ++ [c].
Proof.
  intros Hc. unfold rstrip. rewrite reverse_app. simpl.
  change (reverse [c]) with [c]. simpl. rewrite Hc.
  change (c :: reverse r) with ([c] ++ reverse r).
  rewrite reverse_app, reverse_involutive. reflexivity.
Qed.

Lemma strip_join ws : Forall word ws -> strip (join (lit " ") ws) = join (lit " ") ws.
Proof.
  intros Hws. destruct ws as [|p ws]; [reflexivity|].
  destruct (join_ends (p :: ws) Hws) as [(c & r & E & Hc) (r' & c' & E' & Hc')];
    [congruence|].
  unfold strip. rewrite E, (lstrip_fixed _ _ Hc), <- E, E'.
  apply rstrip_fixed. exact Hc'.
Qed.

Lemma collapse_word p rest b :
  word p -> collapse_whitespace (p ++ rest) b = p ++ collapse_whitespace rest false.
Proof.
  intros [Hne Hv]. revert b. induction p as [|c p IH]; intros b; [congruence|].
  inversion Hv as [|? ? Hc Hp]; subst. simpl. rewrite Hc. f_equal.
  destruct p as [|c' p']; [reflexivity|].
  apply IH; [congruence | assumption].
Qed.

Lemma collapse_join ws b :
  Forall word ws ->
  collapse_whitespace (join (lit " ") ws) b = join (lit " ") ws.
Proof.
  intros Hws. revert b. induction Hws as [|p ws Hp Hws IH]; intros b; [reflexivity|].
  destruct ws as [|q ws].
  - simpl. rewrite <- (app_nil_r p) at 1. rewrite collapse_word by exact Hp.
    simpl. apply app_nil_r.
  - change (join (lit " ") (p :: q :: ws))
      with (p ++ " "%char :: join (lit " ") (q :: ws)).
    rewrite collapse_word by exact Hp. cbn [collapse_whitespace].
    change (isspace " ") with true. cbv iota. rewrite IH. reflexivity.
Qed.

Lemma join_chars ws c :
  c ∈ join (lit " ") ws -> c = " "%char ∨ ∃ w, w ∈ ws ∧ c ∈ w.
Proof.
  induction ws as [|p ws IH]; [intros H; inversion H|].
  destruct ws as [|q ws].
  - simpl. intros H. right. exists p. split; [apply list_elem_of_here | exact H].
  - change (join (lit " ") (p :: q :: ws))
      with (p ++ " "%char :: join (lit " ") (q :: ws)).
    intros H. apply elem_of_app in H as [H|H].
    + right. exists p. split; [apply list_elem_of_here | exact H].
    + apply elem_of_cons in H as [H|H]; [left; exact H|].
      destruct (IH H) as [E|(w & Hw & Hc)]; [left; exact E|].
      right. exists w. split; [apply list_elem_of_further; exact Hw | exact Hc].
Qed.

Lemma collapse_chars s b c :
  c ∈ collapse_whitespace s b -> c = " "%char ∨ c ∈ s.
Proof.
  revert b. induction s as [|x s IH]; intros b; [intros H; inversion H|]. simpl.
  destruct (isspace x).
  - destruct b.
    + intros H. destruct (IH _ H) as [E|E]; [left; exact E|].
      right. apply list_elem_of_further. exact E.
    + intros H. apply elem_of_cons in H as [H|H]; [left; exact H|].
      destruct (IH _ H) as [E|E]; [left; exact E|].
      right. apply list_elem_of_further. exact E.
  - intros H. apply elem_of_cons in H as [H|H].
    + right. subst. apply list_elem_of_here.
    + destruct (IH _ H) as [E|E]; [left; exact E|].
      right. apply list_elem_of_further. exact E.
Qed.

(** The replacement of the characters [_clean_text] does not keep. *)
Definition keep (c : ascii) : ascii := if allowed c then c else " "%char.

Lemma allowed_keep c : allowed (keep c) = true.
Proof. unfold keep. destruct (allowed c) eqn:E; [exact E | reflexivity]. Qed.

(** The words [_clean_text] joins. *)
Definition words_of (text : str) : list str :=
  split (map keep (collapse_whitespace text false)).

Lemma _clean_text_words text : _clean_text text = join (lit " ") (words_of text).
Proof.
  unfold _clean_text, words_of. destruct text as [|c text]; [reflexivity|].
  cbn [truthy negb]. cbv iota.
  apply strip_join, split_words.
Qed.

Lemma words_of_chars text w c :
  w ∈ words_of text -> c ∈ w ->
  isspace c = false ∧ allowed c = true ∧ c ∈ text.
Proof.
  intros Hw Hc. destruct (split_chars _ _ _ Hw Hc) as [Hv Hin].
  apply list_elem_of_fmap in Hin as (c' & E & Hin).
  split; [exact Hv|]. split; [subst; apply allowed_keep|].
  unfold keep in E. destruct (allowed c') eqn:Ha.
  - subst c'. destruct (collapse_chars _ _ _ Hin) as [->|H]; [discriminate Hv | exact H].
  - subst c. discriminate Hv.
Qed.

Lemma keep_allowed s : Forall (λ c, allowed c = true) s -> map keep s = s.
Proof.
  induction 1 as [|c s Hc _ IH]; [reflexivity|]. simpl. rewrite IH.
  unfold keep. rewrite Hc. reflexivity.
Qed.

(** X11: [_clean_text] gives its words joined by single spaces: the
    result is its own split joined again, it keeps only spaces and visible
    permitted characters of the text, and cleaning it once more changes
    nothing. *)
Theorem clean_text_normal_form text :
  _clean_text (_clean_text text) = _clean_text text
  ∧ join (lit " ") (split (_clean_text text)) = _clean_text text
  ∧ Forall (λ c, c = " "%char ∨ (isspace c = false ∧ allowed c = true ∧ c ∈ text))
      (_clean_text text).
Proof.
  rewrite (_clean_text_words text).
  pose proof (split_words (map keep (collapse_whitespace text false))) as Hws.
  fold (words_of text) in Hws.
  assert (Hchars : Forall (λ c, c = " "%char
                                ∨ (isspace c = false ∧ allowed c = true ∧ c ∈ text))
                     (join (lit " ") (words_of text))).
  { rewrite Forall_forall. intros c Hc.
    destruct (join_chars _ _ Hc) as [->|(w & Hw & Hin)]; [left; reflexivity|].
    right. eapply words_of_chars; eauto. }
  split; [|split].
  - unfold _clean_text.
    destruct (join (lit " ") (words_of text)) as [|c0 r0] eqn:E; [reflexivity|].
    cbn [truthy negb]. cbv iota. rewrite <- E.
    rewrite collapse_join by exact Hws.
    fold keep. rewrite keep_allowed.
    + rewrite split_join by exact Hws. apply strip_join. exact Hws.
    + rewrite E. eapply Forall_impl; [exact Hchars|]. simpl.
      intros c [->|(_ & Ha & _)]; [reflexivity | exact Ha].
  - rewrite split_join by exact Hws. reflexivity.
  - exact Hchars.
Qed.

(** *** The fallback sentence splitter *)

Definition sentence_end (c : ascii) : Prop := c ∈ [".";"!";"?"]%char.

Lemma split_sentence_ends_pieces s : ∀ cur in_run p,
  p ∈ split_sentence_ends s cur in_run ->
  Forall (λ c, ¬ sentence_end c) cur ->
  Forall (λ c, ¬ sentence_end c) p ∧ part_of p (reverse cur ++ s).
Proof.
  induction s as [|c s IH]; intros cur in_run p; cbn [split_sentence_ends].
  - intros Hp Hcur. apply list_elem_of_singleton in Hp as ->. split.
    + rewrite Forall_forall in *. intros x Hx. apply Hcur, elem_of_reverse, Hx.
    + exists [], []. rewrite !app_nil_r. reflexivity.
  - destruct (bool_decide (c ∈ [".";"!";"?"]%char)) eqn:Hend.
    + assert (Hrest : p ∈ split_sentence_ends s [] true ->
                Forall (λ c, ¬ sentence_end c) p ∧ part_of p (reverse cur ++ c :: s)).
      { intros Hp. destruct (IH [] true p Hp) as [Hc (a & b & E)]; [constructor|].
        split; [exact Hc|]. exists (reverse cur ++ c :: a), b.
        change (reverse [] ++ s) with s in E. rewrite E, <- app_assoc. reflexivity. }
      assert (Hcur' : Forall (λ c, ¬ sentence_end c) cur ->
                Forall (λ c, ¬ sentence_end c) (reverse cur)
                ∧ part_of (reverse cur) (reverse cur ++ c :: s)).
      { intros Hcur. split.
        - rewrite Forall_forall in *. intros x Hx. apply Hcur, elem_of_reverse, Hx.
        - exists [], (c :: s). reflexivity. }
      destruct in_run.
      * intros Hp _. auto.
      * intros Hp Hcur. apply elem_of_cons in Hp as [->|Hp]; auto.
    + intros Hp Hcur. apply bool_decide_eq_false in Hend.
      destruct (IH (c :: cur) false p Hp) as [Hc Hpart];
        [constructor; assumption|].
      split; [exact Hc|].
      rewrite reverse_cons, <- app_assoc in Hpart. exact Hpart.
Qed.

(** X12: every sentence of [_simple_sentence_split] is a piece of the
    text with more than ten characters, without whitespace at either end
    and without a full stop, exclamation mark or question mark. *)
Theorem simple_sentences text :
  Forall (λ sentence,
            10 < len sentence
            ∧ strip sentence = sentence
            ∧ Forall (λ c, c ∉ [".";"!";"?"]%char) sentence
            ∧ ∃ a b, text = a ++ sentence ++ b)
    (_simple_sentence_split text).
Proof.
  rewrite Forall_forall. intros sentence Hin. unfold _simple_sentence_split in Hin.
  apply list_elem_of_filter in Hin as [Hkeep Hin].
  apply list_elem_of_fmap in Hin as (p & -> & Hp).
  apply andb_true_iff in Hkeep as [_ Hlong]. apply Z.ltb_lt in Hlong.
  destruct (split_sentence_ends_pieces text [] false p Hp) as [Hc Hpart]; [constructor|].
  split; [exact Hlong|]. split; [apply strip_idem|]. split.
  - rewrite Forall_forall in *. intros c Hx. apply Hc.
    eapply part_of_elem; [apply strip_part | exact Hx].
  - apply (part_of_trans _ p); [apply strip_part | exact Hpart].
Qed.

End CleaningFacts.

(** ** The vector store: failures, generated identifiers, flattening *)

Module StoreBehaviour.
Import PyFacts TextFacts Eff EffFacts EffMore VectorStore.

Section Store.
Context {C : Type} `{Chroma C} `{PyText}.

(** The metadata [add_documents] hands to the collection. *)
Definition flattened_of (metadata : list pyval) : list (gmap str pyval) :=
  map (λ meta,
         if is_dict meta then _flatten_metadata meta
         else {[ lit "content" := PScalar (SStr (py_str meta)) ]})
      metadata.

(** The identifiers [add_documents] makes when the collection holds [n]
    entries. *)
Definition ids_from (n : nat) (documents : list str) : list str :=
  map (λ i, lit "doc_" ++ lit (pretty (n + i)%nat)) (seq 0 (length documents)).

(** The identifiers [add_documents] uses: the caller's, or those numbered
    on from the count of the collection, when it answers. *)
Definition ids_of (c : C) (documents : list str) (ids : option (list str))
    : outcome (list str) :=
  match ids with
  | Some ids => Returns ids
  | None =>
      match count c with
      | Returns n => Returns (ids_from n documents)
      | Raises e => Raises e
      | OutOfFuel => OutOfFuel
      end
  end.

Definition counted (ids : option (list str)) : list event :=
  match ids with Some _ => [] | None => [Called CollectionCount] end.

(** What [add_documents] comes to, case by case. *)
Lemma add_documents_run (store : t C) documents embeddings metadata ids :
  add_documents documents embeddings metadata ids store
  = match collection store with
    | None =>
        Run (Returns false) store
          [Logged (Log LError "Error adding documents"
                     (Some (RuntimeError "Vector store not initialized")))]
    | Some c =>
        match ids_of c documents ids with
        | Returns ids' =>
            let call :=
              Called (CollectionAdd documents (flattened_of metadata) ids') in
            match add c documents embeddings (flattened_of metadata) ids' with
            | Returns c' =>
                Run (Returns true)
                    {| collection_name := collection_name store;
                       collection := Some c' |}
                    (counted ids
                     ++ [call; Logged (Log LInfo "Added documents to collection" None)])
            | Raises e =>
                Run (Returns false) store
                    (counted ids
                     ++ [call; Logged (Log LError "Error adding documents" (Some e))])
            | OutOfFuel => Run OutOfFuel store (counted ids ++ [call])
            end
        | Raises e =>
            Run (Returns false) store
                (counted ids
                 ++ [Logged (Log LError "Error adding documents" (Some e))])
        | OutOfFuel => Run OutOfFuel store (counted ids)
        end
    end.
Proof.
  unfold add_documents, require_collection, set_collection, flattened_of, ids_of,
    ids_from, counted.
  run. destruct (collection store) as [c|]; [|reflexivity].
  destruct ids as [ids|]; cbn [app].
  - match goal with |- context [add ?a ?b ?c ?d ?e] => destruct (add a b c d e) end;
      reflexivity.
  - destruct (count c) as [n| |]; cbn; try reflexivity.
    match goal with |- context [add ?a ?b ?c ?d ?e] => destruct (add a b c d e) end;
      reflexivity.
Qed.



Lemma doc_id_inj (n i j : nat) :
  lit "doc_" ++ lit (pretty (n + i)%nat) = lit "doc_" ++ lit (pretty (n + j)%nat) ->
  i = j.
Proof.
  intros E. apply app_inv_head, lit_inj in E. apply (inj pretty) in E. lia.
Qed.

(** X15: identifiers given by the caller reach the collection unchanged,
    and the collection is not asked for its count; when none are given
    and the collection answers [count()] with [n], [add_documents] makes
    one identifier per document, numbered on from [n], so that they are
    pairwise distinct; and when [count()] raises, nothing is added:
    [add_documents] logs the error and returns false. *)
Theorem add_documents_identifiers (store : t C) c documents embeddings metadata :
  collection store = Some c ->
  (∀ ids, ∃ flattened,
     Called (CollectionAdd documents flattened ids)
       ∈ trace (add_documents documents embeddings metadata (Some ids) store)
     ∧ length flattened = length metadata
     ∧ Called CollectionCount
         ∉ trace (add_documents documents embeddings metadata (Some ids) store))
  ∧ (∀ n, count c = Returns n ->
       ∃ flattened ids,
         Called (CollectionAdd documents flattened ids)
           ∈ trace (add_documents documents embeddings metadata None store)
         ∧ length ids = length documents
         ∧ NoDup ids
         ∧ ∀ i, (i < length documents)%nat ->
             ids !! i = Some (lit "doc_" ++ lit (pretty (n + i)%nat)))
  ∧ (∀ e, count c = Raises e ->
       add_documents documents embeddings metadata None store
       = Run (Returns false) store
             [Called CollectionCount;
              Logged (Log LError "Error adding documents" (Some e))]).
Proof.
  intros Hc. split; [|split].
  - intros ids. exists (flattened_of metadata).
    rewrite add_documents_run, Hc. cbn [ids_of]. cbv zeta.
    split; [|split].
    + destruct (add c _ _ _ _); cbn [trace counted app]; apply list_elem_of_here.
    + apply length_map.
    + destruct (add c _ _ _ _); cbn [trace counted app]; intros Hin;
        repeat (apply elem_of_cons in Hin as [Hin|Hin]; [discriminate|]);
        inversion Hin.
  - intros n Hn. exists (flattened_of metadata), (ids_from n documents).
    split; [|split; [|split]].
    + rewrite add_documents_run, Hc. cbn [ids_of]. rewrite Hn. cbv zeta.
      destruct (add c _ _ _ _); cbn [trace counted app];
        apply list_elem_of_further, list_elem_of_here.
    + unfold ids_from. rewrite length_map, length_seq. reflexivity.
    + unfold ids_from. apply NoDup_fmap_2; [|apply NoDup_seq].
      intros i j. apply doc_id_inj.
    + intros i Hi. unfold ids_from.
      rewrite list_lookup_fmap, lookup_seq_lt by exact Hi. reflexivity.
  - intros e He. rewrite add_documents_run, Hc. cbn [ids_of]. rewrite He.
    reflexivity.
Qed.

(** X16: [clear_collection] is not all or nothing: when the collection
    is deleted and cannot be created again it returns false, the deletion
    stands, and the store keeps the handle of the deleted collection. *)
Theorem failed_clear_has_deleted (store : t C) c e :
  collection store = Some c ->
  delete_collection c = Returns tt ->
  create_collection (collection_name store) = Raises e ->
  clear_collection store
  = Run (Returns false) store
        [Called (ClientDeleteCollection (collection_name store));
         Called (ClientCreateCollection (collection_name store));
         Logged (Log LError "Error clearing collection" (Some e))].
Proof.
  intros Hc Hdel Hnew. unfold clear_collection, require_collection, set_collection.
  run. rewrite Hc. cbn. rewrite Hdel. cbn. rewrite Hnew. reflexivity.
Qed.

End Store.

Lemma failed_clear_has_deleted_witness :
  clear_collection (H := Cases.cannot_create) Cases.opened
  = Run (Returns false) Cases.opened
        [Called (ClientDeleteCollection (lit "rag_documents"));
         Called (ClientCreateCollection (lit "rag_documents"));
         Logged (Log LError "Error clearing collection"
                   (Some (External "disk full")))].
Proof.
  exact (failed_clear_has_deleted (H := Cases.cannot_create) Cases.opened tt
           (External "disk full") eq_refl eq_refl eq_refl).
Defined.

#[local] Existing Instance Scenario.canned.
#[local] Existing Instance Scenario.simple_text.

(** Two documents added without identifiers to a collection that counts
    no entries go in as doc_0 and doc_1; on a stale handle nothing is
    added. *)
Lemma add_documents_identifiers_witness :
  (∃ flattened,
     Called (CollectionAdd [lit "first"; lit "second"] flattened
               [lit "doc_0"; lit "doc_1"])
       ∈ trace (add_documents [lit "first"; lit "second"] [[1%Q]; [2%Q]]
                  [PDict []; PDict []] None Scenario.two_entries))
  ∧ add_documents (H := Cases.stale) [lit "first"; lit "second"] [[1%Q]; [2%Q]]
      [PDict []; PDict []] None Cases.opened
    = Run (Returns false) Cases.opened
          [Called CollectionCount;
           Logged (Log LError "Error adding documents"
                     (Some (External "collection does not exist")))].
Proof.
  split.
  - destruct (proj1 (proj2 (add_documents_identifiers (H := Scenario.canned)
                              Scenario.two_entries
                              Scenario.two_rows
                              [lit "first"; lit "second"] [[1%Q]; [2%Q]]
                              [PDict []; PDict []] eq_refl))
                0%nat ltac:(reflexivity))
      as (flattened & ids & Hcall & Hlen & _ & Hids).
    exists flattened.
    destruct ids as [|id0 [|id1 [|id2 ids]]]; try discriminate Hlen.
    pose proof (Hids 0%nat ltac:(simpl; lia)) as H0.
    pose proof (Hids 1%nat ltac:(simpl; lia)) as H1.
    injection H0 as ->. injection H1 as ->. exact Hcall.
  - exact (proj2 (proj2 (add_documents_identifiers (H := Cases.stale) Cases.opened tt
                           [lit "first"; lit "second"] [[1%Q]; [2%Q]]
                           [PDict []; PDict []] eq_refl))
             (External "collection does not exist") ltac:(reflexivity)).
Defined.

(** *** Flattening what is already flat *)

Section Flat.
Context `{PyText}.
Import FlattenFacts.

Lemma foldl_put_entry_lookup l : ∀ (m : gmap str pyval) k,
  NoDup (map fst l) ->
  foldl put_entry m l !! k
  = match (list_to_map l : gmap str pyval) !! k with
    | Some v => Some v
    | None => m !! k
    end.
Proof.
  induction l as [|[k0 v0] rest IH]; intros m k Hnd; [reflexivity|].
  inversion Hnd as [|? ? Hfresh Hrest]; subst.
  simpl foldl. rewrite IH by exact Hrest. unfold put_entry. simpl.
  destruct (decide (k = k0)) as [->|Hne].
  - rewrite (not_elem_of_list_to_map_1 _ k0) by exact Hfresh.
    rewrite !lookup_insert_eq. reflexivity.
  - rewrite !lookup_insert_ne by congruence. reflexivity.
Qed.

Lemma foldl_visit_flat l : ∀ m,
  Forall (λ kv, is_scalar kv.2 = true) l ->
  foldl (visit []) m l = foldl put_entry m l.
Proof.
  induction l as [|[k v] rest IH]; intros m Hl; [reflexivity|].
  inversion Hl as [|? ? Hv Hrest]; subst. simpl foldl.
  rewrite <- IH by exact Hrest. f_equal.
  destruct v; try discriminate Hv. reflexivity.
Qed.

(** X17: flattening is idempotent: the flat mapping [_flatten_metadata]
    returns is flattened to itself. *)
Theorem flatten_metadata_idempotent (metadata : pyval) :
  _flatten_metadata (PDict (map_to_list (_flatten_metadata metadata)))
  = _flatten_metadata metadata.
Proof.
  set (flat := _flatten_metadata metadata).
  assert (Hscalar : ∀ k v, flat !! k = Some v -> is_scalar v = true).
  { intros k v. subst flat. unfold _flatten_metadata. rewrite lookup_fmap.
    destruct (_ !! k) as [v0|]; [|discriminate]. intros [= <-].
    apply ensure_scalar. }
  unfold _flatten_metadata at 1. rewrite flatten_dict.
  rewrite foldl_visit_flat.
  2:{ rewrite Forall_forall. intros [k v] Hin. apply elem_of_map_to_list in Hin.
      apply (Hscalar k v Hin). }
  apply map_eq. intros k. rewrite lookup_fmap.
  rewrite foldl_put_entry_lookup by apply NoDup_fst_map_to_list.
  rewrite list_to_map_to_list, lookup_empty.
  destruct (flat !! k) as [v|] eqn:E; [|reflexivity].
  simpl. rewrite (Hscalar k v E). reflexivity.
Qed.

End Flat.

End StoreBehaviour.

(** ** The retriever: what a search leaves behind and what it returns *)

Module RetrieverBehaviour.
Import PyFacts TextFacts Eff EffFacts EffMore RAGRetriever.

Section Retriever.
Context {C : Type} `{VectorStore.Chroma C} `{PyText}.



Lemma encode_text_preserves {S} model inputs :
  preserves (EmbeddingModel.encode_text (S := S) model inputs).
Proof. unfold EmbeddingModel.encode_text. repeat preserves_step. Qed.

Lemma encode_query_preserves {S} model query :
  preserves (EmbeddingModel.encode_query (S := S) model query).
Proof.
  unfold EmbeddingModel.encode_query.
  apply preserves_bind; [apply encode_text_preserves|].
  repeat preserves_step.
Qed.

Lemma on_model_preserves {A} (m : EmbeddingModel.t -> M (t C) A) :
  (∀ model, preserves (m model)) -> preserves (on_model m).
Proof.
  intros Hm s. unfold on_model. rewrite bind_get.
  destruct (embedding_model s); [apply Hm | reflexivity].
Qed.




(** Whatever [retrieve] returns is empty or the post-processed answer
    of one search of the store. *)
Lemma retrieve_returns (self : t C) query top_k threshold filter_metadata results :
  result (retrieve query top_k threshold filter_metadata self) = Returns results ->
  results = []
  ∨ ∃ q store emb hits,
      query = Some q
      ∧ vector_store self = Some store
      ∧ result (VectorStore.search_similar emb
                  (or_int top_k (default_top_k self))
                  (or_float threshold (similarity_threshold self)) store)
        = Returns hits
      ∧ results = _process_search_results hits q filter_metadata.
Proof.
  unfold retrieve. rewrite bind_get.
  destruct (negb (is_ready self)); [intros [= <-]; left; reflexivity|].
  destruct query as [q|]; [|intros [= <-]; left; reflexivity].
  destruct (negb (truthy q) || negb (truthy (strip q)));
    [intros [= <-]; left; reflexivity|].
  intros Hres. apply try_except_returns in Hres as [Hbody|(e & _ & Hh)].
  2:{ left. injection Hh as <-. reflexivity. }
  right.
  apply bind_returns in Hbody as (u & _ & Hbody).
  match type of Hbody with
  | result (_ (final (?prefix self))) = _ =>
      assert (Hpre : final (prefix self) = self)
        by (destruct (_ <? _); reflexivity);
      rewrite Hpre in Hbody; clear Hpre
  end.
  apply bind_returns in Hbody as (emb & _ & Hbody).
  rewrite on_model_preserves in Hbody
    by (intros model; apply encode_query_preserves).
  apply bind_returns in Hbody as (hits & Hsearch & Hbody).
  apply within_returns in Hsearch as (store & Hstore & Hsearch).
  injection Hbody as <-.
  exists q, store, emb, hits. auto.
Qed.

(** Each result [retrieve] returns is built from an entry of the search
    that passes the filter, at the rank of its position. *)
Lemma retrieve_entry (self : t C) query top_k threshold filter_metadata results i r :
  result (retrieve query top_k threshold filter_metadata self) = Returns results ->
  results !! i = Some r ->
  ∃ q doc,
    query = Some q
    ∧ r = result_of q doc (i + 1)
    ∧ passes filter_metadata (VectorStore.metadata doc) = true
    ∧ VectorStore.similarity_score doc
      = fdiv 1 (fadd 1 (VectorStore.distance doc))
    ∧ (or_float threshold (similarity_threshold self)
       <= VectorStore.similarity_score doc)%Q.
Proof.
  intros Hres Hi.
  apply retrieve_returns in Hres
    as [->|(q & store & emb & hits & -> & _ & Hsearch & ->)]; [discriminate|].
  unfold _process_search_results in Hi.
  rewrite RetrieverFacts.process_ranks in Hi. cbn [app length] in Hi.
  rewrite list_lookup_imap in Hi.
  destruct (filter (kept filter_metadata) hits !! i) as [doc|] eqn:Hd; [|discriminate].
  injection Hi as <-.
  apply list_elem_of_lookup_2, list_elem_of_filter in Hd as [Hkept Hin].
  destruct (StoreFacts.search_similar_sound _ _ _ _ _ _ Hsearch Hin) as [Hscore Hle].
  apply Qle_bool_iff in Hle.
  exists q, doc. split; [reflexivity|]. split; [f_equal; lia|]. auto.
Qed.

(** X19: what [retrieve] returns is fit to use as it is: the results are
    ranked 1, 2, ... in the order returned, and each carries the float
    [1 / (1 + distance)] of its own distance (the sum and the quotient
    each rounded to the nearest double), not below the threshold in force
    ([similarity_threshold or self.similarity_threshold]), metadata that
    passes the filter, and the match analysis of its text against the
    query as given. *)
Theorem retrieved_results_are_ranked_and_relevant (self : t C) query top_k
    threshold filter_metadata results :
  result (retrieve query top_k threshold filter_metadata self) = Returns results ->
  ∀ i r, results !! i = Some r ->
    relevance_rank r = (i + 1)%nat
    ∧ similarity_score r = fdiv 1 (fadd 1 (distance r))
    ∧ (or_float threshold (similarity_threshold self) <= similarity_score r)%Q
    ∧ passes filter_metadata (result_metadata r) = true
    ∧ ∃ q, query = Some q
           ∧ query_match_info r = _analyze_query_match (result_content r) q.
Proof.
  intros Hres i r Hi.
  destruct (retrieve_entry _ _ _ _ _ _ _ _ Hres Hi)
    as (q & doc & -> & -> & Hkept & Hscore & Hle).
  simpl. split; [reflexivity|]. split; [exact Hscore|]. split; [exact Hle|].
  split; [exact Hkept|]. exists q. split; reflexivity.
Qed.

(** *** What reaches the encoder *)

(** The characters [_clean_query] lets through. *)
Definition query_char (c : ascii) : bool :=
  isword c || isspace c || bool_decide (c ∈ [".";",";"!";"?"]%char).

Lemma strip_subseteq s c : c ∈ strip s -> c ∈ s.
Proof.
  intros Hc. destruct (strip_part s) as (a & b & E).
  rewrite E. apply elem_of_app. right. apply elem_of_app. left. exact Hc.
Qed.

Lemma _clean_query_chars query c : c ∈ _clean_query query -> query_char c = true.
Proof.
  unfold _clean_query. intros Hc. apply strip_subseteq in Hc.
  apply list_elem_of_fmap in Hc as (c' & -> & _).
  fold (query_char c'). destruct (query_char c') eqn:E; [exact E | reflexivity].
Qed.

Lemma slice_to_subseteq_if {A} (s : list A) (b : bool) n x :
  x ∈ (if b then slice_to s n else s) -> x ∈ s.
Proof. destruct b; [apply slice_to_subseteq | auto]. Qed.

Lemma clean_text_length text : len (EmbeddingModel.clean_text text) <= len text.
Proof.
  rewrite EmbeddingFacts.clean_text_filter. unfold len.
  pose proof (length_filter EmbeddingFacts.visible text). lia.
Qed.

Lemma truncated_length (q : str) n :
  0 <= n -> len (if n <? len q then slice_to q n else q) <= n.
Proof.
  intros Hn. destruct (Z.ltb_spec n (len q)); [|lia].
  unfold slice_to. pose proof (slice_window q 0 n Hn) as Hw. exact Hw.
Qed.

(** X20: the only texts [retrieve] hands to the embedding model are
    single queries of at most [max_query_length] (500) characters, made
    of word characters and . , ! ? only: the words of the query run
    together without the spaces between them. *)
Theorem encoder_sees_bounded_queries (self : t C) query top_k threshold
    filter_metadata texts :
  Called (ModelEncode texts)
    ∈ trace (retrieve query top_k threshold filter_metadata self) ->
  ∃ text, texts = [text]
    ∧ len text <= rag_config.max_query_length
    ∧ Forall (λ c, isspace c = false
                   ∧ (isword c = true ∨ c ∈ [".";",";"!";"?"]%char)) text.
Proof.
  set (P := λ ev, ∀ texts, ev = Called (ModelEncode texts) ->
     ∃ text, texts = [text]
       ∧ len text <= rag_config.max_query_length
       ∧ Forall (λ c, isspace c = false
                      ∧ (isword c = true ∨ c ∈ [".";",";"!";"?"]%char)) text).
  intros Hin. unfold retrieve in Hin. rewrite trace_bind_get in Hin.
  revert Hin.
  match goal with
  | |- _ ∈ trace (?body self) -> _ =>
      assert (Hrec : records P body); [|intros Hin; exact (Hrec self _ Hin texts eq_refl)]
  end.
  unfold on_model, on_store, EmbeddingModel.encode_query,
    EmbeddingModel.encode_text, VectorStore.search_similar,
    VectorStore.require_collection.
  repeat records_step;
    subst P; cbv beta; intros texts' Heq; try discriminate Heq.
  injection Heq as <-. cbn [EmbeddingModel.as_list map].
  eexists. split; [reflexivity|]. split.
  - etransitivity; [apply clean_text_length|].
    apply truncated_length. unfold rag_config.max_query_length. lia.
  - rewrite Forall_forall. intros c Hc.
    rewrite EmbeddingFacts.clean_text_filter in Hc.
    apply list_elem_of_filter in Hc as [Hv Hc].
    split; [exact Hv|].
    apply slice_to_subseteq_if, slice_to_subseteq_if, _clean_query_chars in Hc.
    unfold query_char in Hc. unfold EmbeddingFacts.visible in Hv. rewrite Hv in Hc.
    rewrite orb_false_r in Hc. apply orb_true_iff in Hc as [Hc|Hc]; [left; exact Hc|].
    right. apply bool_decide_eq_true in Hc. exact Hc.
Qed.


End Retriever.

#[local] Existing Instance Scenario.canned.
#[local] Existing Instance Scenario.simple_text.

Lemma retrieved_results_are_ranked_and_relevant_witness :
  relevance_rank Cases.near_result = (0 + 1)%nat
  ∧ similarity_score Cases.near_result
    = fdiv 1 (fadd 1 (distance Cases.near_result))
  ∧ (or_float None (similarity_threshold Scenario.ready_retriever)
     <= similarity_score Cases.near_result)%Q
  ∧ passes None (result_metadata Cases.near_result) = true
  ∧ ∃ q, Some (lit "what is near?") = Some q
         ∧ query_match_info Cases.near_result
           = _analyze_query_match (result_content Cases.near_result) q.
Proof.
  apply (retrieved_results_are_ranked_and_relevant Scenario.ready_retriever
           (Some (lit "what is near?")) None None None [Cases.near_result]).
  - vm_compute; reflexivity.
  - reflexivity.
Defined.

Lemma encoder_sees_bounded_queries_witness :
  ∃ text, [lit "whatisnear?"] = [text]
    ∧ len text <= rag_config.max_query_length
    ∧ Forall (λ c, isspace c = false
                   ∧ (isword c = true ∨ c ∈ [".";",";"!";"?"]%char)) text.
Proof.
  apply (encoder_sees_bounded_queries Scenario.ready_retriever
           (Some (lit "what is near?")) None None None [lit "whatisnear?"]).
  vm_compute. apply list_elem_of_here.
Defined.

End RetrieverBehaviour.

(** ** The retriever: the defaults behind falsy arguments *)

Module RetrieverDefaults.
Import PyFacts Eff EffFacts EffMore RAGRetriever RetrieverBehaviour.

Lemma bind_result {S A B} (m : M S A) (k : A -> M S B) s a :
  result (m s) = Returns a -> result (bind m k s) = result (k a (final (m s))).
Proof. intros Hm. unfold bind. cbv zeta. rewrite Hm. reflexivity. Qed.

Lemma try_except_result {S A} (body : M S A) handler s :
  result (try_except body handler s)
  = match result (body s) with
    | Raises e => result (handler e (final (body s)))
    | Returns a => Returns a
    | OutOfFuel => OutOfFuel
    end.
Proof.
  unfold try_except. cbv zeta.
  destruct (result (body s)) eqn:E; cbn [result]; rewrite ?E; reflexivity.
Qed.

Lemma within_result {S T A} (part : S -> option T) update (m : M T A) s t :
  part s = Some t -> result (within part update m s) = result (m t).
Proof. intros Hp. unfold within. rewrite Hp. reflexivity. Qed.

Section Retriever.
Context {C : Type} `{VectorStore.Chroma C} `{PyText}.

(** The text [retrieve] hands to the encoder for the query [q]. *)
Definition sent (self : t C) (q : str) : str :=
  let cleaned_query := _clean_query q in
  if max_query_length self <? len cleaned_query
  then slice_to cleaned_query (max_query_length self)
  else cleaned_query.

(** A ready retriever answers a query that is not blank with the
    post-processed answer of one search of its store, made with
    [top_k or default_top_k] and
    [similarity_threshold or self.similarity_threshold]. *)
Lemma retrieve_searches (self : t C) q top_k threshold filter_metadata store emb :
  is_ready self = true ->
  blank (Some q) = false ->
  result (on_model (λ model, EmbeddingModel.encode_query model (sent self q)) self)
  = Returns emb ->
  vector_store self = Some store ->
  result (retrieve (Some q) top_k threshold filter_metadata self)
  = match result (VectorStore.search_similar emb
                    (or_int top_k (default_top_k self))
                    (or_float threshold (similarity_threshold self)) store) with
    | Returns hits => Returns (_process_search_results hits q filter_metadata)
    | Raises _ => Returns []
    | OutOfFuel => OutOfFuel
    end.
Proof.
  intros Hready Hblank Hemb Hstore. unfold retrieve. rewrite bind_get.
  rewrite Hready. cbn [negb]. cbv iota.
  cbn [blank] in Hblank. rewrite Hblank.
  rewrite try_except_result. fold (sent self q).
  set (prefix := if max_query_length self <? len (_clean_query q)
                 then log LWarning "Query truncated" None else ret tt).
  assert (Hpre : result (prefix self) = Returns tt ∧ final (prefix self) = self).
  { subst prefix. destruct (_ <? _); split; reflexivity. }
  destruct Hpre as [Hpre1 Hpre2].
  assert (Hfinal : ∀ A (k : embedding -> M (t C) A),
            final (on_model (λ model, EmbeddingModel.encode_query model (sent self q)) self)
            = self).
  { intros. apply on_model_preserves. intros model. apply encode_query_preserves. }
  specialize (Hfinal unit (λ _, ret tt)).
  match goal with
  | |- match result (?body self) with _ => _ end = _ =>
      assert (Hres : result (body self)
                     = match result (VectorStore.search_similar emb
                                       (or_int top_k (default_top_k self))
                                       (or_float threshold (similarity_threshold self))
                                       store) with
                       | Returns hits =>
                           Returns (_process_search_results hits q filter_metadata)
                       | Raises e => Raises e
                       | OutOfFuel => OutOfFuel
                       end)
  end.
  { rewrite (bind_result _ _ _ _ Hpre1), Hpre2.
    rewrite (bind_result _ _ _ _ Hemb), Hfinal.
    unfold bind, on_store. cbv zeta.
    rewrite (within_result _ _ _ _ _ Hstore).
    destruct (result (VectorStore.search_similar _ _ _ _)); reflexivity. }
  rewrite Hres.
  destruct (result (VectorStore.search_similar _ _ _ _)); reflexivity.
Qed.

(** C10: [retrieve] called with [top_k = 0] or with a zero threshold does
    what it does when the argument is left out, which is what it does
    with the configured default passed in.  The falsy value never reaches
    the search and the default does: the collection is asked for
    [default_top_k] entries, every result returned has a similarity of at
    least the default threshold, and on a ready retriever a query that is
    not blank is answered with the post-processed entries that
    [search_similar] returns for [default_top_k] and the default
    threshold. *)
Theorem falsy_arguments_fall_back_to_defaults (self : t C) query top_k
    threshold filter_metadata (zero : Q) :
  (zero == 0)%Q ->
  retrieve query (Some 0) threshold filter_metadata self
    = retrieve query None threshold filter_metadata self
  ∧ retrieve query top_k (Some zero) filter_metadata self
    = retrieve query top_k None filter_metadata self
  ∧ retrieve query None None filter_metadata self
    = retrieve query (Some (default_top_k self))
               (Some (similarity_threshold self)) filter_metadata self
  ∧ or_int (Some 0) (default_top_k self) = default_top_k self
  ∧ or_float (Some zero) (similarity_threshold self) = similarity_threshold self
  ∧ (∀ emb n,
       Called (CollectionQuery emb n)
         ∈ trace (retrieve query (Some 0) threshold filter_metadata self) ->
       n = default_top_k self)
  ∧ (∀ results r,
       result (retrieve query top_k (Some zero) filter_metadata self)
       = Returns results ->
       r ∈ results ->
       (similarity_threshold self <= similarity_score r)%Q)
  ∧ (∀ q store emb hits,
       query = Some q ->
       is_ready self = true ->
       blank query = false ->
       result (on_model
                 (λ model, EmbeddingModel.encode_query model (sent self q)) self)
       = Returns emb ->
       vector_store self = Some store ->
       result (VectorStore.search_similar emb (default_top_k self)
                 (similarity_threshold self) store)
       = Returns hits ->
       result (retrieve query (Some 0) (Some zero) filter_metadata self)
       = Returns (_process_search_results hits q filter_metadata)).
Proof.
  intros Hzero. apply Qeq_bool_iff in Hzero.
  assert (Hint : or_int (Some (default_top_k self)) (default_top_k self)
                 = default_top_k self).
  { unfold or_int. destruct (Z.eqb_spec (default_top_k self) 0); congruence. }
  assert (Hfloat : or_float (Some (similarity_threshold self)) (similarity_threshold self)
                   = similarity_threshold self).
  { unfold or_float.
    destruct (Qeq_bool (similarity_threshold self) 0); reflexivity. }
  assert (Hdefault : or_float (Some zero) (similarity_threshold self)
                     = similarity_threshold self).
  { unfold or_float. rewrite Hzero. reflexivity. }
  split; [reflexivity|]. split.
  { unfold retrieve, or_float. rewrite Hzero. reflexivity. }
  split.
  { unfold retrieve. rewrite !bind_get, Hint, Hfloat. reflexivity. }
  split; [reflexivity|]. split; [exact Hdefault|]. split.
  { intros emb n Hcall. apply RetrieverFacts.retrieve_asks_for in Hcall. exact Hcall. }
  split.
  - intros results r Hres Hin.
    apply list_elem_of_lookup_1 in Hin as [i Hi].
    destruct (retrieve_entry _ _ _ _ _ _ _ _ Hres Hi)
      as (q & doc & _ & -> & _ & _ & Hle).
    rewrite Hdefault in Hle. exact Hle.
  - intros q store emb hits -> Hready Hblank Hemb Hstore Hsearch.
    rewrite (retrieve_searches _ _ _ _ _ _ _ Hready Hblank Hemb Hstore).
    rewrite Hdefault. cbn [or_int]. rewrite Z.eqb_refl, Hsearch. reflexivity.
Qed.

End Retriever.

#[local] Existing Instance Scenario.canned.
#[local] Existing Instance Scenario.simple_text.

(** The store of [Scenario.ready_retriever] holds an entry of similarity
    0.888... and one of similarity 0.333...; the configured threshold is
    0.7.  Asked with [top_k = 0] and [similarity_threshold = 0.0] the
    retriever sends the collection a query for 5 entries and returns the
    first entry alone, where a search at threshold 0 returns both. *)
Lemma falsy_arguments_witness :
  result (retrieve (Some (lit "what is near?")) (Some 0) (Some (0 # 5)) None
            Scenario.ready_retriever)
  = Returns [Cases.near_result]
  ∧ (∀ emb n,
       Called (CollectionQuery emb n)
         ∈ trace (retrieve (Some (lit "what is near?")) (Some 0) (Some (0 # 5)) None
                    Scenario.ready_retriever) ->
       n = 5)
  ∧ Called (CollectionQuery [11 # 1] 5)
      ∈ trace (retrieve (Some (lit "what is near?")) (Some 0) (Some (0 # 5)) None
                 Scenario.ready_retriever)
  ∧ Scenario.count
      (result (VectorStore.search_similar [11 # 1] 5 0 Scenario.two_entries))
    = Some 2%nat.
Proof.
  pose proof (falsy_arguments_fall_back_to_defaults Scenario.ready_retriever
                (Some (lit "what is near?")) (Some 0) (Some (0 # 5)) None (0 # 5)
                ltac:(reflexivity))
    as (_ & _ & _ & _ & _ & Hasks & _ & Hsearch).
  split; [|split; [exact Hasks|split]].
  - rewrite (Hsearch (lit "what is near?") Scenario.two_entries [11 # 1]
               [Scenario.tagged "near" ".pdf" (1 # 8)]
               eq_refl eq_refl eq_refl
               ltac:(vm_compute; reflexivity) eq_refl
               ltac:(vm_compute; reflexivity)).
    vm_compute. reflexivity.
  - vm_compute. do 2 apply list_elem_of_further. apply list_elem_of_here.
  - vm_compute. reflexivity.
Defined.

End RetrieverDefaults.

(** ** Indexing: from chunks to one batch for the collection *)

Module IndexingBehaviour.
Import PyFacts TextFacts Eff EffFacts EffMore RAGRetriever.

(** The text [index_chunks] takes from a chunk, if any: its content when
    present and not blank. *)
Definition usable (chunk : RAGRetriever.chunk) : option str :=
  match content chunk with
  | Some text =>
      if negb (truthy text) || negb (truthy (strip text)) then None else Some text
  | None => None
  end.

Definition logged (ev : event) : Prop := ∃ r, ev = Logged r.

Lemma gather_spec chunks : ∀ texts metadatas ids warnings,
  ∃ M I W,
    gather chunks texts metadatas ids warnings
    = (texts ++ omap usable chunks, metadatas ++ M, ids ++ I, warnings ++ W)
    ∧ length M = length (omap usable chunks)
    ∧ length I = length (omap usable chunks)
    ∧ Forall logged W.
Proof.
  induction chunks as [|chunk rest IH]; intros texts metadatas ids warnings.
  - exists [], [], []. rewrite !app_nil_r. repeat split. constructor.
  - assert (Hstep : omap usable (chunk :: rest)
                    = match usable chunk with
                      | Some text => text :: omap usable rest
                      | None => omap usable rest
                      end) by reflexivity.
    rewrite Hstep. clear Hstep. cbn [gather].
    assert (Hu : usable chunk
                 = match content chunk with
                   | Some text =>
                       if negb (truthy text) || negb (truthy (strip text))
                       then None else Some text
                   | None => None
                   end) by reflexivity.
    destruct (content chunk) as [text|].
    + destruct (negb (truthy text) || negb (truthy (strip text))); rewrite Hu.
      * apply IH.
      * match goal with |- context [gather rest (_ ++ [?t]) (_ ++ [?m]) (_ ++ [?i]) _] =>
          destruct (IH (texts ++ [t]) (metadatas ++ [m]) (ids ++ [i]) warnings)
            as (M & I & W & E & HM & HI & HW);
          exists (m :: M), (i :: I), W
        end.
        rewrite E, <- !app_assoc. simpl. repeat split; auto.
    + rewrite Hu.
      match goal with |- context [gather rest _ _ _ (_ ++ [?w])] =>
        destruct (IH texts metadatas ids (warnings ++ [w]))
          as (M & I & W & E & HM & HI & HW);
        exists M, I, (w :: W)
      end.
      rewrite E, <- !app_assoc. simpl. repeat split; auto.
      constructor; [eexists; reflexivity | exact HW].
Qed.

Lemma usable_not_blank (chunks : list RAGRetriever.chunk) (text : str) :
  text ∈ omap usable chunks -> truthy (strip text) = true.
Proof.
  intros Hin. apply list_elem_of_omap in Hin as (chunk & _ & Hu).
  unfold usable in Hu. destruct (content chunk) as [t|]; [|discriminate].
  destruct (truthy t); simpl in Hu; [|discriminate].
  destruct (truthy (strip t)) eqn:E; simpl in Hu; [|discriminate].
  injection Hu as <-. exact E.
Qed.

Section Indexing.
Context {C : Type} `{VectorStore.Chroma C} `{PyText}.

(** The one batch [index_chunks] can send is what [gather] collected. *)
Lemma index_chunks_batch (self : t C) chunks documents metadatas ids :
  Called (CollectionAdd documents metadatas ids) ∈ trace (index_chunks chunks self) ->
  let '(texts, gathered, identifiers, _) := gather chunks [] [] [] [] in
  documents = texts ∧ ids = identifiers
  ∧ length metadatas = length gathered ∧ texts ≠ [].
Proof.
  destruct (gather chunks [] [] [] []) as [[[texts gathered] identifiers] warnings] eqn:E.
  assert (HW : Forall logged warnings).
  { destruct (gather_spec chunks [] [] [] []) as (M & I & W & E' & _ & _ & HW).
    rewrite E in E'. injection E' as _ _ _ ->. exact HW. }
  set (P := λ ev, ∀ d m i, ev = Called (CollectionAdd d m i) ->
     d = texts ∧ i = identifiers ∧ length m = length gathered ∧ texts ≠ []).
  intros Hin. unfold index_chunks in Hin. rewrite trace_bind_get in Hin.
  revert Hin.
  match goal with
  | |- _ ∈ trace (?body self) -> _ =>
      assert (Hrec : records P body);
        [|intros Hin; exact (Hrec self _ Hin documents metadatas ids eq_refl)]
  end.
  rewrite E.
  unfold on_model, on_store, EmbeddingModel.encode_text,
    VectorStore.add_documents, VectorStore.require_collection,
    VectorStore.set_collection.
  destruct texts as [|first others]; cbn [truthy negb]; cbv iota;
    repeat first
      [ match goal with
        | |- records _ (bind (ret _) _) => apply records_bind_ret
        end
      | records_step
      | apply records_put
      | apply records_tell_all ];
    subst P; cbv beta;
    try (intros d m i Heq; discriminate Heq);
    try (eapply Forall_impl; [exact HW|]; intros ev [r ->] d m i Heq;
         discriminate Heq).
  intros d m i Heq. injection Heq as <- <- <-.
  split; [reflexivity|]. split; [reflexivity|].
  split; [apply length_map | discriminate].
Qed.

(** X22: [index_chunks] sends the collection one batch that lines up:
    the contents of the chunks that have one and are not blank, in order
    and not empty, with exactly one identifier and one metadata mapping
    for each. *)
Theorem index_chunks_sends_aligned_batch (self : t C) chunks documents
    metadatas ids :
  Called (CollectionAdd documents metadatas ids) ∈ trace (index_chunks chunks self) ->
  documents = omap usable chunks
  ∧ documents ≠ []
  ∧ Forall (λ text, truthy (strip text) = true) documents
  ∧ length ids = length documents
  ∧ length metadatas = length documents.
Proof.
  intros Hin. apply index_chunks_batch in Hin.
  destruct (gather_spec chunks [] [] [] []) as (M & I & W & E & HM & HI & HW).
  rewrite E in Hin. cbn [app] in Hin. destruct Hin as (-> & -> & Hm & Hne).
  split; [reflexivity|]. split; [exact Hne|].
  split; [rewrite Forall_forall; apply usable_not_blank|].
  split; [exact HI | congruence].
Qed.

(** *** Chunks that come from the chunker *)






End Indexing.

#[local] Existing Instance Scenario.canned.
#[local] Existing Instance Scenario.simple_text.

Lemma index_chunks_sends_aligned_batch_witness :
  [lit "alpha text"; lit "gamma text"] = omap usable Cases.loose_chunks
  ∧ [lit "alpha text"; lit "gamma text"] ≠ []
  ∧ Forall (λ text, truthy (strip text) = true) [lit "alpha text"; lit "gamma text"]
  ∧ length [lit "a-1"; lit "chunk_1"] = length [lit "alpha text"; lit "gamma text"]
  ∧ length [({[ lit "chunk_id" := PScalar (SStr (lit "a-1")) ]} : gmap str pyval); ∅]
    = length [lit "alpha text"; lit "gamma text"].
Proof.
  apply (index_chunks_sends_aligned_batch Scenario.ready_retriever Cases.loose_chunks).
  vm_compute. apply list_elem_of_further, list_elem_of_further, list_elem_of_further,
    list_elem_of_here.
Defined.

End IndexingBehaviour.

(** ** Retrieval with conversation context *)

Module ContextBehaviour.
Import PyFacts TextFacts Eff EffFacts EffMore RAGRetriever RetrieverContext.

Lemma last_two {A} (history : list A) :
  slice_from history (-2) = drop (length history - 2) history.
Proof.
  unfold slice_from, clamp, len. f_equal.
  change (-2 <? 0) with true. cbv iota. lia.
Qed.

Lemma slice_to_prefix {A} (s : list A) n : slice_to s n `prefix_of` s.
Proof.
  unfold slice_to, slice, clamp. change (0 <? 0) with false. cbv iota.
  rewrite (Z.min_l 0) by (unfold len; lia). apply prefix_take.
Qed.

Lemma enhanced_query_differs (query message : str) history :
  _enhance_query_with_context query (Some (message :: history)) ≠ query.
Proof.
  unfold _enhance_query_with_context. cbn [truthy negb]. cbv iota.
  intros Heq. apply (f_equal (@length ascii)) in Heq.
  rewrite !length_app in Heq. cbn [length] in Heq. rewrite !length_app in Heq.
  change (length (lit "Context: ")) with 9%nat in Heq.
  change (length (lit "Query: ")) with 7%nat in Heq. lia.
Qed.

(** X24: without history the query is left alone; with some, the
    enhanced query is [Context: ], at most 200 characters taken from the
    start of the last two messages joined by a space, a line feed,
    [Query: ] and the query itself, so it is never the query as given. *)
Theorem enhance_query_shape (query : str) :
  _enhance_query_with_context query None = query
  ∧ _enhance_query_with_context query (Some []) = query
  ∧ ∀ message history,
      ∃ context,
        _enhance_query_with_context query (Some (message :: history))
        = lit "Context: " ++ context ++ "010"%char :: lit "Query: " ++ query
        ∧ len context <= 200
        ∧ context `prefix_of`
            join (lit " ")
                 (drop (length (message :: history) - 2) (message :: history))
        ∧ _enhance_query_with_context query (Some (message :: history)) ≠ query.
Proof.
  split; [reflexivity|]. split; [reflexivity|].
  intros message history.
  pose proof (enhanced_query_differs query message history) as Hne. revert Hne.
  unfold _enhance_query_with_context.
  cbn [truthy negb]. cbv iota. rewrite last_two. intros Hne.
  set (recent := join (lit " ") _).
  exists (if 200 <? len recent then slice_to recent 200 else recent).
  split; [reflexivity|]. split; [|split].
  - destruct (Z.ltb_spec 200 (len recent)); [|lia].
    unfold slice_to. apply (slice_window recent 0 200). lia.
  - destruct (200 <? len recent); [apply slice_to_prefix | reflexivity].
  - exact Hne.
Qed.

Section Context.
Context {C : Type} `{VectorStore.Chroma C} `{PyText}.


End Context.

End ContextBehaviour.

(** ** Match analysis, statistics and validation *)

Module ReportingFacts.
Import PyFacts TextFacts RAGRetriever.

Lemma lower_char_idem c : lower_char (lower_char c) = lower_char c.
Proof.
  destruct c as [[] [] [] [] [] [] [] []]; reflexivity.
Qed.

Lemma lower_idem s : lower (lower s) = lower s.
Proof.
  unfold lower. rewrite <- list_fmap_compose. apply list_fmap_ext.
  intros i c _. apply lower_char_idem.
Qed.

Lemma ratio_bounds (a b : Z) :
  0 <= a <= b -> 0 < b -> (0 <= inject_Z a / inject_Z b <= 1)%Q.
Proof.
  intros [Ha Hab] Hb.
  assert (Hpos : (0 < inject_Z b)%Q) by (change 0%Q with (inject_Z 0); rewrite <- Zlt_Qlt; exact Hb).
  split.
  - apply Qle_shift_div_l; [exact Hpos|]. rewrite Qmult_0_l.
    change 0%Q with (inject_Z 0). rewrite <- Zle_Qle. exact Ha.
  - apply Qle_shift_div_r; [exact Hpos|]. rewrite Qmult_1_l.
    rewrite <- Zle_Qle. exact Hab.
Qed.

(** X26: the match analysis counts, among the lower-cased words of the
    query, those that occur in the lower-cased document: the count is at
    most the number of query words, the percentage lies between 0 and 1
    and is 0, without a division, for a query without words, and the
    analysis does not depend on the case of either text. *)
Theorem query_match_analysis (document query : str) :
  let info := _analyze_query_match document query in
  (exact_word_matches info <= total_query_words info)%nat
  ∧ exact_word_matches info = length (matched_words info)
  ∧ (0 <= match_percentage info <= 1)%Q
  ∧ (total_query_words info = 0%nat -> match_percentage info = 0%Q)
  ∧ (∀ word, word ∈ matched_words info
       ↔ word ∈ split (lower query) ∧ contains (lower document) word = true)
  ∧ _analyze_query_match (lower document) (lower query) = info.
Proof.
  cbv zeta. unfold _analyze_query_match.
  cbn [exact_word_matches total_query_words match_percentage matched_words].
  set (words := split (lower query)).
  set (found := filter (λ word, contains (lower document) word = true) words).
  assert (Hle : (length found <= length words)%nat) by apply length_filter.
  split; [exact Hle|]. split; [reflexivity|]. split; [|split; [|split]].
  - destruct words as [|w ws] eqn:E; cbn [truthy]; [split; discriminate|].
    destruct (ratio_bounds (len found) (len (w :: ws))) as [H0 H1];
      [unfold len; lia | unfold len; simpl; lia |].
    unfold fdiv. split; [apply FloatFacts.fl_nonneg; exact H0|].
    apply Qle_trans with (fl 1); [|rewrite FloatFacts.fl_one; apply Qle_refl].
    apply FloatFacts.fl_le; assumption.
  - intros Hnone. destruct words; [reflexivity | discriminate].
  - intros word. subst found. rewrite list_elem_of_filter. tauto.
  - rewrite !lower_idem. reflexivity.
Qed.

(** *** Statistics over chunks *)

Import ChunkStatistics.

Lemma minimum_le x l : minimum x l <= x ∧ Forall (λ v, minimum x l <= v) l.
Proof.
  unfold minimum. induction l as [|v l [IHx IHl]]; simpl; [split; [lia|constructor]|].
  split; [lia|]. constructor; [lia|].
  eapply Forall_impl; [exact IHl|]. simpl. intros; lia.
Qed.

Lemma maximum_ge x l : x <= maximum x l ∧ Forall (λ v, v <= maximum x l) l.
Proof.
  unfold maximum. induction l as [|v l [IHx IHl]]; simpl; [split; [lia|constructor]|].
  split; [lia|]. constructor; [lia|].
  eapply Forall_impl; [exact IHl|]. simpl. intros; lia.
Qed.

Lemma minimum_ge lo x l : lo <= x -> Forall (λ v, lo <= v) l -> lo <= minimum x l.
Proof.
  intros Hx. unfold minimum. induction 1; simpl; lia.
Qed.

Lemma sum_bounds lo hi l :
  Forall (λ v, lo <= v <= hi) l -> len l * lo <= sum l <= len l * hi.
Proof.
  unfold sum, len. induction 1 as [|v l Hv _ IH]; simpl length; simpl foldr; [lia|].
  rewrite Nat2Z.inj_succ. nia.
Qed.

Lemma average_bounds (lo hi total n : Z) :
  0 < n -> n * lo <= total <= n * hi ->
  (inject_Z lo <= inject_Z total / inject_Z n <= inject_Z hi)%Q.
Proof.
  intros Hn [Hlo Hhi].
  assert (Hpos : (0 < inject_Z n)%Q) by (change 0%Q with (inject_Z 0); rewrite <- Zlt_Qlt; exact Hn).
  split.
  - apply Qle_shift_div_l; [exact Hpos|].
    rewrite <- inject_Z_mult, <- Zle_Qle. lia.
  - apply Qle_shift_div_r; [exact Hpos|].
    rewrite <- inject_Z_mult, <- Zle_Qle. lia.
Qed.

Lemma minimum_nonneg x l : 0 <= x -> Forall (λ v, 0 <= v) l -> 0 <= minimum x l.
Proof. apply minimum_ge. Qed.

(** A float average lies between the bounds of the terms, rounded. *)
Lemma float_average_bounds (lo hi total n : Z) :
  0 <= lo -> 0 < n -> n * lo <= total <= n * hi ->
  (fl (inject_Z lo) <= fdiv (inject_Z total) (inject_Z n) <= fl (inject_Z hi))%Q.
Proof.
  intros Hlo Hn Hb. destruct (average_bounds lo hi total n Hn Hb) as [H1 H2].
  assert (H0 : (0 <= inject_Z lo)%Q)
    by (change 0%Q with (inject_Z 0); rewrite <- Zle_Qle; exact Hlo).
  unfold fdiv. split; apply FloatFacts.fl_le; lra.
Qed.

(** X27: [get_chunk_stats] divides only when there is a chunk.  The
    total is the sum of the chunk lengths, the minimum and the maximum
    bound the length of every chunk, and the average size is a float, the
    double nearest the quotient of the total by the number of chunks: it
    lies between the minimum and the maximum as long as these are below
    2 ** 53.  Over chunks that come from the chunker the minimum and the
    average size are at least 50, and there is at least one word per
    chunk on average. *)
Theorem chunk_stats_sound (chunks : list Chunk.t) :
  match get_chunk_stats chunks with
  | NoChunks => chunks = []
  | Stats s =>
      total_chunks s = length chunks
      ∧ (0 < total_chunks s)%nat
      ∧ total_content_length s = sum (map (λ c, len (Chunk.content c)) chunks)
      ∧ avg_chunk_size s
        = fdiv (inject_Z (total_content_length s))
               (inject_Z (Z.of_nat (total_chunks s)))
      ∧ (max_chunk_size s <= 2 ^ 53 ->
         (inject_Z (min_chunk_size s) <= avg_chunk_size s
          <= inject_Z (max_chunk_size s))%Q)
      ∧ Forall (λ c, min_chunk_size s <= len (Chunk.content c) <= max_chunk_size s)
          chunks
      ∧ ∀ processor e fuel documents,
          ChunkProcessor.process_multiple_documents processor e fuel documents
            = Returns chunks ->
          50 <= min_chunk_size s
          ∧ (50 <= avg_chunk_size s)%Q
          ∧ (1 <= avg_word_count s)%Q
  end.
Proof.
  destruct chunks as [|first rest]; [reflexivity|].
  cbn [get_chunk_stats total_chunks avg_chunk_size min_chunk_size max_chunk_size
       avg_word_count total_content_length].
  set (size := λ chunk : Chunk.t, len (Chunk.content chunk)).
  set (words := λ chunk : Chunk.t, len (split (Chunk.content chunk))).
  set (lo := minimum (size first) (map size rest)).
  set (hi := maximum (size first) (map size rest)).
  destruct (minimum_le (size first) (map size rest)) as [Hlo0 Hlo].
  destruct (maximum_ge (size first) (map size rest)) as [Hhi0 Hhi].
  fold lo in Hlo0, Hlo. fold hi in Hhi0, Hhi.
  assert (Hall : Forall (λ v, lo <= v <= hi) (map size (first :: rest))).
  { constructor; [lia|]. rewrite Forall_forall in *. intros v Hv.
    specialize (Hlo v Hv). specialize (Hhi v Hv). lia. }
  assert (Hn : 0 < len (map size (first :: rest))) by (unfold len; simpl; lia).
  assert (Hlo_pos : 0 <= lo).
  { apply minimum_nonneg; [apply len_nonneg|].
    rewrite Forall_fmap, Forall_forall. intros c _. apply len_nonneg. }
  assert (Hbounds : ∀ lo' hi' (measure : Chunk.t -> Z),
            0 <= lo' ->
            Forall (λ v, lo' <= v <= hi') (map measure (first :: rest)) ->
            (fl (inject_Z lo')
             <= fdiv (inject_Z (sum (map measure (first :: rest))))
                     (inject_Z (len (map measure (first :: rest))))
             <= fl (inject_Z hi'))%Q).
  { intros lo' hi' measure Hpos Hm. apply float_average_bounds; [exact Hpos| |].
    - unfold len. simpl. lia.
    - apply sum_bounds. exact Hm. }
  split; [reflexivity|]. split; [simpl; lia|]. split; [reflexivity|].
  split; [unfold len; rewrite length_map; reflexivity|].
  split; [|split].
  - intros Hbig. fold (size first) in Hbig |- *. fold lo hi in Hbig |- *.
    destruct (Hbounds lo hi size Hlo_pos Hall) as [H1 H2].
    assert (Hle : lo <= hi).
    { inversion Hall as [|? ? Hfirst _]. lia. }
    pose proof (FloatFacts.fl_integer lo ltac:(lia)) as Elo.
    pose proof (FloatFacts.fl_integer hi ltac:(lia)) as Ehi.
    split; lra.
  - rewrite Forall_fmap in Hall. exact Hall.
  - intros processor e fuel documents Hchunks.
    assert (Hmade : ∀ c, c ∈ first :: rest -> 50 <= size c ∧ 1 <= words c).
    { intros c Hc.
      destruct (ChunkerBehaviour.process_multiple_documents_elem _ _ _ _ _ _ Hchunks Hc)
        as (document & cs & _ & Hdoc & Hcs).
      destruct (ChunkerBehaviour.process_document_made _ _ _ _ _ _ Hdoc Hcs)
        as (n & k & text & -> & Hbig).
      pose proof (ChunkerBehaviour.not_too_small_has_text _ Hbig) as Htext.
      unfold ChunkProcessor.too_small in Hbig. apply Z.ltb_ge in Hbig.
      subst size words. simpl. split; [exact Hbig|].
      assert (Hne : split (strip text) ≠ []).
      { apply split_nonempty. rewrite strip_idem. exact Htext. }
      destruct (split (strip text)); [congruence | unfold len; simpl; lia]. }
    assert (Hsum : ∀ l, Forall (λ v, 0 <= v) l -> Forall (λ v, v <= sum l) l).
    { intros l Hl. induction Hl as [|v l Hv Hl IH]; [constructor|].
      assert (0 <= sum l).
      { clear -Hl. induction Hl; unfold sum in *; simpl; lia. }
      constructor; [unfold sum; simpl; fold (sum l); lia|].
      eapply Forall_impl; [exact IH|]. simpl. intros x Hx.
      unfold sum. simpl. fold (sum l). lia. }
    assert (Hfloor : ∀ (measure : Chunk.t -> Z) floor,
              0 <= floor -> floor <= 2 ^ 53 ->
              (∀ c, c ∈ first :: rest -> floor <= measure c) ->
              (inject_Z floor
               <= fdiv (inject_Z (sum (map measure (first :: rest))))
                       (inject_Z (len (map measure (first :: rest)))))%Q).
    { intros measure floor Hf0 Hf53 Hm.
      assert (Hge : Forall (λ v, floor <= v) (map measure (first :: rest))).
      { rewrite Forall_fmap, Forall_forall. intros c Hc. apply Hm, Hc. }
      assert (Hpos : Forall (λ v, 0 <= v) (map measure (first :: rest))).
      { eapply Forall_impl; [exact Hge|]. simpl. intros; lia. }
      apply Hsum in Hpos.
      destruct (Hbounds floor (sum (map measure (first :: rest))) measure Hf0)
        as [H1 _].
      { rewrite Forall_forall in *. intros v Hv.
        specialize (Hge v Hv). specialize (Hpos v Hv). lia. }
      pose proof (FloatFacts.fl_integer floor ltac:(lia)) as Efloor. lra. }
    split; [|split].
    + apply minimum_ge; [apply Hmade, list_elem_of_here|].
      rewrite Forall_fmap, Forall_forall. intros c Hc.
      apply Hmade, list_elem_of_further, Hc.
    + apply (Hfloor size 50); [lia | lia |]. intros c Hc. apply Hmade, Hc.
    + apply (Hfloor words 1); [lia | lia |]. intros c Hc. apply Hmade, Hc.
Qed.

(** *** Validation and the chunker *)

Import ChunkProcessor.

(** X28: a document that [validate_document] accepts gets past the
    chunker's own checks: neither rejection is logged, and every chunk
    made of it carries the document's own source and metadata, not the
    defaults. *)
Theorem validated_documents_are_chunked (document : Document.t) self e fuel :
  (DocumentLoader.validate_document document).1 = true ->
  let '(returned, logs) := process_document self e fuel document in
  (Log LError "Invalid document format" None ∉ logs)
  ∧ (Log LWarning "Document has no content to chunk" None ∉ logs)
  ∧ ∀ chunks c, returned = Returns chunks -> c ∈ chunks ->
      Some (Chunk.source_document (Chunk.meta c)) = Document.source document
      ∧ Some (Chunk.source_metadata (Chunk.meta c)) = Document.metadata document.
Proof.
  unfold DocumentLoader.validate_document.
  destruct (Document.content document) as [content|] eqn:Hc; [|discriminate].
  destruct (Document.metadata document) as [metadata|] eqn:Hm; [|discriminate].
  destruct (Document.source document) as [source|] eqn:Hs; [|discriminate].
  destruct (negb (truthy content) || negb (truthy (strip content))) eqn:Hblank;
    [discriminate|].
  intros _.
  destruct (process_document self e fuel document) as [returned logs] eqn:Hrun.
  assert (Hret : (process_document self e fuel document).1 = returned)
    by (rewrite Hrun; reflexivity).
  assert (Hlog : (process_document self e fuel document).2 = logs)
    by (rewrite Hrun; reflexivity).
  clear Hrun. subst returned logs.
  assert (Hlogs : ∀ r, r ∈ (process_document self e fuel document).2 ->
            r = Log LWarning "Reached max chunks limit for document" None
            ∨ ∃ ex, r = Log LError "Error processing document" (Some ex)).
  { unfold process_document. rewrite Hc, Hblank.
    destruct (segmentation self e fuel content) as [segments|ex|].
    - generalize (@nil Chunk.t) as processed. generalize 0%nat as i.
      induction segments as [|text rest IH]; intros i processed r; simpl.
      + intros Hr. inversion Hr.
      + destruct (too_small text); [apply IH|].
        destruct (_ <=? _).
        * simpl. intros Hr. apply list_elem_of_singleton in Hr. left. exact Hr.
        * apply IH.
    - intros r Hr. apply list_elem_of_singleton in Hr. right. eauto.
    - intros r Hr. inversion Hr. }
  split; [|split].
  - intros Hin. destruct (Hlogs _ Hin) as [E|[ex E]]; discriminate E.
  - intros Hin. destruct (Hlogs _ Hin) as [E|[ex E]]; discriminate E.
  - intros chunks c Hret Hin.
    destruct (ChunkerBehaviour.process_document_made _ _ _ _ _ _ Hret Hin)
      as (n & k & text & -> & _).
    rewrite Hs, Hm. split; reflexivity.
Qed.

Lemma validated_documents_are_chunked_witness :
  let '(returned, logs) :=
    process_document Scenario.narrow Scenario.plain 1
      (Cases.full_document Scenario.three_sentences) in
  (Log LError "Invalid document format" None ∉ logs)
  ∧ (Log LWarning "Document has no content to chunk" None ∉ logs)
  ∧ ∀ chunks c, returned = Returns chunks -> c ∈ chunks ->
      Some (Chunk.source_document (Chunk.meta c))
      = Document.source (Cases.full_document Scenario.three_sentences)
      ∧ Some (Chunk.source_metadata (Chunk.meta c))
        = Document.metadata (Cases.full_document Scenario.three_sentences).
Proof.
  apply (validated_documents_are_chunked
           (Cases.full_document Scenario.three_sentences)
           Scenario.narrow Scenario.plain 1).
  vm_compute; reflexivity.
Defined.

End ReportingFacts.

